(** * colors-help: the colour core ([mcp/src/color.ts])

    A shallow embedding of the colour module and the properties its
    specification states about it.

    Numbers.  A TypeScript [number] is an IEEE 754 binary64 value, and so is
    a Rocq primitive [float]: [+], [-], [*], [/] and the comparisons of the
    conversion code are the kernel's binary64 operations, rounding included.
    The contrast code calls [Math.pow], which ECMA-262 leaves
    implementation-approximated; there the arithmetic is read over the real
    numbers, on the exact value of each channel.

    Strings.  A JavaScript string is the sequence of its UTF-16 code units,
    here a [list N]. *)

From Stdlib Require Import ZArith NArith List Bool Lia Floats Uint63.
From Stdlib Require Import String Ascii Reals Lra.
From stdpp Require Import gmap.
Import ListNotations.

#[local] Set Warnings "-inexact-float".
#[local] Open Scope Z_scope.

(* ===================================================================== *)
(** * The JavaScript runtime the module relies on                         *)
(* ===================================================================== *)

Module JS.

(** ** Numbers *)

Abbreviation number := float (only parsing).

(** An integer as a [number]; exact for [|z| < 2^53]. *)
Definition Z2F (z : Z) : number :=
  match z with
  | Z0 => 0%float
  | Zpos _ => of_uint63 (Uint63.of_Z z)
  | Zneg _ => (- of_uint63 (Uint63.of_Z (- z)))%float
  end.

(** The integral part of a [number] (truncation toward zero); [0] for
    [NaN] and the infinities. *)
Definition F2Z (x : number) : Z :=
  match Prim2SF x with
  | S754_finite sg m e =>
      let v := match e with
               | Zneg k => Z.shiftr (Zpos m) (Zpos k)
               | _ => Z.shiftl (Zpos m) e
               end in
      if sg then - v else v
  | _ => 0
  end.

(** [integral x]: [x] is a finite number with no fractional part. *)
Definition integral (x : number) : bool :=
  match Prim2SF x with
  | S754_zero _ => true
  | S754_finite _ m e =>
      match e with
      | Zneg k => Z.land (Zpos m) (Z.ones (Zpos k)) =? 0
      | _ => true
      end
  | _ => false
  end.

Definition two52 : number := 4503599627370496%float.

(** [Math.round]: the integral number closest to [x], a tie going toward
    +infinity; [NaN], the infinities and numbers from [2^52] on (all
    integral) are returned as they are, and a zero result has the sign of
    [x].  Below [2^52] adding and removing [2^52] rounds [x] to the nearest
    integer [n], ties to even, and [x - n] is exact: only a tie that went
    down has to be moved up. *)
Definition Math_round (x : number) : number :=
  if (abs x <? two52)%float then
    let n := if (0 <=? x)%float then ((x + two52) - two52)%float
             else ((x - two52) + two52)%float in
    let u := if (x - n =? 0.5)%float then (n + 1)%float else n in
    if (u =? 0)%float then (x * 0)%float else u
  else x.

(** The same function through exact integer arithmetic on the binary
    expansion: [floor (x + 1/2)]. *)
Definition Math_round_exact (x : number) : number :=
  match Prim2SF x with
  | S754_finite sg m e =>
      let num := if sg then Zneg m else Zpos m in
      let r := match e with
               | Zneg k => (2 * num + 2 ^ Zpos k) / 2 ^ (Zpos k + 1)
               | _ => num * 2 ^ e
               end in
      if r =? 0 then (if sg then neg_zero else 0%float)
      else if Z.abs r <? 2 ^ 53 then Z2F r
      else x
  | _ => x
  end.

Definition Math_abs (x : number) : number := abs x.

(** [Math.max] and [Math.min] of two numbers: [NaN] when either is, and
    [+0] above [-0]. *)
Definition Math_max2 (a b : number) : number :=
  if is_nan a || is_nan b then nan
  else if (a <? b)%float then b
  else if (b <? a)%float then a
  else if get_sign a then b else a.

Definition Math_min2 (a b : number) : number :=
  if is_nan a || is_nan b then nan
  else if (a <? b)%float then a
  else if (b <? a)%float then b
  else if get_sign a then a else b.

(** [Math.max(a, b, c)] folds from the left. *)
Definition Math_max3 (a b c : number) : number := Math_max2 (Math_max2 a b) c.
Definition Math_min3 (a b c : number) : number := Math_min2 (Math_min2 a b) c.

(** [x % y] for finite [0 <= x], [0 < y]: [x mod y = (x mod 2y) mod y], and
    the last subtraction is exact since [y <= x' < 2y]. *)
Fixpoint rem_pos (fuel : nat) (x y : number) : number :=
  match fuel with
  | O => x
  | S fuel' =>
      if (x <? y)%float then x
      else let x' := rem_pos fuel' x (y + y)%float in
           if (x' <? y)%float then x' else (x' - y)%float
  end.

(** The [%] operator on numbers: the exact remainder of the truncated
    division, with the sign of the dividend.  Two finite binary64 values
    are less than [2^2200] apart in scale, which bounds the recursion. *)
Definition Number_rem (a b : number) : number :=
  if is_nan a || is_nan b || is_infinity a || (b =? 0)%float then nan
  else if is_infinity b then a
  else let r := rem_pos 2200 (abs a) (abs b) in
       if get_sign a then (- r)%float else r.

Arguments Math_round x%_float.
Arguments Math_round_exact x%_float.
Arguments Math_abs x%_float.
Arguments Math_max2 (a b)%_float.
Arguments Math_min2 (a b)%_float.
Arguments Math_max3 (a b c)%_float.
Arguments Math_min3 (a b c)%_float.
Arguments Number_rem (a b)%_float.

(** ** Strings *)

Abbreviation jstring := (list N) (only parsing).

(** A literal, written as a Rocq string of ASCII characters. *)
Fixpoint str (s : string) : jstring :=
  match s with
  | EmptyString => []
  | String a s' => N_of_ascii a :: str s'
  end.

Definition chr (a : ascii) : N := N_of_ascii a.

(** The double-quote character. *)
Definition dquote : N := 34%N.

Definition in_range (lo hi c : N) : bool := (lo <=? c)%N && (c <=? hi)%N.

Definition is_digit (c : N) : bool := in_range 48 57 c.

Definition is_hex_digit (c : N) : bool :=
  in_range 48 57 c || in_range 97 102 c || in_range 65 70 c.

(** Lowercase hexadecimal digits only. *)
Definition is_lower_hex (c : N) : bool := in_range 48 57 c || in_range 97 102 c.

(** WhiteSpace and LineTerminator code points of ECMA-262: what
    [String.prototype.trim] strips and the regular-expression class [\s]
    matches. *)
Definition is_space (c : N) : bool :=
  in_range 9 13 c || (c =? 32)%N || (c =? 160)%N || (c =? 5760)%N
  || in_range 8192 8202 c || (c =? 8232)%N || (c =? 8233)%N
  || (c =? 8239)%N || (c =? 8287)%N || (c =? 12288)%N || (c =? 65279)%N.

Fixpoint trimStart (s : jstring) : jstring :=
  match s with
  | c :: s' => if is_space c then trimStart s' else s
  | [] => []
  end.

Definition trim (s : jstring) : jstring := rev (trimStart (rev (trimStart s))).

(** [toLowerCase] on the ASCII letters (the only letters it is applied to
    are hexadecimal digits). *)
Definition lower (c : N) : N := if in_range 65 90 c then (c + 32)%N else c.
Definition toLowerCase (s : jstring) : jstring := map lower s.

(** [s.slice(i, j)] for [0 <= i <= j]. *)
Definition slice (i j : nat) (s : jstring) : jstring := firstn (j - i) (skipn i s).

(** [s.replace(c, '')] with a one-character pattern: the first occurrence
    is removed. *)
Fixpoint remove_first (c : N) (s : jstring) : jstring :=
  match s with
  | [] => []
  | d :: s' => if (d =? c)%N then s' else d :: remove_first c s'
  end.

(** [s.padStart(n, '0')]. *)
Definition padStart0 (n : nat) (s : jstring) : jstring :=
  repeat (chr "0") (n - length s) ++ s.

(** The digit of a value below the radix, lowercase as [toString] prints. *)
Definition digit_char (d : N) : N :=
  if (d <? 10)%N then (48 + d)%N else (87 + d)%N.

Fixpoint digits_aux (fuel : nat) (radix n : N) (acc : jstring) : jstring :=
  match fuel with
  | O => acc
  | S fuel' =>
      let acc' := digit_char (n mod radix) :: acc in
      if (n / radix =? 0)%N then acc' else digits_aux fuel' radix (n / radix) acc'
  end.

(** The digits of a natural number in a radix, most significant first. *)
Definition digits (radix n : N) : jstring :=
  digits_aux (S (N.to_nat (N.log2 n))) radix n [].

(** [n.toString(radix)] for the radixes 10 and 16 the module uses.  An
    integral [n] prints exactly as shown; for a number with a fractional part
    JavaScript appends a radix point and further digits, which are left out
    here (every number the module prints is integral). *)
Definition Number_toString (radix : N) (n : number) : jstring :=
  if is_nan n then str "NaN"
  else if (n =? infinity)%float then str "Infinity"
  else if (n =? neg_infinity)%float then str "-Infinity"
  else
    let z := F2Z n in
    (if z <? 0 then [chr "-"] else []) ++ digits radix (Z.to_N (Z.abs z)).

(** The value of a digit in radix 16, if it is one. *)
Definition hex_value (c : N) : option N :=
  if in_range 48 57 c then Some (c - 48)%N
  else if in_range 97 102 c then Some (c - 87)%N
  else if in_range 65 70 c then Some (c - 55)%N
  else None.

(** The longest prefix of hexadecimal digits, as a value, with the number of
    digits read. *)
Fixpoint read_hex (s : jstring) (acc : N) (count : nat) : N * nat :=
  match s with
  | c :: s' =>
      match hex_value c with
      | Some d => read_hex s' (16 * acc + d)%N (S count)
      | None => (acc, count)
      end
  | [] => (acc, count)
  end.

(** [parseInt(s, 16)]: leading white space, an optional sign, an optional
    [0x] prefix, then the longest run of digits; [NaN] when there is none. *)
Definition parseInt16 (s : jstring) : number :=
  let s1 := trimStart s in
  let '(neg, s2) :=
    match s1 with
    | c :: s' => if (c =? chr "-")%N then (true, s')
                 else if (c =? chr "+")%N then (false, s')
                 else (false, s1)
    | [] => (false, s1)
    end in
  let s3 :=
    match s2 with
    | c0 :: cx :: s' =>
        if (c0 =? chr "0")%N && ((cx =? chr "x")%N || (cx =? chr "X")%N)
        then s' else s2
    | _ => s2
    end in
  let '(v, k) := read_hex s3 0%N O in
  match k with
  | O => nan
  | _ => if neg then (- Z2F (Z.of_N v))%float else Z2F (Z.of_N v)
  end.

(** The value of a string of decimal digits: unary [+] applied to a capture
    of [\d{1,3}]. *)
Fixpoint read_dec (s : jstring) (acc : N) : N :=
  match s with
  | c :: s' => read_dec s' (10 * acc + (c - 48))%N
  | [] => acc
  end.

Definition ToNumber_digits (s : jstring) : number := Z2F (Z.of_N (read_dec s 0%N)).

(** [String(i)] for an array index. *)
Definition String_of_index (i : nat) : jstring := digits 10 (N.of_nat i).

(** Truthiness of a string value: every string but the empty one. *)
Definition truthy (s : jstring) : bool :=
  match s with [] => false | _ => true end.

End JS.
Import JS.

(* ===================================================================== *)
(** * Conversions                                                          *)
(* ===================================================================== *)

Record HSLColor := mkHSL { h : number; s : number; l : number }.

Record RGBColor := mkRGB { r : number; g : number; b : number }.

Arguments mkHSL (h s l)%_float.
Arguments mkRGB (r g b)%_float.

Definition hslToRgb (hsl : HSLColor) : RGBColor :=
  let '(mkHSL h s l) := hsl in
  let sn := (s / 100)%float in
  let ln := (l / 100)%float in
  let c := ((1 - Math_abs (2 * ln - 1)) * sn)%float in
  let x := (c * (1 - Math_abs (Number_rem (h / 60) 2 - 1)))%float in
  let m := (ln - c / 2)%float in
  let '(r1, g1, b1) :=
    if (h <? 60)%float then (c, x, 0%float)
    else if (h <? 120)%float then (x, c, 0%float)
    else if (h <? 180)%float then (0%float, c, x)
    else if (h <? 240)%float then (0%float, x, c)
    else if (h <? 300)%float then (x, 0%float, c)
    else (c, 0%float, x) in
  mkRGB (Math_round ((r1 + m) * 255)%float)
        (Math_round ((g1 + m) * 255)%float)
        (Math_round ((b1 + m) * 255)%float).

Definition rgbToHsl (rgb : RGBColor) : HSLColor :=
  let '(mkRGB r g b) := rgb in
  let rn := (r / 255)%float in
  let gn := (g / 255)%float in
  let bn := (b / 255)%float in
  let max := Math_max3 rn gn bn in
  let min := Math_min3 rn gn bn in
  let d := (max - min)%float in
  let l := ((max + min) / 2)%float in
  if (d =? 0)%float then mkHSL 0%float 0%float (Math_round (l * 100)%float)
  else
    let s := if (0.5 <? l)%float then (d / (2 - max - min))%float
             else (d / (max + min))%float in
    let h :=
      if (max =? rn)%float
      then (((gn - bn) / d + (if (gn <? bn)%float then 6 else 0)) * 60)%float
      else if (max =? gn)%float then (((bn - rn) / d + 2) * 60)%float
      else (((rn - gn) / d + 4) * 60)%float in
    mkHSL (Math_round h) (Math_round (s * 100)%float) (Math_round (l * 100)%float).

Definition toHex (n : number) : jstring := padStart0 2 (Number_toString 16 n).

Definition rgbToHex (rgb : RGBColor) : jstring :=
  let '(mkRGB r g b) := rgb in
  str "#" ++ toHex r ++ toHex g ++ toHex b.

Definition hexToRgb (hex : jstring) : RGBColor :=
  let clean := remove_first (chr "#") hex in
  mkRGB (parseInt16 (slice 0 2 clean))
        (parseInt16 (slice 2 4 clean))
        (parseInt16 (slice 4 6 clean)).

Definition hslToHex (hsl : HSLColor) : jstring := rgbToHex (hslToRgb hsl).

Definition hexToHsl (hex : jstring) : HSLColor := rgbToHsl (hexToRgb hex).

Definition formatRgb (rgb : RGBColor) : jstring :=
  let '(mkRGB r g b) := rgb in
  str "rgb(" ++ Number_toString 10 r ++ str ", " ++ Number_toString 10 g
    ++ str ", " ++ Number_toString 10 b ++ str ")".

Definition formatHsl (hsl : HSLColor) : jstring :=
  let '(mkHSL h s l) := hsl in
  str "hsl(" ++ Number_toString 10 h ++ str ", " ++ Number_toString 10 s
    ++ str "%, " ++ Number_toString 10 l ++ str "%)".

(* ===================================================================== *)
(** * Regular expressions                                                  *)
(* ===================================================================== *)

(** The fragment of JavaScript regular expressions the parser uses:
    character classes, sequence, alternation, greedy bounded or unbounded
    repetition of a class, and capture groups, matched by backtracking in
    priority order against the whole string ([^...$]). *)
Module Regex.

Inductive regex : Type :=
| Chr (p : N -> bool)                             (* one code unit in a class *)
| Seq (a b : regex)                               (* [ab] *)
| Alt (a b : regex)                               (* [a|b], [a] first *)
| Rep (p : N -> bool) (lo : nat) (hi : option nat) (* greedy [p{lo,hi}] *)
| Group (a : regex).                              (* [(a)] *)

(** A literal character; under the [i] flag a letter matches both cases. *)
Definition lit (c : N) : N -> bool := fun x => (x =? c)%N.
Definition lit_i (c : N) : N -> bool := fun x => (lower x =? lower c)%N.

Definition star (p : N -> bool) : regex := Rep p 0 None.
Definition opt (p : N -> bool) : regex := Rep p 0 (Some 1%nat).

Fixpoint seqs (l : list regex) : regex :=
  match l with
  | [] => Rep (fun _ => false) 0 (Some 0%nat)
  | [a] => a
  | a :: l' => Seq a (seqs l')
  end.

Definition may_take (hi : option nat) : bool :=
  match hi with Some O => false | _ => true end.

Definition dec_hi (hi : option nat) : option nat :=
  match hi with Some n => Some (pred n) | None => None end.

Section Matcher.
Context {A : Type}.

  (** Greedy repetition: one more character is tried first, stopping here
      second (and only once [lo] characters have been taken). *)
Fixpoint rep_run (p : N -> bool) (lo : nat) (hi : option nat)
      (s : jstring) (k : jstring -> option A) : option A :=
    let stop := match lo with O => k s | S _ => None end in
    match s with
    | c :: s' =>
        if p c && may_take hi then
          match rep_run p (pred lo) (dec_hi hi) s' k with
          | Some v => Some v
          | None => stop
          end
        else stop
    | [] => stop
    end.

  (** [run a s caps k]: match [a] at the start of [s], then continue with
      [k] on the rest; [caps] are the captures so far. *)
Fixpoint run (a : regex) (s : jstring) (caps : list jstring)
      (k : jstring -> list jstring -> option A) : option A :=
    match a with
    | Chr p =>
        match s with
        | c :: s' => if p c then k s' caps else None
        | [] => None
        end
    | Seq a1 a2 => run a1 s caps (fun s1 c1 => run a2 s1 c1 k)
    | Alt a1 a2 =>
        match run a1 s caps k with
        | Some v => Some v
        | None => run a2 s caps k
        end
    | Rep p lo hi => rep_run p lo hi s (fun s1 => k s1 caps)
    | Group a1 =>
        run a1 s caps
          (fun s1 c1 => k s1 (c1 ++ [firstn (length s - length s1) s]))
    end.
End Matcher.

(** The end of the pattern: the match must end the string. *)
Definition at_end (rest : jstring) (caps : list jstring) : option (list jstring) :=
  match rest with [] => Some caps | _ => None end.

(** [s.match(/^a$/)]: the captures of the first successful match, or
    [None] for [null]. *)
Definition exec (a : regex) (s : jstring) : option (list jstring) :=
  run a s [] at_end.

(** The language of a regular expression, with the captures a match adds. *)
Inductive matches : regex -> jstring -> list jstring -> list jstring -> Prop :=
| m_chr p c caps : p c = true -> matches (Chr p) [c] caps caps
| m_seq a1 a2 s1 s2 c0 c1 c2 :
    matches a1 s1 c0 c1 -> matches a2 s2 c1 c2 ->
    matches (Seq a1 a2) (s1 ++ s2) c0 c2
| m_alt_l a1 a2 s c0 c1 : matches a1 s c0 c1 -> matches (Alt a1 a2) s c0 c1
| m_alt_r a1 a2 s c0 c1 : matches a2 s c0 c1 -> matches (Alt a1 a2) s c0 c1
| m_rep p lo hi s caps :
    forallb p s = true -> (lo <= length s)%nat ->
    (forall n, hi = Some n -> (length s <= n)%nat) ->
    matches (Rep p lo hi) s caps caps
| m_group a s c0 c1 : matches a s c0 c1 -> matches (Group a) s c0 (c1 ++ [s]).

End Regex.
Import Regex.

(* ===================================================================== *)
(** * Flexible input parsing                                               *)
(* ===================================================================== *)

(** [/^#?([0-9a-fA-F]{3}|[0-9a-fA-F]{6})$/] *)
Definition hexRe : regex :=
  seqs [ opt (lit (chr "#"));
         Group (Alt (Rep is_hex_digit 3 (Some 3%nat))
                    (Rep is_hex_digit 6 (Some 6%nat))) ].

(** [/^rgb\(\s*(\d{1,3})\s*,\s*(\d{1,3})\s*,\s*(\d{1,3})\s*\)$/i] *)
Definition rgbRe : regex :=
  seqs [ Chr (lit_i (chr "r")); Chr (lit_i (chr "g")); Chr (lit_i (chr "b"));
         Chr (lit_i (chr "("));
         star is_space; Group (Rep is_digit 1 (Some 3%nat)); star is_space;
         Chr (lit_i (chr ","));
         star is_space; Group (Rep is_digit 1 (Some 3%nat)); star is_space;
         Chr (lit_i (chr ","));
         star is_space; Group (Rep is_digit 1 (Some 3%nat)); star is_space;
         Chr (lit_i (chr ")")) ].

(** [/^hsl\(\s*(\d{1,3})\s*,\s*(\d{1,3})%?\s*,\s*(\d{1,3})%?\s*\)$/i] *)
Definition hslRe : regex :=
  seqs [ Chr (lit_i (chr "h")); Chr (lit_i (chr "s")); Chr (lit_i (chr "l"));
         Chr (lit_i (chr "("));
         star is_space; Group (Rep is_digit 1 (Some 3%nat)); star is_space;
         Chr (lit_i (chr ","));
         star is_space; Group (Rep is_digit 1 (Some 3%nat));
         opt (lit_i (chr "%")); star is_space;
         Chr (lit_i (chr ","));
         star is_space; Group (Rep is_digit 1 (Some 3%nat));
         opt (lit_i (chr "%")); star is_space;
         Chr (lit_i (chr ")")) ].

(** What a call either returns or throws. *)
Inductive completion (A : Type) : Type :=
| Return (v : A)
| Throw (message : jstring).

Arguments Return {A} v.
Arguments Throw {A} message.

(** [m[i]] on a match array: capture [i], counted from 1. *)
Definition capture (i : nat) (m : list jstring) : jstring := nth (pred i) m [].

(** [hex[i]]: the one-character string at an index within the string. *)
Definition at_index (i : nat) (hex : jstring) : jstring := firstn 1 (skipn i hex).

Definition parse_error (input : jstring) : jstring :=
  str "Cannot parse " ++ [dquote] ++ input ++ [dquote]
    ++ str ". Accepted formats: #6C5CE7, 6C5CE7, #6CE, rgb(108,92,231), hsl(249,75%,63%)".

Definition parseColor (input : jstring) : completion jstring :=
  let s := trim input in
  match exec hexRe s with
  | Some hexMatch =>
      let hex := capture 1 hexMatch in
      let hex :=
        if (length hex =? 3)%nat
        then at_index 0 hex ++ at_index 0 hex ++ at_index 1 hex ++ at_index 1 hex
               ++ at_index 2 hex ++ at_index 2 hex
        else hex in
      Return (str "#" ++ toLowerCase hex)
  | None =>
  match exec rgbRe s with
  | Some rgbMatch =>
      let r := Math_min2 255 (ToNumber_digits (capture 1 rgbMatch)) in
      let g := Math_min2 255 (ToNumber_digits (capture 2 rgbMatch)) in
      let b := Math_min2 255 (ToNumber_digits (capture 3 rgbMatch)) in
      Return (rgbToHex (mkRGB r g b))
  | None =>
  match exec hslRe s with
  | Some hslMatch =>
      let h := Math_min2 360 (ToNumber_digits (capture 1 hslMatch)) in
      let sVal := Math_min2 100 (ToNumber_digits (capture 2 hslMatch)) in
      let l := Math_min2 100 (ToNumber_digits (capture 3 hslMatch)) in
      Return (hslToHex (mkHSL h sVal l))
  | None => Throw (parse_error input)
  end end end.

(* ===================================================================== *)
(** * WCAG contrast                                                        *)
(* ===================================================================== *)

(** The exact real value of a finite number ([0] for [NaN] and the
    infinities, which no colour channel is). *)
Definition F2R (x : number) : R :=
  match Prim2SF x with
  | S754_finite sg m e =>
      ((if sg then -1 else 1) * IZR (Zpos m) * powerRZ 2 e)%R
  | _ => 0%R
  end.

(** [Math.pow(x, y)] on a positive base. *)
Definition Math_pow (x y : R) : R := Rpower x y.

Definition linearize (c : R) : R :=
  let srgb := (c / 255)%R in
  if Rle_dec srgb 0.03928 then (srgb / 12.92)%R
  else Math_pow ((srgb + 0.055) / 1.055) 2.4.

Definition relativeLuminance (rgb : RGBColor) : R :=
  let '(mkRGB r g b) := rgb in
  (0.2126 * linearize (F2R r) + 0.7152 * linearize (F2R g)
   + 0.0722 * linearize (F2R b))%R.

Definition contrastRatio (a b : RGBColor) : R :=
  let la := relativeLuminance a in
  let lb := relativeLuminance b in
  let lighter := Rmax la lb in
  let darker := Rmin la lb in
  ((lighter + 0.05) / (darker + 0.05))%R.

Definition textColorForBackground (hex : jstring) : jstring :=
  let rgb := hexToRgb hex in
  let white := mkRGB 255 255 255 in
  let black := mkRGB 0 0 0 in
  if Rgt_dec (contrastRatio rgb white) (contrastRatio rgb black)
  then str "#ffffff" else str "#000000".

(* ===================================================================== *)
(** * Palette generation                                                   *)
(* ===================================================================== *)

Definition GOLDEN_RATIO_CONJUGATE : number := 0.618033988749895%float.

(** The state the callback of [generatePalette] closes over: the hue cursor,
    and how many numbers [Math.random] has handed out so far. *)
Record cursor := mkCursor { hue : number; draws : nat }.

Section PaletteGenerator.
  (** [locked]: the lock map, an object read by string key ([None] for
      [undefined]).  [random k]: the [k]-th value returned by
      [Math.random], counted from zero. *)
Variable locked : gmap jstring jstring.
Variable random : nat -> number.

  (** A freshly generated colour: the cursor moves on first. *)
Definition generated (st : cursor) : jstring * cursor :=
    let hue' := Number_rem (hue st + 360 * GOLDEN_RATIO_CONJUGATE)%float 360 in
    let s := Math_round (55 + random (draws st) * 30)%float in
    let l := Math_round (45 + random (S (draws st)) * 25)%float in
    (hslToHex (mkHSL (Math_round hue') s l), mkCursor hue' (S (S (draws st)))).

  (** The callback of [Array.from], at index [i]. *)
Definition palette_item (i : nat) (st : cursor) : jstring * cursor :=
    let key := String_of_index i in
    match locked !! key with
    | Some v => if truthy v then (v, st) else generated st
    | None => generated st
    end.

  (** [Array.from({ length: n }, callback)], from index [i] on. *)
Fixpoint array_from (n i : nat) (st : cursor) : list jstring :=
    match n with
    | O => []
    | S n' =>
        let '(v, st') := palette_item i st in
        v :: array_from n' (S i) st'
    end.

  (** The cursor when index [i] is reached, starting from [st] at index [i0]. *)
Fixpoint cursor_at (n i0 : nat) (st : cursor) : cursor :=
    match n with
    | O => st
    | S n' => cursor_at n' (S i0) (snd (palette_item i0 st))
    end.

Definition generatePalette (count : nat) : list jstring :=
    let hue := (random 0 * 360)%float in
    array_from count 0 (mkCursor hue 1).
End PaletteGenerator.

(* ===================================================================== *)
(** * Vocabulary of the specification                                      *)
(* ===================================================================== *)

(** CanonicalHex: [#] and six lowercase hexadecimal digits. *)
Definition canonical_hex (s : jstring) : bool :=
  match s with
  | c :: ds => (c =? chr "#")%N && (length ds =? 6)%nat && forallb is_lower_hex ds
  | [] => false
  end.

(** A colour whose channels are the integers [r], [g], [b]. *)
Definition rgb_of (r g b : Z) : RGBColor := mkRGB (Z2F r) (Z2F g) (Z2F b).

Definition hsl_of (h s l : Z) : HSLColor := mkHSL (Z2F h) (Z2F s) (Z2F l).

Definition byte (z : Z) : Prop := 0 <= z <= 255.

(** ** The three accepted grammars

    White space may surround a channel and the function name is read in
    either case, as the regular expressions of the code have it. *)

Definition spaces (w : jstring) : Prop := forallb is_space w = true.

(** A channel: one to three decimal digits. *)
Definition channel (d : jstring) : Prop :=
  forallb is_digit d = true /\ (1 <= length d <= 3)%nat.

(** Exactly three or six hexadecimal digits. *)
Definition hex_digits (ds : jstring) : Prop :=
  forallb is_hex_digit ds = true /\ (length ds = 3%nat \/ length ds = 6%nat).

(** [f] spells [name] in some mix of upper and lower case. *)
Definition keyword (name f : jstring) : Prop := toLowerCase f = name.

(** An optional single character. *)
Definition optional (c : N) (x : jstring) : Prop := x = [] \/ x = [c].

(** Hex, with or without a leading [#]; the digits are the capture. *)
Inductive HexText : jstring -> jstring -> Prop :=
| hex_text x ds :
    optional (chr "#") x -> hex_digits ds -> HexText (x ++ ds) ds.

(** [rgb(r, g, b)]; the three channels are the captures. *)
Inductive RgbText : jstring -> jstring -> jstring -> jstring -> Prop :=
| rgb_text f w1 d1 w2 w3 d2 w4 w5 d3 w6 :
    keyword (str "rgb(") f ->
    spaces w1 -> channel d1 -> spaces w2 ->
    spaces w3 -> channel d2 -> spaces w4 ->
    spaces w5 -> channel d3 -> spaces w6 ->
    RgbText (f ++ w1 ++ d1 ++ w2 ++ str "," ++ w3 ++ d2 ++ w4 ++ str ","
               ++ w5 ++ d3 ++ w6 ++ str ")") d1 d2 d3.

(** [hsl(h, s, l)] with an optional [%] after [s] and after [l]. *)
Inductive HslText : jstring -> jstring -> jstring -> jstring -> Prop :=
| hsl_text f w1 d1 w2 w3 d2 q2 w4 w5 d3 q3 w6 :
    keyword (str "hsl(") f ->
    spaces w1 -> channel d1 -> spaces w2 ->
    spaces w3 -> channel d2 -> optional (chr "%") q2 -> spaces w4 ->
    spaces w5 -> channel d3 -> optional (chr "%") q3 -> spaces w6 ->
    HslText (f ++ w1 ++ d1 ++ w2 ++ str "," ++ w3 ++ d2 ++ q2 ++ w4 ++ str ","
               ++ w5 ++ d3 ++ q3 ++ w6 ++ str ")") d1 d2 d3.






(** [parseColor] throws on the text. *)
Definition throws (input : jstring) : bool :=
  match parseColor input with
  | Throw _ => true
  | Return _ => false
  end.

(** The number a channel denotes. *)
Definition value (d : jstring) : Z := Z.of_N (read_dec d 0%N).

(** [Math.min(bound, n)] on integers is the minimum of the integers. *)
Definition clamp_exact (bound : Z) (n : Z) : bool :=
  PrimFloat.Leibniz.eqb (Math_min2 (Z2F bound) (Z2F n)) (Z2F (Z.min bound n)).

(** An integer prints in decimal as a channel that denotes it. *)
Definition decimal_exact (n : Z) : bool :=
  let d := Number_toString 10 (Z2F n) in
  forallb is_digit d && (1 <=? length d)%nat && (length d <=? 3)%nat
  && (value d =? n).

(** [s] does not begin with a character of the class [p]. *)
Definition starts_outside (p : N -> bool) (s : jstring) : Prop :=
  match s with c :: _ => p c = false | [] => True end.

(* ===================================================================== *)
(** * Decision procedures used by the proofs                               *)
(* ===================================================================== *)

(** The integers [0 .. n-1]. *)
Definition upto (n : nat) : list Z := map Z.of_nat (seq 0 n).

(** A channel prints as two lowercase hexadecimal digits that read back as
    the channel. *)
Definition toHex_roundtrip (z : Z) : bool :=
  match toHex (Z2F z) with
  | [a; b] =>
      is_lower_hex a && is_lower_hex b
      && PrimFloat.Leibniz.eqb (parseInt16 [a; b]) (Z2F z)
  | _ => false
  end.

(** ** The parts of [hslToRgb] *)

(** [c]: the chroma of a saturation and a lightness. *)
Definition chroma (s l : number) : number :=
  ((1 - Math_abs (2 * (l / 100) - 1)) * (s / 100))%float.

(** [m]: what is added to every channel. *)
Definition lift (s l : number) : number := (l / 100 - chroma s l / 2)%float.

(** [x / c]: the share of the chroma the middle channel gets. *)
Definition hue_factor (h : number) : number :=
  (1 - Math_abs (Number_rem (h / 60) 2 - 1))%float.

(** The branch of the hue chain that is taken. *)
Definition hue_sector (h : number) : nat :=
  if (h <? 60)%float then 0
  else if (h <? 120)%float then 1
  else if (h <? 180)%float then 2
  else if (h <? 240)%float then 3
  else if (h <? 300)%float then 4
  else 5.

Definition channel_of (r1 m : number) : number := Math_round ((r1 + m) * 255)%float.

(** The colour of a sector from the channel of the chroma, of [x] and of
    zero. *)
Definition rgb_in_sector (k : nat) (vc vx v0 : number) : RGBColor :=
  match k with
  | 0%nat => mkRGB vc vx v0
  | 1%nat => mkRGB vx vc v0
  | 2%nat => mkRGB v0 vc vx
  | 3%nat => mkRGB v0 vx vc
  | 4%nat => mkRGB vx v0 vc
  | _ => mkRGB vc v0 vx
  end.

(** ** Search tables keyed by the integers as numbers *)

Inductive table (A : Type) : Type :=
| Leaf (key : number) (a : A)
| Node (pivot : number) (lo hi : table A).

Arguments Leaf {A} key a.
Arguments Node {A} pivot lo hi.

(** The table of [f] on [base .. base + 2^n - 1]. *)
Fixpoint build {A : Type} (f : Z -> A) (n : nat) (base : Z) : table A :=
  match n with
  | O => Leaf (Z2F base) (f base)
  | S n' =>
      let half := 2 ^ Z.of_nat n' in
      Node (Z2F (base + half)) (build f n' base) (build f n' (base + half))
  end.

Fixpoint lookup_number {A : Type} (v : number) (t : table A) : option A :=
  match t with
  | Leaf key a => if PrimFloat.Leibniz.eqb v key then Some a else None
  | Node pivot lo hi =>
      if (v <? pivot)%float then lookup_number v lo else lookup_number v hi
  end.

(** A channel value: the number of a byte, or negative zero (what
    [Math.round] returns on a tiny negative number). *)
Definition is_channel (bytes : table Z) (v : number) : bool :=
  match lookup_number v bytes with
  | Some _ => true
  | None => PrimFloat.Leibniz.eqb v neg_zero
  end.

(** The distinct hue factors of the hues [0 .. 360]. *)
Definition add_new (x : number) (l : list number) : list number :=
  if existsb (PrimFloat.Leibniz.eqb x) l then l else x :: l.

Definition hue_factors : list number :=
  fold_right add_new [] (map (fun h => hue_factor (Z2F h)) (upto 361)).

(** Every channel [hslToRgb] can compute from integer percentages and a
    hue factor of [ts] is a channel value. *)
Definition hsl_channels_check (ts : list number) (bytes : table Z) : bool :=
  forallb (fun s => forallb (fun l =>
     let c := chroma (Z2F s) (Z2F l) in
     let m := lift (Z2F s) (Z2F l) in
     is_channel bytes (channel_of c m) && is_channel bytes (channel_of 0 m)
     && forallb (fun t => is_channel bytes (channel_of (c * t) m)) ts)
    (upto 101)) (upto 101).

(** The hue factor of every hue [0 .. 360] is in [ts]. *)
Definition hue_factors_check (ts : list number) : bool :=
  forallb (fun h => existsb (PrimFloat.Leibniz.eqb (hue_factor (Z2F h))) ts)
    (upto 361).

Definition byte_table : table Z := build (fun z => z) 8 0.

(** A channel value prints as two lowercase hexadecimal digits. *)
Definition hex_pair (v : number) : Prop :=
  exists a b, toHex v = [a; b] /\ is_lower_hex a = true /\ is_lower_hex b = true.

(** ** The parts of [rgbToHsl] *)

(** A byte as a fraction of 255. *)
Definition unit_of (z : Z) : number := (Z2F z / 255)%float.

Definition lightness (max min : number) : number :=
  Math_round ((max + min) / 2 * 100)%float.

Definition saturation (max min : number) : number :=
  Math_round ((if (0.5 <? (max + min) / 2)%float
               then (max - min) / (2 - max - min)
               else (max - min) / (max + min)) * 100)%float.

Definition hue_from (num d k : number) : number :=
  Math_round ((num / d + k) * 60)%float.

(** The hue [rgbToHsl] computes for three bytes that are not all equal. *)
Definition hue_of (r g b : Z) : number :=
  let d := (unit_of (Z.max (Z.max r g) b) - unit_of (Z.min (Z.min r g) b))%float in
  if Z.max (Z.max r g) b =? r
  then hue_from (unit_of g - unit_of b) d (if g <? b then 6 else 0)
  else if Z.max (Z.max r g) b =? g
  then hue_from (unit_of b - unit_of r) d 2
  else hue_from (unit_of r - unit_of g) d 4.

(** The fractions of two bytes are ordered as the bytes are. *)
Definition unit_order (i j : Z) : bool :=
  PrimFloat.Leibniz.eqb (Math_max2 (unit_of i) (unit_of j)) (unit_of (Z.max i j))
  && PrimFloat.Leibniz.eqb (Math_min2 (unit_of i) (unit_of j)) (unit_of (Z.min i j))
  && Bool.eqb (unit_of i =? unit_of j)%float (i =? j)
  && Bool.eqb (unit_of i <? unit_of j)%float (i <? j)
  && Bool.eqb (unit_of i - unit_of j =? 0)%float (i =? j).

(** Counting in numbers is counting in integers. *)
Definition counts (z : Z) : bool :=
  PrimFloat.Leibniz.eqb (Z2F z + 1)%float (Z2F (z + 1))
  && PrimFloat.Leibniz.eqb (Z2F (z + 1) - 1)%float (Z2F z).

(** ** The round trip through HSL *)

(** Two numbers differ by at most [k]. *)
Definition within (k a b : number) : bool := (Math_abs (a - b) <=? k)%float.

(** Every channel of [c] is within [k] of the expected one. *)
Definition channels_within (k : number) (c : RGBColor) (er eg eb : number) : bool :=
  within k (r c) er && within k (g c) eg && within k (b c) eb.

(** What a table of hues records of a hue: in the sector [k0] the table is
    made for, in another sector, or beyond 360. *)
Inductive hue_entry : Type :=
| Home (t : number)
| Away (t : number) (k : nat)
| Beyond.

Definition hue_entry_of (k0 : nat) (z : Z) : hue_entry :=
  if z <=? 360 then
    if Nat.eqb (hue_sector (Z2F z)) k0 then Home (hue_factor (Z2F z))
    else Away (hue_factor (Z2F z)) (hue_sector (Z2F z))
  else Beyond.

(** The hues [60 k0 .. 60 k0 + 63]. *)
Definition sector_table (k0 : nat) : table hue_entry :=
  build (hue_entry_of k0) 6 (60 * Z.of_nat k0).

Section RoundTrip.

Variables t0 t1 t2 t3 t4 t5 : table hue_entry.

(** The round trip of a colour with hue [H], whose largest and smallest
    channel come back as [vc] and [v0]: [ok2] says these two are close, and
    in its home sector the middle channel is the only one left to compare. *)
Definition check_one (ok2 : bool) (c lf vc v0 fmid : number)
    (tb : table hue_entry) (H : number) (er eg eb : number) : bool :=
  match lookup_number H tb with
  | Some (Home t) => ok2 && within 5 (channel_of (c * t) lf) fmid
  | Some (Away t k) =>
      channels_within 5 (rgb_in_sector k vc (channel_of (c * t) lf) v0) er eg eb
  | _ => false
  end.

(** The six orders in which the largest channel [fM], the smallest [fm] and
    the middle one [fmid] can be placed. *)
Definition check_mid (ok2 : bool) (um d c lf vc v0 fM fm fmid : number) : bool :=
  let umid := (fmid / 255)%float in
  let up := (umid - um)%float in
  let dn := (um - umid)%float in
  check_one ok2 c lf vc v0 fmid t0 (hue_from up d 0) fM fmid fm
  && check_one ok2 c lf vc v0 fmid t5 (hue_from dn d 6) fM fm fmid
  && check_one ok2 c lf vc v0 fmid t1 (hue_from dn d 2) fmid fM fm
  && check_one ok2 c lf vc v0 fmid t2 (hue_from up d 2) fm fM fmid
  && check_one ok2 c lf vc v0 fmid t4 (hue_from up d 4) fmid fm fM
  && check_one ok2 c lf vc v0 fmid t3 (hue_from dn d 4) fm fmid fM.

Fixpoint check_mids (n : nat) (ok2 : bool) (um d c lf vc v0 fM fm fmid : number)
  : bool :=
  match n with
  | O => true
  | S n' => check_mid ok2 um d c lf vc v0 fM fm fmid
            && check_mids n' ok2 um d c lf vc v0 fM fm (fmid + 1)%float
  end.

(** A largest and a smallest channel [n] apart, with every middle one. *)
Definition check_pair (n : nat) (fM fm : number) : bool :=
  let uM := (fM / 255)%float in
  let um := (fm / 255)%float in
  let sat := saturation uM um in
  let lig := lightness uM um in
  let c := chroma sat lig in
  let lf := lift sat lig in
  let vc := channel_of c lf in
  let v0 := channel_of 0 lf in
  check_mids (S n) (within 5 vc fM && within 5 v0 fm)
    um (uM - um)%float c lf vc v0 fM fm fm.

Fixpoint check_mins (k n : nat) (fM fm : number) : bool :=
  match k with
  | O => true
  | S k' => check_pair n fM fm && check_mins k' (S n) fM (fm - 1)%float
  end.

Fixpoint check_maxs (cnt M : nat) (fM : number) : bool :=
  match cnt with
  | O => true
  | S cnt' => check_mins M 1 fM (fM - 1)%float && check_maxs cnt' (S M) (fM + 1)%float
  end.

End RoundTrip.

(** The round trip of a gray. *)
Definition check_gray (z : Z) : bool :=
  channels_within 5
    (hslToRgb (mkHSL 0 0 (lightness (unit_of z) (unit_of z))))
    (Z2F z) (Z2F z) (Z2F z).

(** The round trip of the conversions keeps every channel within [k]. *)
Definition roundtrip_within (k : number) (r g b : Z) : bool :=
  channels_within k (hslToRgb (rgbToHsl (rgb_of r g b))) (Z2F r) (Z2F g) (Z2F b).

(** A whole number of degrees on the colour wheel, 360 included. *)
Definition degrees (v : number) : Prop := exists z, 0 <= z <= 360 /\ v = Z2F z.

(** What a table of hues of the sector [k0] answers. *)
Definition table_of (k0 : nat) (tb : table hue_entry) : Prop :=
  forall H e, lookup_number H tb = Some e ->
    exists z, 0 <= z /\ H = Z2F z /\ e = hue_entry_of k0 z.

(** The hue is a whole number of degrees and the colour comes back within 5
    of the expected channels. *)
Definition roundtrip_ok (H sat lig er eg eb : number) : Prop :=
  degrees H /\ channels_within 5 (hslToRgb (mkHSL H sat lig)) er eg eb = true.

(** The six colours with largest channel [M], smallest [m] and middle
    [mid]. *)
Definition orders_ok (M m mid : Z) : Prop :=
  let sat := saturation (unit_of M) (unit_of m) in
  let lig := lightness (unit_of M) (unit_of m) in
  let d := (unit_of M - unit_of m)%float in
  let up := (unit_of mid - unit_of m)%float in
  let dn := (unit_of m - unit_of mid)%float in
  roundtrip_ok (hue_from up d 0) sat lig (Z2F M) (Z2F mid) (Z2F m)
  /\ roundtrip_ok (hue_from dn d 6) sat lig (Z2F M) (Z2F m) (Z2F mid)
  /\ roundtrip_ok (hue_from dn d 2) sat lig (Z2F mid) (Z2F M) (Z2F m)
  /\ roundtrip_ok (hue_from up d 2) sat lig (Z2F m) (Z2F M) (Z2F mid)
  /\ roundtrip_ok (hue_from up d 4) sat lig (Z2F mid) (Z2F m) (Z2F M)
  /\ roundtrip_ok (hue_from dn d 4) sat lig (Z2F m) (Z2F mid) (Z2F M).

(** ** The real value of a channel *)

(** The binary expansion of the number of [z] denotes [z]. *)
Definition F2R_exact (z : Z) : bool :=
  match Prim2SF (Z2F z) with
  | S754_zero _ => z =? 0
  | S754_finite false m (Zneg k) => Zpos m =? z * 2 ^ Zpos k
  | S754_finite false m e => Zpos m * 2 ^ e =? z
  | _ => false
  end.

Definition white : RGBColor := mkRGB 255 255 255.
Definition black : RGBColor := mkRGB 0 0 0.

(** ** Enclosures of the luminance *)

(** Channels are enclosed between consecutive multiples of [1 / scale]. *)
Definition scale : Z := 2 ^ 32.

(** [lo / scale <= linearize c], in integers: the linear piece is
    [10 c / 32946], the other one the power [12 / 5] of
    [(40 c + 561) / 10761]. *)
Definition lin_below (den num : Z) (c lo : Z) : bool :=
  if c <=? 10 then lo * 32946 <=? c * 10 * scale
  else lo ^ 5 * den <=? (40 * c + 561) ^ 12 * num.

(** [linearize c <= hi / scale], in integers. *)
Definition lin_above (den num : Z) (c hi : Z) : bool :=
  if c <=? 10 then c * 10 * scale <=? hi * 32946
  else (40 * c + 561) ^ 12 * num <=? hi ^ 5 * den.

(** The largest [lo] between [lo] and [hi] that is below. *)
Fixpoint bisect (fuel : nat) (c lo hi : Z) : Z :=
  match fuel with
  | O => lo
  | S fuel' =>
      let mid := (lo + hi) / 2 in
      if lin_below (10761 ^ 12) (scale ^ 5) c mid
      then bisect fuel' c mid hi else bisect fuel' c lo mid
  end.

Definition lin_table : list Z :=
  Eval vm_compute in map (fun c => bisect 33 c 0 (scale + 1)) (upto 256).

Definition lin_lo (c : Z) : Z := nth (Z.to_nat c) lin_table 0.

Definition lin_enclosed (den num : Z) (c : Z) : bool :=
  (0 <=? lin_lo c) && (lin_lo c <=? scale)
  && lin_below den num c (lin_lo c) && lin_above den num c (lin_lo c + 1).

Definition lin_table_check (den num : Z) : bool :=
  forallb (lin_enclosed den num) (upto 256).

(** The luminance times [10000 scale] is between [weight r g b] and
    [weight r g b + 10000]. *)
Definition weight (r g b : Z) : Z :=
  2126 * lin_lo r + 7152 * lin_lo g + 722 * lin_lo b.

Definition full : Z := 10000 * scale.

(** Luminances up to [(dark + 10000) / full] contrast more with white,
    those from [light / full] on more with black:
    [(20 L + 1)^2 < 21] against [(20 L + 1)^2 > 21]. *)
Definition dark : Z := (Z.sqrt (21 * full ^ 2) - full) / 20 - 10001.
Definition light : Z := (Z.sqrt (21 * full ^ 2) - full) / 20 + 1.

Definition thresholds_check : bool :=
  ((20 * (dark + 10000) + full) ^ 2 <? 21 * full ^ 2)
  && (21 * full ^ 2 <? (20 * light + full) ^ 2).

(** ** Searching open intervals *)

Inductive search : Type :=
| Among (candidates : list (Z * Z))
| Split (pivot : Z) (below above : search).

(** [u] is in none of the open intervals the search reaches. *)
Fixpoint avoids (u : Z) (t : search) : bool :=
  match t with
  | Among l => forallb (fun i => (u <=? fst i) || (snd i <=? u)) l
  | Split p lo hi => if u <? p then avoids u lo else avoids u hi
  end.

(** Every interval of [all] that meets [[lo, hi)] is among the candidates
    of the leaf the search reaches. *)
Fixpoint covers (all : list (Z * Z)) (t : search) (lo hi : Z) : bool :=
  match t with
  | Among l =>
      forallb (fun i => (snd i <=? lo) || (hi <=? fst i)
                        || existsb (fun j => (fst j =? fst i) && (snd j =? snd i)) l) all
  | Split p below above => covers all below lo p && covers all above p hi
  end.

(** A balanced search over intervals in increasing order. *)
Fixpoint grow (depth : nat) (l : list (Z * Z)) : search :=
  match depth with
  | O => Among l
  | S d =>
      let half := Nat.div2 (List.length l) in
      match skipn half l with
      | i :: _ =>
          if Nat.eqb half 0 then Among l
          else Split (fst i) (grow d (firstn half l)) (grow d (skipn half l))
      | [] => Among l
      end
  end.

(** The sums [2126 lo_r + 7152 lo_g] for which the blue channel [b] leaves
    the weight strictly between [dark] and [light]. *)
Definition undecided : list (Z * Z) :=
  rev (map (fun b => (dark - 722 * lin_lo b, light - 722 * lin_lo b)) (upto 256)).

(** The red and the green part of the weights. *)
Definition reds : list Z := map (fun c => 2126 * lin_lo c) (upto 256).
Definition greens : list Z := map (fun c => 7152 * lin_lo c) (upto 256).

Definition no_tie_check (all : list (Z * Z)) (t : search) (rs gs : list Z) : bool :=
  covers all t 0 full
  && forallb (fun x => forallb (fun y => avoids (x + y) t) gs) rs.

(** ** Channel values and percentages *)

(** What [hslToRgb] puts in a channel: the number of a byte, or negative
    zero. *)
Definition channel_number (v : number) : Prop :=
  (exists z, byte z /\ v = Z2F z) \/ v = neg_zero.

Definition percent_table : table Z := build (fun z => z) 7 0.

(** The number of an integer from 0 to 100. *)
Definition is_percent (percents : table Z) (v : number) : bool :=
  match lookup_number v percents with
  | Some z => z <=? 100
  | None => false
  end.

(** The lightness of every largest and smallest channel is a percentage,
    and so is the saturation when the two differ (a gray has no saturation
    to compute). *)
Definition percent_check (percents : table Z) : bool :=
  forallb (fun M => forallb (fun m =>
     (M <? m)
     || (is_percent percents (lightness (unit_of M) (unit_of m))
         && ((M =? m)
             || is_percent percents (saturation (unit_of M) (unit_of m)))))
    (upto 256)) (upto 256).

(** A gray comes back from HSL as a gray at most one step away. *)
Definition gray_check (bytes : table Z) (z : Z) : bool :=
  let c := hslToRgb (rgbToHsl (rgb_of z z z)) in
  PrimFloat.Leibniz.eqb (g c) (r c) && PrimFloat.Leibniz.eqb (b c) (r c)
  && match lookup_number (r c) bytes with
     | Some z' => Z.abs (z' - z) <=? 1
     | None => false
     end.

(** ** Pairs of hexadecimal digits *)

(** The code units [0 .. n-1]. *)
Definition units (n : nat) : list N := map N.of_nat (seq 0 n).

Definition string_eqb (s t : jstring) : bool :=
  if List.list_eq_dec N.eq_dec s t then true else false.

(** Two hexadecimal digits, of either case, read as a byte that prints as
    the same digits in lower case. *)
Definition hex_pair_check (bytes : table Z) (a c : N) : bool :=
  negb (is_hex_digit a && is_hex_digit c)
  || match lookup_number (parseInt16 [a; c]) bytes with
     | Some _ => string_eqb (toHex (parseInt16 [a; c])) [lower a; lower c]
     | None => false
     end.

Definition hex_pairs_check (bytes : table Z) : bool :=
  forallb (fun a => forallb (hex_pair_check bytes a) (units 103)) (units 103).

(** ** Color info helper *)

(** All three representations of a colour. *)
Record ColorInfo := mkColorInfo { hex : jstring; rgb : jstring; hsl : jstring }.

Definition colorInfo (hex : jstring) : ColorInfo :=
  let rgb := hexToRgb hex in
  let hsl := hexToHsl hex in
  mkColorInfo hex (formatRgb rgb) (formatHsl hsl).

(** The six digits [parseColor] keeps of the digits it captured: a
    three-digit shorthand has every digit doubled. *)
Definition expand (ds : jstring) : jstring :=
  match ds with
  | [a; b; c] => [a; a; b; b; c; c]
  | _ => ds
  end.

(** ** Contrast verdicts *)

(** [x >= y] on numbers read as real numbers. *)
Definition Rgeb (x y : R) : bool := if Rge_dec x y then true else false.

(** The decimal text of [n / 100] for a natural [n]: at least three digits,
    with a point before the last two. *)
Definition hundredths (n : Z) : jstring :=
  let m := padStart0 3 (digits 10 (Z.to_N n)) in
  firstn (length m - 2) m ++ str "." ++ skipn (length m - 2) m.

(** [x.toFixed(2)] for [|x| < 10^21]: the sign of [x], then the integer [n]
    with [n / 100] closest to [|x|] (the larger one of two) as hundredths. *)
Definition toFixed2 (x : R) : jstring :=
  (if Rlt_dec x 0 then [chr "-"] else [])
  ++ hundredths (Int_part (Rabs x * 100 + / 2)).

Record ContrastResult := mkContrastResult {
  ratio : jstring;
  aa_normal : bool;
  aa_large : bool;
  aaa_normal : bool;
  aaa_large : bool
}.

Definition checkContrast (hex1 hex2 : jstring) : ContrastResult :=
  let ratio := contrastRatio (hexToRgb hex1) (hexToRgb hex2) in
  mkContrastResult (toFixed2 ratio) (Rgeb ratio 4.5) (Rgeb ratio 3)
    (Rgeb ratio 7) (Rgeb ratio 4.5).

(** Consecutive channels are more than one multiple of [1 / scale] apart. *)
Definition lin_steps_check : bool :=
  forallb (fun c => lin_lo c + 2 <=? lin_lo (c + 1)) (upto 255).

(** ** Positions of a palette *)

(** The position takes the generation branch of [generatePalette]: it has
    no lock entry, or one that holds the empty string. *)
Definition unlocked (locked : gmap jstring jstring) (i : nat) : bool :=
  match locked !! String_of_index i with
  | Some v => negb (truthy v)
  | None => true
  end.

(** The entries of a palette at its unlocked positions, in order. *)
Definition unlocked_entries (locked : gmap jstring jstring) (i0 : nat)
    (palette : list jstring) : list jstring :=
  map snd (List.filter (fun p => unlocked locked (fst p))
             (combine (seq i0 (length palette)) palette)).

(** ** Channels outside the byte range *)

(** What [toHex] prints for an integer: two lowercase hexadecimal digits for
    a byte; otherwise more than two characters, or a minus sign. *)
Definition toHex_shape (n : Z) : bool :=
  let z := n - 500 in
  let t := toHex (Z2F z) in
  if (0 <=? z) && (z <=? 255)
  then (length t =? 2)%nat && forallb is_lower_hex t
  else (2 <=? length t)%nat
       && ((3 <=? length t)%nat || negb (forallb is_lower_hex t)).

(* ===================================================================== *)
(** * The tool handlers ([mcp/src/index.ts])                               *)
(* ===================================================================== *)

(** What a handler hands to [ok] (the data of the reply) or to [err] (the
    message of the error reply); a [throw] inside the handler is caught and
    its message handed to [err]. *)
Inductive reply (A : Type) : Type :=
| Ok (data : A)
| Err (message : jstring).

Arguments Ok {A} data.
Arguments Err {A} message.

(** [ToLength]: what [Array.from] makes of the [length] it is given. *)
Definition ToLength (x : number) : nat :=
  if (x =? infinity)%float then Z.to_nat (2 ^ 53 - 1)
  else Z.to_nat (Z.min (F2Z x) (2 ^ 53 - 1)).

(** [Math.min(8, Math.max(2, count ?? 5))]; [None] is a missing count. *)
Definition clamp_count (count : option number) : number :=
  Math_min2 8 (Math_max2 2 (default 5%float count)).

(** The loop over [Object.entries(rawLocked)]: every value is parsed and
    stored under its key; the first one that does not parse throws. *)
Fixpoint parse_locks (entries : list (jstring * jstring))
    (locked : gmap jstring jstring) : completion (gmap jstring jstring) :=
  match entries with
  | [] => Return locked
  | (k, v) :: rest =>
      match parseColor v with
      | Return hex => parse_locks rest (<[k := hex]> locked)
      | Throw message => Throw message
      end
  end.

(** An entry of the [colors] of a [generate_palette] reply; [info] stands
    for the three fields of [colorInfo] spread into it. *)
Record PaletteColor := mkPaletteColor {
  position : nat;
  is_locked : bool;
  info : ColorInfo
}.

(** [locked[key] !== undefined] *)
Definition has_key (locked : gmap jstring jstring) (key : jstring) : bool :=
  match locked !! key with Some _ => true | None => false end.

(** [hexes.map((hex, i) => ...)], from index [i] on. *)
Fixpoint palette_colors_from (locked : gmap jstring jstring) (i : nat)
    (hexes : list jstring) : list PaletteColor :=
  match hexes with
  | [] => []
  | hex :: rest =>
      mkPaletteColor i (has_key locked (String_of_index i)) (colorInfo hex)
      :: palette_colors_from locked (S i) rest
  end.

Definition palette_colors (locked : gmap jstring jstring) (hexes : list jstring)
  : list PaletteColor := palette_colors_from locked 0 hexes.

(** The [generate_palette] tool.  [rawLocked] is [Object.entries] of the
    [locked] argument ([None] when it is missing), [random] what
    [Math.random] returns. *)
Definition generate_palette (count : option number)
    (rawLocked : option (list (jstring * jstring))) (random : nat -> number)
  : reply (number * list PaletteColor) :=
  let count := clamp_count count in
  match parse_locks (default [] rawLocked) ∅ with
  | Throw message => Err message
  | Return locked =>
      let hexes := generatePalette locked random (ToLength count) in
      Ok (count, palette_colors locked hexes)
  end.

(** The count of the reply for an integer count. *)
Definition clamp_count_check (n : Z) : bool :=
  PrimFloat.Leibniz.eqb (clamp_count (Some (Z2F (n - 1000))))
    (Z2F (Z.min 8 (Z.max 2 (n - 1000))))
  && Nat.eqb (ToLength (clamp_count (Some (Z2F (n - 1000)))))
       (Z.to_nat (Z.min 8 (Z.max 2 (n - 1000)))).

(** The [check_contrast] tool, on the two texts it is given. *)
Record ContrastReply := mkContrastReply {
  foreground : ColorInfo;
  background : ColorInfo;
  result : ContrastResult;
  verdict : jstring
}.

(** The em dash of the messages. *)
Definition dash : jstring := [8212%N].

Definition check_contrast (foreground background : jstring) : reply ContrastReply :=
  match parseColor foreground with
  | Throw message => Err message
  | Return fg =>
  match parseColor background with
  | Throw message => Err message
  | Return bg =>
      let result := checkContrast fg bg in
      Ok (mkContrastReply (colorInfo fg) (colorInfo bg) result
            (if aaa_normal result
             then str "Excellent " ++ dash ++ str " passes AAA for all text"
             else if aa_normal result
             then str "Good " ++ dash ++ str " passes AA for all text"
             else if aa_large result
             then str "Acceptable " ++ dash
                    ++ str " passes AA for large text only (18px+ bold or 24px+)"
             else str "Fail " ++ dash ++ str " insufficient contrast for any text use"))
  end end.

(** The [suggest_text_color] tool. *)
Record TextReply := mkTextReply {
  text_background : ColorInfo;
  recommended_text : ColorInfo;
  contrast_ratio : jstring
}.

Definition suggest_text_color (background : jstring) : reply TextReply :=
  match parseColor background with
  | Throw message => Err message
  | Return bg =>
      let textHex := textColorForBackground bg in
      let ratio := contrastRatio (hexToRgb bg) (hexToRgb textHex) in
      Ok (mkTextReply (colorInfo bg) (colorInfo textHex) (toFixed2 ratio))
  end.

(** The [convert_color] tool. *)
Definition convert_color (color : jstring) : reply ColorInfo :=
  match parseColor color with
  | Throw message => Err message
  | Return hex => Ok (colorInfo hex)
  end.

(** The [analyze_palette] tool. *)
Record PositionedColor := mkPositionedColor {
  at_position : nat;
  color_info : ColorInfo
}.

Record ContrastPair := mkContrastPair {
  pair : jstring * jstring;
  pair_ratio : jstring;
  pair_aa_normal : bool;
  pair_aa_large : bool
}.

Record OnBackground := mkOnBackground {
  color : jstring;
  vs_background : ContrastResult;
  suggested_text : jstring
}.

Record Analysis := mkAnalysis {
  colors : list PositionedColor;
  analysis_background : ColorInfo;
  contrast_pairs : list ContrastPair;
  on_background : list OnBackground;
  issues : list jstring
}.

(** [rawColors.map(parseColor)]: the first text that does not parse throws. *)
Fixpoint parse_all (raw : list jstring) : completion (list jstring) :=
  match raw with
  | [] => Return []
  | t :: rest =>
      match parseColor t with
      | Throw message => Throw message
      | Return hex =>
          match parse_all rest with
          | Throw message => Throw message
          | Return hexes => Return (hex :: hexes)
          end
      end
  end.

Fixpoint positioned_from (i : nat) (hexes : list jstring) : list PositionedColor :=
  match hexes with
  | [] => []
  | hex :: rest => mkPositionedColor i (colorInfo hex) :: positioned_from (S i) rest
  end.

(** The two nested loops: every colour with every later one. *)
Fixpoint pairs_of (hexes : list jstring) : list ContrastPair :=
  match hexes with
  | [] => []
  | x :: rest =>
      map (fun y => let result := checkContrast x y in
                    mkContrastPair (x, y) (ratio result) (aa_normal result)
                      (aa_large result)) rest
      ++ pairs_of rest
  end.

Definition pair_issue (p : ContrastPair) : jstring :=
  fst (pair p) ++ str " and " ++ snd (pair p) ++ str " have very low contrast ("
    ++ pair_ratio p ++ str ":1) " ++ dash ++ str " unusable as text/background pair".

Definition background_issue (bg : jstring) (ob : OnBackground) : jstring :=
  color ob ++ str " on background " ++ bg ++ str " fails AA for normal text ("
    ++ ratio (vs_background ob) ++ str ":1)".

Definition analyze_palette (rawColors : option (list jstring))
    (background : option jstring) : reply Analysis :=
  match rawColors with
  | None | Some [] => Err (str "colors array is required")
  | Some rawColors =>
  match parse_all rawColors with
  | Throw message => Err message
  | Return hexes =>
  match parseColor (default (str "#ffffff") background) with
  | Throw message => Err message
  | Return bg =>
      let colors := positioned_from 0 hexes in
      let pairs := pairs_of hexes in
      let onBackground :=
        map (fun hex => mkOnBackground hex (checkContrast hex bg)
                          (textColorForBackground hex)) hexes in
      let issues :=
        map pair_issue (List.filter (fun p => negb (pair_aa_large p)) pairs)
        ++ map (background_issue bg)
             (List.filter (fun ob => negb (aa_normal (vs_background ob))) onBackground) in
      Ok (mkAnalysis colors (colorInfo bg) pairs onBackground
            (match issues with
             | [] => [str "No accessibility issues found."]
             | _ => issues
             end))
  end end end.

(* ===================================================================== *)
(** * Properties                                                           *)
(* ===================================================================== *)

(** ** Finite ranges *)

Lemma upto_complete (n : nat) (z : Z) : 0 <= z < Z.of_nat n -> In z (upto n).
Proof.
  intros Hz. unfold upto. apply in_map_iff. exists (Z.to_nat z). split.
  - lia.
  - apply in_seq. lia.
Qed.

Lemma forallb_upto (n : nat) (P : Z -> bool) :
  forallb P (upto n) = true -> forall z, 0 <= z < Z.of_nat n -> P z = true.
Proof.
  intros Hall z Hz. rewrite forallb_forall in Hall. apply Hall.
  now apply upto_complete.
Qed.

Lemma forallb_bytes (P : Z -> bool) :
  forallb P (upto 256) = true -> forall z, byte z -> P z = true.
Proof. intros Hall z Hz. apply (forallb_upto 256); [exact Hall | unfold byte in Hz; lia]. Qed.

(** ** Hexadecimal serialization *)

Lemma toHex_roundtrip_all : forallb toHex_roundtrip (upto 256) = true.
Proof. vm_compute. reflexivity. Qed.

Lemma toHex_byte (z : Z) :
  byte z ->
  exists a b, toHex (Z2F z) = [a; b] /\ is_lower_hex a = true
              /\ is_lower_hex b = true /\ parseInt16 [a; b] = Z2F z.
Proof.
  intros Hz. pose proof (forallb_bytes _ toHex_roundtrip_all z Hz) as H.
  unfold toHex_roundtrip in H.
  destruct (toHex (Z2F z)) as [|a [|b [|c t]]]; try discriminate.
  apply andb_true_iff in H as [H H3]. apply andb_true_iff in H as [H1 H2].
  exists a, b. repeat split; auto.
  now apply FloatAxioms.Leibniz.eqb_spec.
Qed.

Lemma hexToRgb_rgbToHex (r g b : Z) :
  byte r -> byte g -> byte b ->
  hexToRgb (rgbToHex (rgb_of r g b)) = rgb_of r g b.
Proof.
  intros Hr Hg Hb.
  destruct (toHex_byte r Hr) as (r1 & r2 & Er & _ & _ & Pr).
  destruct (toHex_byte g Hg) as (g1 & g2 & Eg & _ & _ & Pg).
  destruct (toHex_byte b Hb) as (b1 & b2 & Eb & _ & _ & Pb).
  unfold rgb_of, rgbToHex, hexToRgb. rewrite Er, Eg, Eb.
  cbn [str app remove_first]. change (N_of_ascii "#" =? chr "#")%N with true.
  cbn [slice Nat.sub skipn firstn]. now rewrite Pr, Pg, Pb.
Qed.

(** C5. For every RGB colour with integer channels in [0,255],
    [hexToRgb (rgbToHex rgb)] is the colour itself. *)
Theorem hex_roundtrip (r g b : Z) :
  byte r -> byte g -> byte b ->
  hexToRgb (rgbToHex (rgb_of r g b)) = rgb_of r g b.
Proof. exact (hexToRgb_rgbToHex r g b). Qed.

Lemma hex_roundtrip_witness :
  (byte 108 /\ byte 92 /\ byte 231)
  /\ hexToRgb (rgbToHex (rgb_of 108 92 231)) = rgb_of 108 92 231.
Proof.
  split; [unfold byte; lia|].
  apply (hex_roundtrip 108 92 231); unfold byte; lia.
Defined.


(** ** Palette generation *)

Lemma canonical_hex_truthy (v : jstring) : canonical_hex v = true -> truthy v = true.
Proof. destruct v; [discriminate | reflexivity]. Qed.

Lemma array_from_length (locked : gmap jstring jstring) (random : nat -> number) (n i : nat) (st : cursor) :
  length (array_from locked random n i st) = n.
Proof.
  revert i st. induction n as [|n IH]; intros i st; cbn [array_from].
  - reflexivity.
  - destruct (palette_item locked random i st) as [v st']. cbn. now rewrite IH.
Qed.

Lemma palette_item_locked (locked : gmap jstring jstring) (random : nat -> number) (i : nat) (st : cursor) (v : jstring) :
  locked !! String_of_index i = Some v -> truthy v = true ->
  palette_item locked random i st = (v, st).
Proof. intros Hv Ht. unfold palette_item. now rewrite Hv, Ht. Qed.

Lemma array_from_nth (locked : gmap jstring jstring) (random : nat -> number) (n i0 j : nat) (st : cursor) :
  (j < n)%nat ->
  nth_error (array_from locked random n i0 st) j
  = Some (fst (palette_item (locked : gmap jstring jstring) (random : nat -> number) (i0 + j)
                 (cursor_at locked random j i0 st))).
Proof.
  revert i0 j st. induction n as [|n IH]; intros i0 j st Hj; [lia|].
  cbn [array_from]. destruct (palette_item locked random i0 st) as [v st'] eqn:E.
  destruct j as [|j]; cbn [nth_error cursor_at].
  - now rewrite Nat.add_0_r, E.
  - rewrite IH by lia. rewrite E. cbn [snd]. now rewrite Nat.add_succ_comm.
Qed.









(** ** Regular expressions: what a successful run means *)

Section RegexTheory.
Context {A : Type}.

Lemma rep_run_sound (p : N -> bool) (lo : nat) (hi : option nat)
    (s : jstring) (k : jstring -> option A) (v : A) :
  rep_run p lo hi s k = Some v ->
  exists s1 s2, s = s1 ++ s2 /\ forallb p s1 = true /\ (lo <= length s1)%nat
    /\ (forall n, hi = Some n -> (length s1 <= n)%nat) /\ k s2 = Some v.
Proof.
  revert lo hi. induction s as [|c s' IH]; intros lo hi H; cbn [rep_run] in H.
  - destruct lo; [|discriminate]. exists [], [].
    repeat split; auto; cbn; intros; lia.
  - assert (Hstop : match lo with O => k (c :: s') | S _ => None end = Some v ->
              exists s1 s2, c :: s' = s1 ++ s2 /\ forallb p s1 = true
                /\ (lo <= length s1)%nat
                /\ (forall n, hi = Some n -> (length s1 <= n)%nat) /\ k s2 = Some v).
    { destruct lo; [|discriminate]. intros Hk. exists [], (c :: s').
      repeat split; auto; cbn; intros; lia. }
    destruct (p c && may_take hi) eqn:E; [|auto].
    destruct (rep_run p (pred lo) (dec_hi hi) s' k) as [v'|] eqn:R; [|auto].
    injection H as <-. apply IH in R as (s1 & s2 & -> & Hp & Hlo & Hhi & Hk).
    apply andb_true_iff in E as [Epc Emt].
    exists (c :: s1), s2. repeat split; auto.
    + cbn. now rewrite Epc.
    + cbn. lia.
    + intros n ->. cbn in Emt, Hhi |- *. destruct n; [discriminate|].
      specialize (Hhi n eq_refl). cbn in Hhi. lia.
Qed.

(** The greedy run takes the whole of [s1] when the next character cannot
    be taken. *)
Lemma rep_run_greedy (p : N -> bool) (lo : nat) (hi : option nat)
    (s1 s2 : jstring) (k : jstring -> option A) (v : A) :
  forallb p s1 = true -> (lo <= length s1)%nat ->
  (forall n, hi = Some n -> (length s1 <= n)%nat) ->
  (hi = Some (length s1) \/ match s2 with c :: _ => p c = false | [] => True end) ->
  k s2 = Some v ->
  rep_run p lo hi (s1 ++ s2) k = Some v.
Proof.
  revert lo hi. induction s1 as [|c s1 IH]; intros lo hi Hp Hlo Hhi Hnext Hk.
  - cbn [app]. assert (lo = O) as -> by (cbn in Hlo; lia).
    destruct s2 as [|c s2]; cbn [rep_run]; [exact Hk|].
    destruct Hnext as [-> | ->]; cbn; now rewrite ?andb_false_r, ?Hk.
  - cbn [app rep_run]. cbn in Hp. apply andb_true_iff in Hp as [Hc Hp].
    assert (Hmt : may_take hi = true).
    { destruct hi as [[|n]|]; auto. specialize (Hhi _ eq_refl). cbn in Hhi. lia. }
    rewrite Hc, Hmt. cbn [andb]. rewrite (IH (pred lo) (dec_hi hi)); auto.
    + cbn in Hlo. lia.
    + intros n Hn. destruct hi as [m|]; [|discriminate]. injection Hn as <-.
      specialize (Hhi _ eq_refl). cbn in Hhi. lia.
    + destruct Hnext as [-> | Hn]; [left | right; exact Hn]. reflexivity.
Qed.

Lemma run_sound (a : regex) :
  forall (s : jstring) (caps : list jstring)
         (k : jstring -> list jstring -> option A) (v : A),
  run a s caps k = Some v ->
  exists s1 s2 caps', s = s1 ++ s2 /\ matches a s1 caps caps' /\ k s2 caps' = Some v.
Proof.
  induction a as [p | a1 IH1 a2 IH2 | a1 IH1 a2 IH2 | p lo hi | a IH];
    intros s caps k v H; cbn [run] in H.
  - destruct s as [|c s']; [discriminate|]. destruct (p c) eqn:E; [|discriminate].
    exists [c], s', caps. repeat split; auto. now constructor.
  - apply IH1 in H as (s1 & s2 & c1 & -> & M1 & H).
    apply IH2 in H as (s3 & s4 & c2 & -> & M2 & H).
    exists (s1 ++ s3), s4, c2. rewrite app_assoc. repeat split; auto.
    econstructor; eauto.
  - destruct (run a1 s caps k) as [v'|] eqn:R.
    + injection H as <-. apply IH1 in R as (s1 & s2 & c1 & -> & M & H).
      exists s1, s2, c1. repeat split; auto. now apply m_alt_l.
    + apply IH2 in H as (s1 & s2 & c1 & -> & M & H).
      exists s1, s2, c1. repeat split; auto. now apply m_alt_r.
  - apply rep_run_sound in H as (s1 & s2 & -> & Hp & Hlo & Hhi & Hk).
    exists s1, s2, caps. repeat split; auto. now constructor.
  - apply IH in H as (s1 & s2 & c1 & -> & M & H).
    exists s1, s2, (c1 ++ [s1]). repeat split; auto; [now constructor|].
    rewrite length_app, Nat.add_sub, firstn_app, Nat.sub_diag, firstn_all in H.
    cbn [firstn] in H. now rewrite app_nil_r in H.
Qed.

End RegexTheory.

Lemma exec_sound (a : regex) (s : jstring) (caps : list jstring) :
  exec a s = Some caps -> matches a s [] caps.
Proof.
  unfold exec. intros H. apply run_sound in H as (s1 & s2 & c & -> & M & H).
  destruct s2; [|discriminate]. injection H as <-. now rewrite app_nil_r.
Qed.

(** Inversion of [matches], one constructor at a time. *)
Lemma matches_chr p s c0 c1 :
  matches (Chr p) s c0 c1 -> exists c, s = [c] /\ p c = true /\ c1 = c0.
Proof. inversion 1; subst; eauto. Qed.

Lemma matches_seq a1 a2 s c0 c2 :
  matches (Seq a1 a2) s c0 c2 ->
  exists s1 s2 c1, s = s1 ++ s2 /\ matches a1 s1 c0 c1 /\ matches a2 s2 c1 c2.
Proof. inversion 1; subst; eauto 6. Qed.

Lemma matches_alt a1 a2 s c0 c1 :
  matches (Alt a1 a2) s c0 c1 -> matches a1 s c0 c1 \/ matches a2 s c0 c1.
Proof. inversion 1; subst; eauto. Qed.

Lemma matches_rep p lo hi s c0 c1 :
  matches (Rep p lo hi) s c0 c1 ->
  forallb p s = true /\ (lo <= length s)%nat
  /\ (forall n, hi = Some n -> (length s <= n)%nat) /\ c1 = c0.
Proof. inversion 1; subst; eauto. Qed.

Lemma matches_group a s c0 c1 :
  matches (Group a) s c0 c1 -> exists c', matches a s c0 c' /\ c1 = c' ++ [s].
Proof. inversion 1; subst; eauto. Qed.

(** ** Character classes *)

(** Case analysis on every comparison of the goal. *)
Ltac compare_all :=
  repeat match goal with
         | |- context [(?a <=? ?b)%N] => destruct (N.leb_spec a b); try lia
         | |- context [(?a =? ?b)%N] => destruct (N.eqb_spec a b); try lia
         end; try reflexivity.

Lemma digit_not_space c : is_digit c = true -> is_space c = false.
Proof.
  unfold is_digit, in_range. rewrite andb_true_iff, !N.leb_le. intros [H1 H2].
  unfold is_space, in_range. compare_all.
Qed.

Lemma space_not_digit c : is_space c = true -> is_digit c = false.
Proof.
  intros H. destruct (is_digit c) eqn:E; [|reflexivity].
  apply digit_not_space in E. congruence.
Qed.

Lemma hex_not_hash c : is_hex_digit c = true -> lit (chr "#") c = false.
Proof.
  unfold lit. change (chr "#") with 35%N.
  destruct (N.eqb_spec c 35) as [->|]; [discriminate | reflexivity].
Qed.

Lemma lit_i_true c x : lower x = lower c -> lit_i c x = true.
Proof. unfold lit_i. intros ->. apply N.eqb_refl. Qed.

Lemma lit_i_punct c x :
  (c < 65)%N -> lit_i c x = true -> x = c.
Proof.
  unfold lit_i, lower, in_range. intros Hc.
  destruct (N.leb_spec 65 c); [lia|]. cbn [andb].
  destruct (N.leb_spec 65 x); destruct (N.leb_spec x 90); cbn [andb];
    rewrite N.eqb_eq; lia.
Qed.

Lemma punct_not_digit c x :
  (c < 48)%N -> lit_i c x = true -> is_digit x = false.
Proof.
  intros Hc H. apply lit_i_punct in H as ->; [|lia].
  unfold is_digit, in_range. destruct (N.leb_spec 48 c); [lia|reflexivity].
Qed.

Lemma punct_not_space x :
  x = chr "," \/ x = chr ")" \/ x = chr "%" -> is_space x = false.
Proof. intros [-> | [-> | ->]]; reflexivity. Qed.

Lemma space_not_percent c : is_space c = true -> lit_i (chr "%") c = false.
Proof.
  intros H. destruct (lit_i (chr "%") c) eqn:E; [|reflexivity].
  apply lit_i_punct in E as ->; [discriminate | reflexivity].
Qed.

Lemma hex_lower c : is_hex_digit c = true -> is_lower_hex (lower c) = true.
Proof.
  unfold is_hex_digit, is_lower_hex, lower, in_range.
  destruct (N.leb_spec 48 c), (N.leb_spec c 57), (N.leb_spec 97 c),
    (N.leb_spec c 102), (N.leb_spec 65 c), (N.leb_spec c 70), (N.leb_spec c 90);
    cbn; try discriminate; try lia; intros _; compare_all.
Qed.

Lemma starts_outside_app (p q : N -> bool) (w rest : jstring) :
  (forall c, q c = true -> p c = false) ->
  forallb q w = true -> starts_outside p rest -> starts_outside p (w ++ rest).
Proof.
  intros Hqp Hw Hrest. destruct w as [|c w]; [exact Hrest|].
  cbn in Hw |- *. apply andb_true_iff in Hw as [Hc _]. now apply Hqp.
Qed.

Lemma starts_outside_head (p q : N -> bool) (d rest : jstring) :
  (forall c, q c = true -> p c = false) ->
  forallb q d = true -> (1 <= length d)%nat -> starts_outside p (d ++ rest).
Proof.
  intros Hqp Hd Hlen. destruct d as [|c d]; [cbn in Hlen; lia|].
  cbn in Hd |- *. apply andb_true_iff in Hd as [Hc _]. now apply Hqp.
Qed.

(** ** Regular expressions: stepping through a successful match *)

Section RegexSteps.
Context {A : Type}.
Implicit Types (k : jstring -> list jstring -> option A) (v : A).

Lemma run_chr_some p c s caps k v :
  p c = true -> k s caps = Some v -> run (Chr p) (c :: s) caps k = Some v.
Proof. intros Hp Hk. cbn [run]. now rewrite Hp. Qed.

Lemma run_rep_some p lo hi s1 s2 caps k v :
  forallb p s1 = true -> (lo <= length s1)%nat ->
  (forall n, hi = Some n -> (length s1 <= n)%nat) ->
  (hi = Some (length s1) \/ starts_outside p s2) ->
  k s2 caps = Some v ->
  run (Rep p lo hi) (s1 ++ s2) caps k = Some v.
Proof. intros. cbn [run]. now apply rep_run_greedy. Qed.

Lemma run_star_some p w s2 caps k v :
  forallb p w = true -> starts_outside p s2 -> k s2 caps = Some v ->
  run (star p) (w ++ s2) caps k = Some v.
Proof.
  intros. apply run_rep_some; auto; [lia | discriminate].
Qed.

Lemma run_opt_some p c x s2 caps k v :
  optional c x -> p c = true -> starts_outside p s2 -> k s2 caps = Some v ->
  run (opt p) (x ++ s2) caps k = Some v.
Proof.
  intros [-> | ->] Hp Hout Hk; apply run_rep_some.
  all: try exact Hk; try (now right); try (cbn; lia).
  all: try (intros n Hn; injection Hn as <-; cbn; lia).
  all: try reflexivity.
  cbn. now rewrite Hp.
Qed.

Lemma firstn_app_exact (s1 s2 : jstring) :
  firstn (length (s1 ++ s2) - length s2) (s1 ++ s2) = s1.
Proof.
  rewrite length_app, Nat.add_sub, firstn_app, Nat.sub_diag, firstn_all.
  cbn [firstn]. apply app_nil_r.
Qed.

Lemma run_channel_some d s2 caps k v :
  channel d -> starts_outside is_digit s2 -> k s2 (caps ++ [d]) = Some v ->
  run (Group (Rep is_digit 1 (Some 3%nat))) (d ++ s2) caps k = Some v.
Proof.
  intros [Hd Hlen] Hout Hk. cbn [run]. apply rep_run_greedy; auto; try lia.
  - intros n Hn. injection Hn as <-. lia.
  - now rewrite firstn_app_exact.
Qed.

End RegexSteps.

(** ** The three regular expressions and the three grammars *)

Lemma run_seq {A} a1 a2 s caps (k : jstring -> list jstring -> option A) :
  run (Seq a1 a2) s caps k = run a1 s caps (fun s1 c1 => run a2 s1 c1 k).
Proof. reflexivity. Qed.

Lemma starts_outside_optional (p : N -> bool) (c : N) (q rest : jstring) :
  optional c q -> p c = false -> starts_outside p rest ->
  starts_outside p (q ++ rest).
Proof. intros [-> | ->] Hc Hrest; [exact Hrest | exact Hc]. Qed.

Lemma keyword4 (name f : jstring) (n1 n2 n3 n4 : N) :
  name = [n1; n2; n3; n4] -> keyword name f ->
  exists c1 c2 c3 c4, f = [c1; c2; c3; c4]
    /\ lower c1 = n1 /\ lower c2 = n2 /\ lower c3 = n3 /\ lower c4 = n4.
Proof.
  intros -> H. unfold keyword, toLowerCase in H.
  destruct f as [|c1 [|c2 [|c3 [|c4 [|c5 f]]]]]; try discriminate.
  injection H as H1 H2 H3 H4. exists c1, c2, c3, c4. auto.
Qed.

Lemma run_hex_group (ds : jstring) (caps : list jstring) :
  hex_digits ds ->
  run (Group (Alt (Rep is_hex_digit 3 (Some 3%nat))
                  (Rep is_hex_digit 6 (Some 6%nat)))) ds caps at_end
  = Some (caps ++ [ds]).
Proof.
  intros [Hd Hlen]. cbn [run].
  set (K := fun s1 : jstring =>
              at_end s1 (caps ++ [firstn (length ds - length s1) ds])).
  assert (HK : K [] = Some (caps ++ [ds])).
  { unfold K. cbn [at_end length]. now rewrite Nat.sub_0_r, firstn_all. }
  destruct Hlen as [H3 | H6].
  - rewrite <- (app_nil_r ds) at 1.
    rewrite (rep_run_greedy _ _ _ _ _ _ (caps ++ [ds])); auto; try lia.
    intros n Hn. injection Hn as <-. lia.
  - destruct (rep_run is_hex_digit 3 (Some 3%nat) ds K) as [v|] eqn:E.
    + apply rep_run_sound in E as (s1 & s2 & -> & _ & Hlo & Hhi & Hk).
      specialize (Hhi _ eq_refl). unfold K, at_end in Hk.
      destruct s2; [|discriminate]. rewrite app_nil_r in H6. lia.
    + rewrite <- (app_nil_r ds) at 1.
      rewrite (rep_run_greedy _ _ _ _ _ _ (caps ++ [ds])); auto; try lia.
      intros n Hn. injection Hn as <-. lia.
Qed.

Lemma hexRe_complete (t ds : jstring) :
  HexText t ds -> exec hexRe t = Some [ds].
Proof.
  intros [x ds' Hx Hds]. unfold exec, hexRe, seqs. rewrite run_seq.
  apply run_opt_some with (c := chr "#"); auto.
  - rewrite <- (app_nil_r ds').
    apply (starts_outside_head _ is_hex_digit); [exact hex_not_hash | apply Hds |].
    destruct Hds as [_ [-> | ->]]; lia.
  - now apply (run_hex_group ds' []).
Qed.

Ltac invert_matches :=
  repeat match goal with
         | H : matches (Seq _ _) _ _ _ |- _ =>
             apply matches_seq in H as (? & ? & ? & ? & ? & ?)
         | H : matches (Chr _) _ _ _ |- _ =>
             apply matches_chr in H as (? & ? & ? & ?)
         | H : matches (Rep _ _ _) _ _ _ |- _ =>
             apply matches_rep in H as (? & ? & ? & ?)
         | H : matches (Group _) _ _ _ |- _ =>
             apply matches_group in H as (? & ? & ?)
         end.

Lemma optional_of_rep (p : N -> bool) (c : N) (x : jstring) :
  (forall y, p y = true -> y = c) ->
  forallb p x = true -> (forall n, Some 1%nat = Some n -> (length x <= n)%nat) ->
  optional c x.
Proof.
  intros Hp Hx Hlen. specialize (Hlen _ eq_refl).
  destruct x as [|y [|z x]]; [now left | right | cbn in Hlen; lia].
  cbn in Hx. rewrite andb_true_r in Hx. now rewrite (Hp y Hx).
Qed.

Lemma hexRe_sound (t : jstring) (caps : list jstring) :
  exec hexRe t = Some caps -> exists ds, HexText t ds /\ caps = [ds].
Proof.
  intros H. apply exec_sound in H. unfold hexRe, seqs, opt in H.
  invert_matches. subst.
  match goal with H : matches (Alt _ _) ?ds _ _ |- _ =>
    exists ds; apply matches_alt in H as [H | H] end;
    invert_matches; subst; (split; [|reflexivity]); constructor.
  all: try (eapply optional_of_rep; eauto; intros y Hy; now apply N.eqb_eq in Hy).
  all: split; auto.
  - left. match goal with H : forall n, Some 3%nat = Some n -> _ |- _ =>
      specialize (H _ eq_refl) end. lia.
  - right. match goal with H : forall n, Some 6%nat = Some n -> _ |- _ =>
      specialize (H _ eq_refl) end. lia.
Qed.

Lemma comma_not_digit : forall c, lit_i (chr ",") c = true -> is_digit c = false.
Proof. intros c. now apply punct_not_digit. Qed.

(** One step of a successful run over a text of the [rgb]/[hsl] shape. *)
Ltac run_step :=
  first
    [ rewrite run_seq
    | apply run_chr_some; [(apply lit_i_true; assumption) || reflexivity |]
    | apply run_star_some; [assumption | | ]
    | apply run_channel_some; [assumption | | ]
    | apply run_opt_some with (c := chr "%"); [assumption | reflexivity | | ] ];
  cbv beta.

(** What follows a channel or a run of white space cannot extend it. *)
Ltac outside :=
  repeat first
    [ exact I
    | reflexivity
    | apply (starts_outside_head _ is_digit);
        [exact digit_not_space | match goal with H : channel _ |- _ => apply H end
        | match goal with H : channel _ |- _ => apply H end ]
    | apply (starts_outside_optional _ (chr "%")); [assumption | reflexivity |]
    | apply (starts_outside_app _ is_space);
        [first [exact space_not_digit | exact space_not_percent] | assumption |] ].

Lemma rgbRe_complete (t d1 d2 d3 : jstring) :
  RgbText t d1 d2 d3 -> exec rgbRe t = Some [d1; d2; d3].
Proof.
  intros [f w1 e1 w2 w3 e2 w4 w5 e3 w6 Hf S1 C1 S2 S3 C2 S4 S5 C3 S6].
  destruct (keyword4 _ f _ _ _ _ eq_refl Hf)
    as (c1 & c2 & c3 & c4 & -> & L1 & L2 & L3 & L4).
  unfold exec, rgbRe, seqs. cbn [app str].
  do 40 (try run_step; try (progress outside)).
Qed.

Lemma hslRe_complete (t d1 d2 d3 : jstring) :
  HslText t d1 d2 d3 -> exec hslRe t = Some [d1; d2; d3].
Proof.
  intros [f w1 e1 w2 w3 e2 q2 w4 w5 e3 q3 w6 Hf S1 C1 S2 S3 C2 Q2 S4 S5 C3 Q3 S6].
  destruct (keyword4 _ f _ _ _ _ eq_refl Hf)
    as (c1 & c2 & c3 & c4 & -> & L1 & L2 & L3 & L4).
  unfold exec, hslRe, seqs. cbn [app str].
  do 50 (try run_step; try (progress outside)).
Qed.

(** Each literal of a successful match is the character it stands for. *)
Ltac literals :=
  repeat match goal with
         | H : lit_i (chr ?a) ?x = true |- _ =>
             first [ apply lit_i_punct in H; [subst x | reflexivity]
                   | unfold lit_i in H; apply N.eqb_eq in H;
                     change (lower (chr a)) with (chr a) in H ]
         end.

Lemma optional_percent (q : jstring) :
  forallb (lit_i (chr "%")) q = true ->
  (forall n, Some 1%nat = Some n -> (length q <= n)%nat) ->
  optional (chr "%") q.
Proof.
  apply optional_of_rep. intros y Hy. now apply lit_i_punct in Hy.
Qed.

Lemma channel_of_rep (d : jstring) :
  forallb is_digit d = true -> (1 <= length d)%nat ->
  (forall n, Some 3%nat = Some n -> (length d <= n)%nat) -> channel d.
Proof. intros Hd Hlo Hhi. specialize (Hhi _ eq_refl). split; [exact Hd | lia]. Qed.

Lemma rgbRe_sound (t : jstring) (caps : list jstring) :
  exec rgbRe t = Some caps ->
  exists d1 d2 d3, RgbText t d1 d2 d3 /\ caps = [d1; d2; d3].
Proof.
  intros H. apply exec_sound in H. unfold rgbRe, seqs, star in H.
  invert_matches. subst. literals.
  do 3 eexists. split; cycle 1.
  { cbn [app]. reflexivity. }
  match goal with
  | |- RgbText ([?c1] ++ [?c2] ++ [?c3] ++ _) _ _ _ =>
      apply (rgb_text [c1; c2; c3; chr "("])
  end; auto using channel_of_rep.
  unfold keyword, toLowerCase. cbn [map].
  repeat match goal with H : lower _ = _ |- _ => rewrite H; clear H end.
  reflexivity.
Qed.

Lemma hslRe_sound (t : jstring) (caps : list jstring) :
  exec hslRe t = Some caps ->
  exists d1 d2 d3, HslText t d1 d2 d3 /\ caps = [d1; d2; d3].
Proof.
  intros H. apply exec_sound in H. unfold hslRe, seqs, star, opt in H.
  invert_matches. subst. literals.
  do 3 eexists. split; cycle 1.
  { cbn [app]. reflexivity. }
  match goal with
  | |- HslText ([?c1] ++ [?c2] ++ [?c3] ++ _) _ _ _ =>
      apply (hsl_text [c1; c2; c3; chr "("])
  end; auto using channel_of_rep, optional_percent.
  unfold keyword, toLowerCase. cbn [map].
  repeat match goal with H : lower _ = _ |- _ => rewrite H; clear H end.
  reflexivity.
Qed.

(** ** The parser fails exactly outside the three grammars *)

Lemma exec_hexRe_none (t : jstring) :
  exec hexRe t = None <-> ~ exists ds, HexText t ds.
Proof.
  split.
  - intros Hn [ds H]. apply hexRe_complete in H. congruence.
  - intros Hn. destruct (exec hexRe t) as [caps|] eqn:E; [|reflexivity].
    apply hexRe_sound in E as (ds & H & _). exfalso. eauto.
Qed.

Lemma exec_rgbRe_none (t : jstring) :
  exec rgbRe t = None <-> ~ exists d1 d2 d3, RgbText t d1 d2 d3.
Proof.
  split.
  - intros Hn (d1 & d2 & d3 & H). apply rgbRe_complete in H. congruence.
  - intros Hn. destruct (exec rgbRe t) as [caps|] eqn:E; [|reflexivity].
    apply rgbRe_sound in E as (d1 & d2 & d3 & H & _). exfalso. eauto.
Qed.


Lemma parseColor_throw_inv (input msg : jstring) :
  parseColor input = Throw msg ->
  msg = parse_error input
  /\ exec hexRe (trim input) = None /\ exec rgbRe (trim input) = None
  /\ exec hslRe (trim input) = None.
Proof.
  unfold parseColor.
  destruct (exec hexRe (trim input)); [discriminate|].
  destruct (exec rgbRe (trim input)); [discriminate|].
  destruct (exec hslRe (trim input)); [discriminate|].
  intros H. injection H as <-. auto.
Qed.



(** ** What no accepted text contains *)

Lemma forallb_weaken (p q : N -> bool) (s : jstring) :
  (forall c, p c = true -> q c = true) -> forallb p s = true -> forallb q s = true.
Proof.
  intros Hpq. rewrite !forallb_forall. auto.
Qed.
















Lemma lower_paren c : lower c = chr "(" -> c = chr "(".
Proof. intros H. apply (lit_i_punct (chr "(")); [reflexivity|]. now apply lit_i_true. Qed.

Lemma function_text_paren (t d1 d2 d3 : jstring) :
  RgbText t d1 d2 d3 \/ HslText t d1 d2 d3 -> In (chr "(") t.
Proof.
  intros [H | H]; destruct H;
    match goal with Hf : keyword _ ?f |- _ =>
      destruct (keyword4 _ f _ _ _ _ eq_refl Hf)
        as (c1 & c2 & c3 & c4 & -> & L1 & L2 & L3 & L4)
    end; apply lower_paren in L4; subst c4; cbn; auto.
Qed.






(** ** Clamping of out-of-range channels *)

Lemma channel_value (d : jstring) : channel d -> 0 <= value d < 1000.
Proof.
  intros [Hd Hlen]. unfold value.
  destruct d as [|a [|b [|c [|e d]]]]; cbn [length] in Hlen; try lia;
    cbn [forallb] in Hd; unfold is_digit, in_range in Hd;
    repeat (apply andb_true_iff in Hd as [? Hd]);
    repeat match goal with
           | H : ((_ <=? _)%N && (_ <=? _)%N) = true |- _ =>
               apply andb_true_iff in H as [? ?]
           | H : (_ <=? _)%N = true |- _ => apply N.leb_le in H
           end;
    cbn [read_dec]; lia.
Qed.

Lemma clamp_255_all : forallb (clamp_exact 255) (upto 1000) = true.
Proof. vm_compute. reflexivity. Qed.

Lemma clamp_360_all : forallb (clamp_exact 360) (upto 1000) = true.
Proof. vm_compute. reflexivity. Qed.

Lemma clamp_100_all : forallb (clamp_exact 100) (upto 1000) = true.
Proof. vm_compute. reflexivity. Qed.

Lemma clamp_channel (bound : Z) (d : jstring) :
  forallb (clamp_exact bound) (upto 1000) = true -> channel d ->
  Math_min2 (Z2F bound) (ToNumber_digits d) = Z2F (Z.min bound (value d)).
Proof.
  intros Hall Hd. apply FloatAxioms.Leibniz.eqb_spec.
  apply (forallb_upto 1000 (clamp_exact bound) Hall).
  apply channel_value in Hd. lia.
Qed.

Lemma decimal_exact_all : forallb decimal_exact (upto 361) = true.
Proof. vm_compute. reflexivity. Qed.

Lemma decimal_channel (n : Z) :
  0 <= n <= 360 ->
  channel (Number_toString 10 (Z2F n)) /\ value (Number_toString 10 (Z2F n)) = n.
Proof.
  intros Hn. pose proof (forallb_upto 361 _ decimal_exact_all n ltac:(lia)) as H.
  unfold decimal_exact in H.
  repeat (apply andb_true_iff in H as [H ?]).
  repeat split; auto.
  - now apply Nat.leb_le.
  - now apply Nat.leb_le.
  - now apply Z.eqb_eq.
Qed.

(** An [rgb]/[hsl] text is not a hex text, and an [hsl] text not an [rgb] one. *)
Lemma function_text_not_hex (t d1 d2 d3 : jstring) :
  RgbText t d1 d2 d3 \/ HslText t d1 d2 d3 -> exec hexRe t = None.
Proof.
  intros H. apply exec_hexRe_none. intros [ds Hh].
  apply function_text_paren in H. destruct Hh as [x ds Hx [Hds _]].
  apply in_app_or in H as [H | H].
  - destruct Hx as [-> | ->]; [destruct H | destruct H as [H | []]; discriminate].
  - rewrite forallb_forall in Hds. specialize (Hds _ H). discriminate.
Qed.

Lemma hsl_text_not_rgb (t d1 d2 d3 : jstring) :
  HslText t d1 d2 d3 -> exec rgbRe t = None.
Proof.
  intros H. apply exec_rgbRe_none. intros (e1 & e2 & e3 & Hr).
  destruct H as [f]. inversion Hr as [f']. subst.
  match goal with Hf : keyword (str "hsl(") f |- _ =>
    destruct (keyword4 _ f _ _ _ _ eq_refl Hf)
      as (c1 & c2 & c3 & c4 & -> & L1 & _) end.
  match goal with Hf : keyword (str "rgb(") f' |- _ =>
    destruct (keyword4 _ f' _ _ _ _ eq_refl Hf)
      as (k1 & k2 & k3 & k4 & -> & M1 & _) end.
  match goal with E : _ ++ _ = _ ++ _ |- _ => cbn [app] in E; injection E as E _ end.
  subst. rewrite L1 in M1. discriminate.
Qed.

Lemma parseColor_rgb (input d1 d2 d3 : jstring) :
  RgbText (trim input) d1 d2 d3 ->
  parseColor input
  = Return (rgbToHex (rgb_of (Z.min 255 (value d1)) (Z.min 255 (value d2))
                             (Z.min 255 (value d3)))).
Proof.
  intros H. unfold parseColor.
  rewrite (function_text_not_hex _ _ _ _ (or_introl H)).
  rewrite (rgbRe_complete _ _ _ _ H). cbn [capture pred nth].
  inversion H; subst.
  now rewrite !(clamp_channel 255 _ clamp_255_all) by assumption.
Qed.

Lemma parseColor_hsl (input d1 d2 d3 : jstring) :
  HslText (trim input) d1 d2 d3 ->
  parseColor input
  = Return (hslToHex (hsl_of (Z.min 360 (value d1)) (Z.min 100 (value d2))
                             (Z.min 100 (value d3)))).
Proof.
  intros H. unfold parseColor.
  rewrite (function_text_not_hex _ _ _ _ (or_intror H)).
  rewrite (hsl_text_not_rgb _ _ _ _ H).
  rewrite (hslRe_complete _ _ _ _ H). cbn [capture pred nth].
  inversion H; subst.
  rewrite (clamp_channel 360 _ clamp_360_all) by assumption.
  now rewrite !(clamp_channel 100 _ clamp_100_all) by assumption.
Qed.

Lemma trim_fixed (s : jstring) :
  starts_outside is_space s -> starts_outside is_space (rev s) -> trim s = s.
Proof.
  intros H1 H2. unfold trim.
  assert (E : forall u, starts_outside is_space u -> trimStart u = u).
  { intros [|c u] Hu; [reflexivity|]. cbn in Hu |- *. now rewrite Hu. }
  rewrite (E s H1), (E (rev s) H2). apply rev_involutive.
Qed.

Lemma formatRgb_text (r g b : Z) :
  0 <= r <= 360 -> 0 <= g <= 360 -> 0 <= b <= 360 ->
  RgbText (trim (formatRgb (rgb_of r g b)))
    (Number_toString 10 (Z2F r)) (Number_toString 10 (Z2F g))
    (Number_toString 10 (Z2F b)).
Proof.
  intros Hr Hg Hb.
  destruct (decimal_channel r Hr) as [Cr _].
  destruct (decimal_channel g Hg) as [Cg _].
  destruct (decimal_channel b Hb) as [Cb _].
  rewrite trim_fixed.
  - exact (rgb_text (str "rgb(") [] _ [] (str " ") _ [] (str " ") _ []
             eq_refl eq_refl Cr eq_refl eq_refl Cg eq_refl eq_refl Cb eq_refl).
  - reflexivity.
  - unfold formatRgb, rgb_of. rewrite !app_assoc, rev_app_distr. reflexivity.
Qed.

Lemma formatHsl_text (h s l : Z) :
  0 <= h <= 360 -> 0 <= s <= 360 -> 0 <= l <= 360 ->
  HslText (trim (formatHsl (hsl_of h s l)))
    (Number_toString 10 (Z2F h)) (Number_toString 10 (Z2F s))
    (Number_toString 10 (Z2F l)).
Proof.
  intros Hh Hs Hl.
  destruct (decimal_channel h Hh) as [Ch _].
  destruct (decimal_channel s Hs) as [Cs _].
  destruct (decimal_channel l Hl) as [Cl _].
  rewrite trim_fixed.
  - exact (hsl_text (str "hsl(") [] _ [] (str " ") _ (str "%") [] (str " ") _
             (str "%") []
             eq_refl eq_refl Ch eq_refl eq_refl Cs (or_intror eq_refl) eq_refl
             eq_refl Cl (or_intror eq_refl) eq_refl).
  - reflexivity.
  - unfold formatHsl, hsl_of. rewrite !app_assoc, rev_app_distr. reflexivity.
Qed.

(** C7. Out-of-range channels are clamped, not rejected: a text of the
    [rgb] grammar parses to the colour of its channels capped at 255, a text
    of the [hsl] grammar to the colour of its hue capped at 360 and its
    saturation and lightness capped at 100, and either parses as the text
    written with the capped values does. *)
Theorem parseColor_clamps (input d1 d2 d3 : jstring) :
  (RgbText (trim input) d1 d2 d3 ->
   let r := Z.min 255 (value d1) in
   let g := Z.min 255 (value d2) in
   let b := Z.min 255 (value d3) in
   parseColor input = Return (rgbToHex (rgb_of r g b))
   /\ parseColor input = parseColor (formatRgb (rgb_of r g b)))
  /\ (HslText (trim input) d1 d2 d3 ->
      let h := Z.min 360 (value d1) in
      let s := Z.min 100 (value d2) in
      let l := Z.min 100 (value d3) in
      parseColor input = Return (hslToHex (hsl_of h s l))
      /\ parseColor input = parseColor (formatHsl (hsl_of h s l))).
Proof.
  split.
  - intros H. pose proof H as H'. inversion H'; subst.
    pose proof (channel_value d1 ltac:(assumption)) as V1.
    pose proof (channel_value d2 ltac:(assumption)) as V2.
    pose proof (channel_value d3 ltac:(assumption)) as V3.
    cbv zeta. rewrite (parseColor_rgb _ _ _ _ H). split; [reflexivity|].
    rewrite (parseColor_rgb _ _ _ _
               (formatRgb_text (Z.min 255 (value d1)) (Z.min 255 (value d2))
                  (Z.min 255 (value d3)) ltac:(lia) ltac:(lia) ltac:(lia))).
    destruct (decimal_channel (Z.min 255 (value d1)) ltac:(lia)) as [_ ->].
    destruct (decimal_channel (Z.min 255 (value d2)) ltac:(lia)) as [_ ->].
    destruct (decimal_channel (Z.min 255 (value d3)) ltac:(lia)) as [_ ->].
    now rewrite !Z.min_assoc, !Z.min_id.
  - intros H. pose proof H as H'. inversion H'; subst.
    pose proof (channel_value d1 ltac:(assumption)) as V1.
    pose proof (channel_value d2 ltac:(assumption)) as V2.
    pose proof (channel_value d3 ltac:(assumption)) as V3.
    cbv zeta. rewrite (parseColor_hsl _ _ _ _ H). split; [reflexivity|].
    rewrite (parseColor_hsl _ _ _ _
               (formatHsl_text (Z.min 360 (value d1)) (Z.min 100 (value d2))
                  (Z.min 100 (value d3)) ltac:(lia) ltac:(lia) ltac:(lia))).
    destruct (decimal_channel (Z.min 360 (value d1)) ltac:(lia)) as [_ ->].
    destruct (decimal_channel (Z.min 100 (value d2)) ltac:(lia)) as [_ ->].
    destruct (decimal_channel (Z.min 100 (value d3)) ltac:(lia)) as [_ ->].
    now rewrite !Z.min_assoc, !Z.min_id.
Qed.

Lemma parseColor_clamps_witness :
  RgbText (trim (str " RGB( 300 ,7,255 ) ")) (str "300") (str "7") (str "255")
  /\ parseColor (str " RGB( 300 ,7,255 ) ") = Return (str "#ff07ff")
  /\ parseColor (str " RGB( 300 ,7,255 ) ") = parseColor (str "rgb(255, 7, 255)").
Proof.
  assert (H : RgbText (trim (str " RGB( 300 ,7,255 ) "))
                (str "300") (str "7") (str "255")).
  { refine (rgb_text (str "RGB(") (str " ") (str "300") (str " ") [] (str "7") []
              [] (str "255") (str " ") _ _ _ _ _ _ _ _ _ _);
      first [reflexivity | split; [reflexivity | cbn; lia]]. }
  split; [exact H|].
  exact (proj1 (parseColor_clamps _ _ _ _) H).
Defined.

(** ** Rounding *)

(** [Math_round] is [floor (x + 1/2)] on a grid of eighths and on the
    numbers next to them. *)
Lemma Math_round_exact_grid :
  forallb (fun k =>
     let x := (Z2F k / 8)%float in
     forallb (fun y => PrimFloat.Leibniz.eqb (Math_round y) (Math_round_exact y))
       [x; next_up x; next_down x; (- x)%float; (- next_up x)%float;
        (- next_down x)%float])
    (upto 4000) = true.
Proof. vm_compute. reflexivity. Qed.

(** ** The channels of [hslToRgb] *)

Lemma hslToRgb_sector (h s l : number) :
  hslToRgb (mkHSL h s l)
  = rgb_in_sector (hue_sector h)
      (channel_of (chroma s l) (lift s l))
      (channel_of (chroma s l * hue_factor h) (lift s l))
      (channel_of 0 (lift s l)).
Proof.
  unfold hslToRgb, hue_sector, rgb_in_sector, channel_of, lift, chroma, hue_factor.
  destruct (h <? 60)%float; [reflexivity|].
  destruct (h <? 120)%float; [reflexivity|].
  destruct (h <? 180)%float; [reflexivity|].
  destruct (h <? 240)%float; [reflexivity|].
  destruct (h <? 300)%float; reflexivity.
Qed.

Lemma In_upto (n : nat) (z : Z) : In z (upto n) -> 0 <= z < Z.of_nat n.
Proof.
  unfold upto. rewrite in_map_iff. intros (k & <- & Hk). apply in_seq in Hk. lia.
Qed.

Lemma lookup_number_build {A : Type} (f : Z -> A) (n : nat) :
  forall (base : Z) (v : number) (a : A),
  lookup_number v (build f n base) = Some a ->
  exists z, base <= z < base + 2 ^ Z.of_nat n /\ v = Z2F z /\ a = f z.
Proof.
  induction n as [|n IH]; intros base v a H; cbn [build lookup_number] in H.
  - destruct (PrimFloat.Leibniz.eqb v (Z2F base)) eqn:E; [|discriminate].
    injection H as <-. apply FloatAxioms.Leibniz.eqb_spec in E.
    exists base. cbn. split; [lia | auto].
  - rewrite Nat2Z.inj_succ, Z.pow_succ_r by lia.
    pose proof (Z.pow_pos_nonneg 2 (Z.of_nat n) ltac:(lia) ltac:(lia)).
    destruct (v <? Z2F (base + 2 ^ Z.of_nat n))%float;
      apply IH in H as (z & Hz & Hv & Ha); exists z; (split; [lia | auto]).
Qed.

Lemma toHex_neg_zero : hex_pair neg_zero.
Proof. exists (chr "0"), (chr "0"). repeat split. Qed.

Lemma is_channel_hex_pair (v : number) :
  is_channel byte_table v = true -> hex_pair v.
Proof.
  unfold is_channel, byte_table. destruct (lookup_number v _) as [z|] eqn:E.
  - intros _. apply lookup_number_build in E as (z' & Hz & -> & _).
    destruct (toHex_byte z') as (a & b & Hab & Ha & Hb & _).
    + unfold byte. cbn in Hz. lia.
    + exists a, b. auto.
  - intros H. apply FloatAxioms.Leibniz.eqb_spec in H. subst. exact toHex_neg_zero.
Qed.

Lemma hsl_channels_check_spec (ts : list number) (bytes : table Z) :
  hsl_channels_check ts bytes = true ->
  forall s l t, 0 <= s <= 100 -> 0 <= l <= 100 -> In t ts ->
    is_channel bytes (channel_of (chroma (Z2F s) (Z2F l)) (lift (Z2F s) (Z2F l))) = true
    /\ is_channel bytes (channel_of (chroma (Z2F s) (Z2F l) * t)
                           (lift (Z2F s) (Z2F l))) = true
    /\ is_channel bytes (channel_of 0 (lift (Z2F s) (Z2F l))) = true.
Proof.
  unfold hsl_channels_check. intros H s l t Hs Hl Ht.
  pose proof (forallb_upto 101 _ H s ltac:(lia)) as H1. cbv beta in H1.
  pose proof (forallb_upto 101 _ H1 l ltac:(lia)) as H2. cbv beta zeta in H2.
  apply andb_true_iff in H2 as [H2 Hx]. apply andb_true_iff in H2 as [Hc H0].
  rewrite forallb_forall in Hx. auto.
Qed.

Lemma hue_factors_check_spec (ts : list number) :
  hue_factors_check ts = true ->
  forall h, 0 <= h <= 360 -> In (hue_factor (Z2F h)) ts.
Proof.
  unfold hue_factors_check. intros H h Hh.
  pose proof (forallb_upto 361 _ H h ltac:(lia)) as Ht. cbv beta in Ht.
  apply existsb_exists in Ht as (t & Hin & Et).
  apply FloatAxioms.Leibniz.eqb_spec in Et. now rewrite Et.
Qed.

Lemma hsl_channels_checked : hsl_channels_check hue_factors byte_table = true.
Proof. vm_compute. reflexivity. Qed.

Lemma hue_factors_checked : hue_factors_check hue_factors = true.
Proof. vm_compute. reflexivity. Qed.

Lemma hslToRgb_channels (h s l : Z) :
  0 <= h <= 360 -> 0 <= s <= 100 -> 0 <= l <= 100 ->
  hex_pair (channel_of (chroma (Z2F s) (Z2F l)) (lift (Z2F s) (Z2F l)))
  /\ hex_pair (channel_of (chroma (Z2F s) (Z2F l) * hue_factor (Z2F h))
                 (lift (Z2F s) (Z2F l)))
  /\ hex_pair (channel_of 0 (lift (Z2F s) (Z2F l))).
Proof.
  intros Hh Hs Hl.
  destruct (hsl_channels_check_spec _ _ hsl_channels_checked s l
              (hue_factor (Z2F h)) Hs Hl
              (hue_factors_check_spec _ hue_factors_checked h Hh))
    as (Hc & Hx & H0).
  split; [|split]; apply is_channel_hex_pair; [exact Hc | exact Hx | exact H0].
Qed.

(** ** The round trip through HSL *)

Lemma unit_order_all :
  forallb (fun i => forallb (unit_order i) (upto 256)) (upto 256) = true.
Proof. vm_compute. reflexivity. Qed.

Lemma unit_order_spec (i j : Z) :
  byte i -> byte j ->
  Math_max2 (unit_of i) (unit_of j) = unit_of (Z.max i j)
  /\ Math_min2 (unit_of i) (unit_of j) = unit_of (Z.min i j)
  /\ (unit_of i =? unit_of j)%float = (i =? j)
  /\ (unit_of i <? unit_of j)%float = (i <? j)
  /\ (unit_of i - unit_of j =? 0)%float = (i =? j).
Proof.
  intros Hi Hj.
  pose proof (forallb_bytes _ unit_order_all i Hi) as H1. cbv beta in H1.
  pose proof (forallb_bytes _ H1 j Hj) as H2. unfold unit_order in H2.
  apply andb_true_iff in H2 as [H2 E5]. apply andb_true_iff in H2 as [H2 E4].
  apply andb_true_iff in H2 as [H2 E3]. apply andb_true_iff in H2 as [E1 E2].
  apply FloatAxioms.Leibniz.eqb_spec in E1, E2.
  apply eqb_prop in E3, E4, E5. auto.
Qed.

Lemma counts_all : forallb counts (upto 256) = true.
Proof. vm_compute. reflexivity. Qed.

Lemma Z2F_succ (z : Z) : byte z -> (Z2F z + 1)%float = Z2F (z + 1).
Proof.
  intros Hz. pose proof (forallb_bytes _ counts_all z Hz) as H. unfold counts in H.
  apply andb_true_iff in H as [H _]. now apply FloatAxioms.Leibniz.eqb_spec.
Qed.

Lemma Z2F_pred (z : Z) : byte (z - 1) -> (Z2F z - 1)%float = Z2F (z - 1).
Proof.
  intros Hz. pose proof (forallb_bytes _ counts_all (z - 1) Hz) as H. unfold counts in H.
  apply andb_true_iff in H as [_ H]. apply FloatAxioms.Leibniz.eqb_spec in H.
  now replace (z - 1 + 1) with z in H by lia.
Qed.

(** [rgbToHsl] on bytes, by its parts. *)
Lemma rgbToHsl_bytes (r g b : Z) :
  byte r -> byte g -> byte b ->
  rgbToHsl (rgb_of r g b)
  = let uM := unit_of (Z.max (Z.max r g) b) in
    let um := unit_of (Z.min (Z.min r g) b) in
    if Z.max (Z.max r g) b =? Z.min (Z.min r g) b
    then mkHSL 0 0 (lightness uM um)
    else mkHSL (hue_of r g b) (saturation uM um) (lightness uM um).
Proof.
  intros Hr Hg Hb.
  assert (HM : byte (Z.max r g)) by (unfold byte in *; lia).
  assert (Hm : byte (Z.min r g)) by (unfold byte in *; lia).
  assert (HM' : byte (Z.max (Z.max r g) b)) by (unfold byte in *; lia).
  assert (Hm' : byte (Z.min (Z.min r g) b)) by (unfold byte in *; lia).
  destruct (unit_order_spec r g Hr Hg) as (E1 & E2 & _ & _ & _).
  destruct (unit_order_spec _ b HM Hb) as (E3 & _ & _ & _ & _).
  destruct (unit_order_spec _ b Hm Hb) as (_ & E4 & _ & _ & _).
  destruct (unit_order_spec _ _ HM' Hm') as (_ & _ & _ & _ & E5).
  destruct (unit_order_spec _ r HM' Hr) as (_ & _ & E6 & _ & _).
  destruct (unit_order_spec _ g HM' Hg) as (_ & _ & E7 & _ & _).
  destruct (unit_order_spec g b Hg Hb) as (_ & _ & _ & E8 & _).
  unfold rgbToHsl, rgb_of, Math_max3, Math_min3. cbv beta iota zeta.
  fold (unit_of r) (unit_of g) (unit_of b).
  rewrite E1, E2, E3, E4, E5, E6, E7, E8.
  unfold hue_of, hue_from, saturation, lightness.
  destruct (_ =? Z.min _ _); [reflexivity|].
  destruct (_ =? r); [destruct (g <? b); reflexivity|].
  destruct (_ =? g); reflexivity.
Qed.

Section RoundTripSound.

Variables t0 t1 t2 t3 t4 t5 : table hue_entry.
Hypothesis T0 : table_of 0 t0.
Hypothesis T1 : table_of 1 t1.
Hypothesis T2 : table_of 2 t2.
Hypothesis T3 : table_of 3 t3.
Hypothesis T4 : table_of 4 t4.
Hypothesis T5 : table_of 5 t5.

Lemma check_one_sound (k0 : nat) (tb : table hue_entry)
    (sat lig fM fm fmid H er eg eb : number) :
  table_of k0 tb ->
  (forall vx,
     within 5 (channel_of (chroma sat lig) (lift sat lig)) fM = true ->
     within 5 (channel_of 0 (lift sat lig)) fm = true ->
     within 5 vx fmid = true ->
     channels_within 5
       (rgb_in_sector k0 (channel_of (chroma sat lig) (lift sat lig)) vx
          (channel_of 0 (lift sat lig))) er eg eb = true) ->
  check_one
    (within 5 (channel_of (chroma sat lig) (lift sat lig)) fM
     && within 5 (channel_of 0 (lift sat lig)) fm)
    (chroma sat lig) (lift sat lig)
    (channel_of (chroma sat lig) (lift sat lig)) (channel_of 0 (lift sat lig))
    fmid tb H er eg eb = true ->
  roundtrip_ok H sat lig er eg eb.
Proof.
  intros Htb Harr. unfold check_one, roundtrip_ok.
  destruct (lookup_number H tb) as [e|] eqn:E; [|discriminate].
  apply Htb in E as (z & Hz & -> & ->). unfold hue_entry_of.
  rewrite hslToRgb_sector.
  destruct (z <=? 360) eqn:Z360; [|discriminate]. apply Z.leb_le in Z360.
  destruct (Nat.eqb _ k0) eqn:K.
  - intros Hc. apply andb_true_iff in Hc as [Hc Hx].
    apply andb_true_iff in Hc as [Hc H0]. apply Nat.eqb_eq in K.
    split; [exists z; split; [lia | reflexivity]|].
    rewrite K. apply Harr; [exact Hc | exact H0 | exact Hx].
  - intros Hc. split; [exists z; split; [lia | reflexivity] | exact Hc].
Qed.

Lemma check_mid_sound (M m mid : Z) :
  check_mid t0 t1 t2 t3 t4 t5
    (within 5 (channel_of (chroma (saturation (unit_of M) (unit_of m))
                                  (lightness (unit_of M) (unit_of m)))
                          (lift (saturation (unit_of M) (unit_of m))
                                (lightness (unit_of M) (unit_of m)))) (Z2F M)
     && within 5 (channel_of 0 (lift (saturation (unit_of M) (unit_of m))
                                     (lightness (unit_of M) (unit_of m)))) (Z2F m))
    (unit_of m) (unit_of M - unit_of m)%float
    (chroma (saturation (unit_of M) (unit_of m)) (lightness (unit_of M) (unit_of m)))
    (lift (saturation (unit_of M) (unit_of m)) (lightness (unit_of M) (unit_of m)))
    (channel_of (chroma (saturation (unit_of M) (unit_of m))
                        (lightness (unit_of M) (unit_of m)))
                (lift (saturation (unit_of M) (unit_of m))
                      (lightness (unit_of M) (unit_of m))))
    (channel_of 0 (lift (saturation (unit_of M) (unit_of m))
                        (lightness (unit_of M) (unit_of m))))
    (Z2F M) (Z2F m) (Z2F mid) = true ->
  orders_ok M m mid.
Proof.
  intros H. unfold check_mid in H. cbv zeta in H. fold (unit_of mid) in H.
  apply andb_true_iff in H as [H H6]. apply andb_true_iff in H as [H H5].
  apply andb_true_iff in H as [H H4]. apply andb_true_iff in H as [H H3].
  apply andb_true_iff in H as [H1 H2].
  unfold orders_ok. cbv zeta.
  split; [|split; [|split; [|split; [|split]]]].
  - apply (check_one_sound 0 t0 _ _ (Z2F M) (Z2F m) (Z2F mid)); [exact T0 | | exact H1].
    intros vx A B C. unfold channels_within. cbn [rgb_in_sector r g b].
    rewrite A, B, C. reflexivity.
  - apply (check_one_sound 5 t5 _ _ (Z2F M) (Z2F m) (Z2F mid)); [exact T5 | | exact H2].
    intros vx A B C. unfold channels_within. cbn [rgb_in_sector r g b].
    rewrite A, B, C. reflexivity.
  - apply (check_one_sound 1 t1 _ _ (Z2F M) (Z2F m) (Z2F mid)); [exact T1 | | exact H3].
    intros vx A B C. unfold channels_within. cbn [rgb_in_sector r g b].
    rewrite A, B, C. reflexivity.
  - apply (check_one_sound 2 t2 _ _ (Z2F M) (Z2F m) (Z2F mid)); [exact T2 | | exact H4].
    intros vx A B C. unfold channels_within. cbn [rgb_in_sector r g b].
    rewrite A, B, C. reflexivity.
  - apply (check_one_sound 4 t4 _ _ (Z2F M) (Z2F m) (Z2F mid)); [exact T4 | | exact H5].
    intros vx A B C. unfold channels_within. cbn [rgb_in_sector r g b].
    rewrite A, B, C. reflexivity.
  - apply (check_one_sound 3 t3 _ _ (Z2F M) (Z2F m) (Z2F mid)); [exact T3 | | exact H6].
    intros vx A B C. unfold channels_within. cbn [rgb_in_sector r g b].
    rewrite A, B, C. reflexivity.
Qed.

Lemma check_mids_sound (ok2 : bool) (um d c lf vc v0 fM fm : number) (n : nat) :
  forall z, byte z -> z + Z.of_nat n <= 256 ->
  check_mids t0 t1 t2 t3 t4 t5 n ok2 um d c lf vc v0 fM fm (Z2F z) = true ->
  forall mid, z <= mid < z + Z.of_nat n ->
  check_mid t0 t1 t2 t3 t4 t5 ok2 um d c lf vc v0 fM fm (Z2F mid) = true.
Proof.
  induction n as [|n IH]; intros z Hz Hn H mid Hmid; [lia|].
  cbn [check_mids] in H. apply andb_true_iff in H as [H1 H2].
  destruct (Z.eq_dec mid z) as [->|Hne]; [exact H1|].
  rewrite (Z2F_succ z Hz) in H2.
  apply (IH (z + 1)); [unfold byte in *; lia | lia | exact H2 | lia].
Qed.

Lemma check_pair_sound (M m : Z) (n : nat) :
  byte m -> M = m + Z.of_nat n -> M <= 255 ->
  check_pair t0 t1 t2 t3 t4 t5 n (Z2F M) (Z2F m) = true ->
  forall mid, m <= mid <= M -> orders_ok M m mid.
Proof.
  intros Hm HM HM' H mid Hmid. unfold check_pair in H. cbv zeta in H.
  fold (unit_of M) (unit_of m) in H.
  apply check_mid_sound.
  apply (check_mids_sound _ _ _ _ _ _ _ _ _ (S n) m); [exact Hm | lia | exact H | lia].
Qed.

Lemma check_mins_sound (M : Z) (k : nat) :
  forall n : nat,
  Z.of_nat n <= M <= 255 ->
  check_mins t0 t1 t2 t3 t4 t5 k n (Z2F M) (Z2F (M - Z.of_nat n)) = true ->
  forall m, 0 <= m -> M - Z.of_nat n - Z.of_nat k < m <= M - Z.of_nat n ->
  forall mid, m <= mid <= M -> orders_ok M m mid.
Proof.
  induction k as [|k IH]; intros n Hn H m Hm0 Hm mid Hmid; [lia|].
  cbn [check_mins] in H. apply andb_true_iff in H as [H1 H2].
  destruct (Z.eq_dec m (M - Z.of_nat n)) as [->|Hne].
  - apply (check_pair_sound M (M - Z.of_nat n) n);
      [unfold byte; lia | lia | lia | exact H1 | exact Hmid].
  - rewrite Z2F_pred in H2 by (unfold byte; lia).
    replace (M - Z.of_nat n - 1) with (M - Z.of_nat (S n)) in H2 by lia.
    apply (IH (S n)); [lia | exact H2 | exact Hm0 | lia | exact Hmid].
Qed.

Lemma check_maxs_sound (cnt : nat) :
  forall M0 : nat,
  (1 <= M0)%nat -> (M0 + cnt <= 256)%nat ->
  check_maxs t0 t1 t2 t3 t4 t5 cnt M0 (Z2F (Z.of_nat M0)) = true ->
  forall M m mid, Z.of_nat M0 <= M < Z.of_nat (M0 + cnt) ->
  0 <= m < M -> m <= mid <= M -> orders_ok M m mid.
Proof.
  induction cnt as [|cnt IH]; intros M0 H1 Hc H M m mid HM Hm Hmid; [lia|].
  cbn [check_maxs] in H. apply andb_true_iff in H as [Hmins Hmaxs].
  destruct (Z.eq_dec M (Z.of_nat M0)) as [->|Hne].
  - rewrite Z2F_pred in Hmins by (unfold byte; lia).
    apply (check_mins_sound (Z.of_nat M0) M0 1);
      [lia | exact Hmins | lia | lia | exact Hmid].
  - rewrite Z2F_succ in Hmaxs by (unfold byte; lia).
    replace (Z.of_nat M0 + 1) with (Z.of_nat (S M0)) in Hmaxs by lia.
    apply (IH (S M0)); [lia | lia | exact Hmaxs | lia | exact Hm | exact Hmid].
Qed.

End RoundTripSound.

Lemma sector_table_of (k0 : nat) : table_of k0 (sector_table k0).
Proof.
  intros H e E. apply lookup_number_build in E as (z & Hz & Hv & He).
  exists z. split; [lia | auto].
Qed.

Lemma roundtrip_checked :
  check_maxs (sector_table 0) (sector_table 1) (sector_table 2)
    (sector_table 3) (sector_table 4) (sector_table 5) 255 1 1 = true.
Proof. vm_compute. reflexivity. Qed.

Lemma orders_checked (M m mid : Z) :
  0 <= m < M -> M <= 255 -> m <= mid <= M -> orders_ok M m mid.
Proof.
  intros Hm HM Hmid.
  apply (check_maxs_sound _ _ _ _ _ _
           (sector_table_of 0) (sector_table_of 1) (sector_table_of 2)
           (sector_table_of 3) (sector_table_of 4) (sector_table_of 5)
           255 1 ltac:(lia) ltac:(lia) roundtrip_checked);
    [lia | exact Hm | exact Hmid].
Qed.

Lemma grays_checked : forallb check_gray (upto 256) = true.
Proof. vm_compute. reflexivity. Qed.

Lemma degrees_zero : degrees 0.
Proof. exists 0. split; [lia | reflexivity]. Qed.

(** Picks the colour of [orders_ok M m mid] that the goal asks for. *)
Ltac order_of M m mid :=
  let O := fresh "O" in
  assert (O : orders_ok M m mid) by (apply orders_checked; lia);
  unfold orders_ok in O; cbv zeta in O;
  destruct O as (O1 & O2 & O3 & O4 & O5 & O6);
  repeat match goal with
         | |- context [Z.max (Z.max ?r ?g) ?b] =>
             replace (Z.max (Z.max r g) b) with M by lia
         | |- context [Z.min (Z.min ?r ?g) ?b] =>
             replace (Z.min (Z.min r g) b) with m by lia
         end.

Lemma rgbToHsl_roundtrip (r g b : Z) :
  byte r -> byte g -> byte b ->
  degrees (h (rgbToHsl (rgb_of r g b))) /\ roundtrip_within 5 r g b = true.
Proof.
  intros Hr Hg Hb. unfold roundtrip_within.
  rewrite (rgbToHsl_bytes r g b Hr Hg Hb). cbv zeta.
  destruct (Z.max (Z.max r g) b =? Z.min (Z.min r g) b) eqn:E.
  - apply Z.eqb_eq in E.
    assert (g = r) by lia. assert (b = r) by lia. subst g b.
    rewrite !Z.max_id, !Z.min_id. split; [exact degrees_zero|].
    exact (forallb_bytes _ grays_checked r Hr).
  - apply Z.eqb_neq in E. unfold byte in *. unfold hue_of. cbn [h].
    destruct (Z.max (Z.max r g) b =? r) eqn:E1.
    + apply Z.eqb_eq in E1. destruct (g <? b) eqn:E2.
      * apply Z.ltb_lt in E2. order_of r g b. exact O2.
      * apply Z.ltb_ge in E2. order_of r b g. exact O1.
    + apply Z.eqb_neq in E1. destruct (Z.max (Z.max r g) b =? g) eqn:E2.
      * apply Z.eqb_eq in E2. destruct (Z_le_gt_dec b r).
        -- order_of g b r. exact O3.
        -- order_of g r b. exact O4.
      * apply Z.eqb_neq in E2. destruct (Z_le_gt_dec g r).
        -- order_of b g r. exact O5.
        -- order_of b r g. exact O6.
Qed.

(** C2 (as stated): the hue of pure red with one step of blue is 360. *)
Lemma rgbToHsl_hue_360 : h (rgbToHsl (rgb_of 255 0 1)) = 360%float.
Proof. vm_compute. reflexivity. Qed.

(** C2 (amended). For every RGB colour with integer channels in [0,255],
    the hue [rgbToHsl] returns is a whole number of degrees from 0 to 360,
    both included. *)
Theorem rgbToHsl_hue_range (r g b : Z) :
  byte r -> byte g -> byte b ->
  exists z, 0 <= z <= 360 /\ h (rgbToHsl (rgb_of r g b)) = Z2F z.
Proof. intros Hr Hg Hb. exact (proj1 (rgbToHsl_roundtrip r g b Hr Hg Hb)). Qed.

Lemma rgbToHsl_hue_range_witness :
  (byte 108 /\ byte 92 /\ byte 231)
  /\ exists z, 0 <= z <= 360 /\ h (rgbToHsl (rgb_of 108 92 231)) = Z2F z.
Proof.
  split; [unfold byte; lia|].
  apply (rgbToHsl_hue_range 108 92 231); unfold byte; lia.
Defined.

(** C3 (as stated): the green channel of (255, 2, 0) comes back as 0. *)
Lemma roundtrip_off_by_two :
  hslToRgb (rgbToHsl (rgb_of 255 2 0)) = rgb_of 255 0 0
  /\ roundtrip_within 1 255 2 0 = false.
Proof. split; vm_compute; reflexivity. Qed.

(** C3 (amended). For every RGB colour with integer channels in [0,255],
    every channel of [hslToRgb (rgbToHsl rgb)] differs from the original
    by at most 5. *)
Theorem roundtrip_within_5 (r g b : Z) :
  byte r -> byte g -> byte b ->
  roundtrip_within 5 r g b = true.
Proof. intros Hr Hg Hb. exact (proj2 (rgbToHsl_roundtrip r g b Hr Hg Hb)). Qed.

Lemma roundtrip_within_5_witness :
  (byte 108 /\ byte 92 /\ byte 231) /\ roundtrip_within 5 108 92 231 = true.
Proof.
  split; [unfold byte; lia|].
  apply (roundtrip_within_5 108 92 231); unfold byte; lia.
Defined.

(** The bound 5 is attained. *)
Lemma roundtrip_five_apart :
  hslToRgb (rgbToHsl (rgb_of 2 228 230)) = rgb_of 2 223 227
  /\ roundtrip_within 4 2 228 230 = false.
Proof. split; vm_compute; reflexivity. Qed.

(** ** Canonical output *)

Lemma rgbToHex_pairs (vr vg vb : number) :
  hex_pair vr -> hex_pair vg -> hex_pair vb ->
  canonical_hex (rgbToHex (mkRGB vr vg vb)) = true.
Proof.
  intros (r1 & r2 & Er & Hr1 & Hr2) (g1 & g2 & Eg & Hg1 & Hg2)
         (b1 & b2 & Eb & Hb1 & Hb2).
  unfold rgbToHex. rewrite Er, Eg, Eb. cbn [str app canonical_hex length forallb].
  rewrite Hr1, Hr2, Hg1, Hg2, Hb1, Hb2. reflexivity.
Qed.

Lemma byte_hex_pair (z : Z) : byte z -> hex_pair (Z2F z).
Proof. intros Hz. destruct (toHex_byte z Hz) as (a & b & E & Ha & Hb & _). exists a, b. auto. Qed.

Lemma rgbToHex_canonical (r g b : Z) :
  byte r -> byte g -> byte b -> canonical_hex (rgbToHex (rgb_of r g b)) = true.
Proof. intros. apply rgbToHex_pairs; now apply byte_hex_pair. Qed.

Lemma hslToHex_canonical (h s l : Z) :
  0 <= h <= 360 -> 0 <= s <= 100 -> 0 <= l <= 100 ->
  canonical_hex (hslToHex (hsl_of h s l)) = true.
Proof.
  intros Hh Hs Hl. destruct (hslToRgb_channels h s l Hh Hs Hl) as (Hc & Hx & H0).
  unfold hslToHex, hsl_of. rewrite hslToRgb_sector.
  destruct (hue_sector (Z2F h)) as [|[|[|[|[|k]]]]]; cbn [rgb_in_sector];
    now apply rgbToHex_pairs.
Qed.

Lemma forallb_lower_hex (ds : jstring) :
  forallb is_hex_digit ds = true -> forallb is_lower_hex (toLowerCase ds) = true.
Proof.
  unfold toLowerCase. induction ds as [|c ds IH]; cbn [map forallb]; [reflexivity|].
  intros H. apply andb_true_iff in H as [Hc Hds]. now rewrite hex_lower, IH.
Qed.

Lemma parseColor_hex_canonical (ds : jstring) :
  hex_digits ds ->
  canonical_hex
    (str "#" ++ toLowerCase
       (if (length ds =? 3)%nat
        then at_index 0 ds ++ at_index 0 ds ++ at_index 1 ds ++ at_index 1 ds
               ++ at_index 2 ds ++ at_index 2 ds
        else ds)) = true.
Proof.
  intros [Hd [H3 | H6]].
  - destruct ds as [|a [|b [|c [|e ds]]]]; try discriminate H3.
    cbn [length Nat.eqb at_index skipn firstn app str canonical_hex].
    cbn [forallb] in Hd. repeat (apply andb_true_iff in Hd as [? Hd]).
    rewrite (forallb_lower_hex [a; a; b; b; c; c]).
    + reflexivity.
    + cbn [forallb]. repeat (apply andb_true_iff; split); auto.
  - rewrite H6. cbn [Nat.eqb str app canonical_hex].
    rewrite (forallb_lower_hex ds Hd).
    unfold toLowerCase. now rewrite length_map, H6.
Qed.

(** C9. Every hex string the core produces is canonical: a successful
    [parseColor] returns [#] and six lowercase hexadecimal digits, and
    [rgbToHex] of integer channels in [0,255] is [#] followed by the two
    digits of each channel, zero-padded. *)
Theorem canonical_output :
  (forall input hex, parseColor input = Return hex -> canonical_hex hex = true)
  /\ (forall r g b, byte r -> byte g -> byte b ->
        canonical_hex (rgbToHex (rgb_of r g b)) = true
        /\ exists r1 r2 g1 g2 b1 b2,
             rgbToHex (rgb_of r g b) = [chr "#"; r1; r2; g1; g2; b1; b2]
             /\ padStart0 2 (Number_toString 16 (Z2F r)) = [r1; r2]
             /\ padStart0 2 (Number_toString 16 (Z2F g)) = [g1; g2]
             /\ padStart0 2 (Number_toString 16 (Z2F b)) = [b1; b2]).
Proof.
  split.
  - intros input hex H. pose proof H as H0. unfold parseColor in H.
    destruct (exec hexRe (trim input)) as [caps|] eqn:E1.
    + apply hexRe_sound in E1 as (ds & Ht & ->). inversion Ht; subst.
      injection H as <-. cbn [capture pred nth]. now apply parseColor_hex_canonical.
    + clear H. destruct (exec rgbRe (trim input)) as [caps|] eqn:E2.
      * apply rgbRe_sound in E2 as (d1 & d2 & d3 & Ht & _).
        rewrite (parseColor_rgb _ _ _ _ Ht) in H0. injection H0 as <-.
        inversion Ht; subst.
        pose proof (channel_value d1 ltac:(assumption)).
        pose proof (channel_value d2 ltac:(assumption)).
        pose proof (channel_value d3 ltac:(assumption)).
        apply rgbToHex_canonical; unfold byte; lia.
      * destruct (exec hslRe (trim input)) as [caps|] eqn:E3.
        -- apply hslRe_sound in E3 as (d1 & d2 & d3 & Ht & _).
           rewrite (parseColor_hsl _ _ _ _ Ht) in H0. injection H0 as <-.
           inversion Ht; subst.
           pose proof (channel_value d1 ltac:(assumption)).
           pose proof (channel_value d2 ltac:(assumption)).
           pose proof (channel_value d3 ltac:(assumption)).
           apply hslToHex_canonical; lia.
        -- unfold parseColor in H0. rewrite E1, E2, E3 in H0. discriminate.
  - intros r g b Hr Hg Hb. split; [now apply rgbToHex_canonical|].
    destruct (toHex_byte r Hr) as (r1 & r2 & Er & _).
    destruct (toHex_byte g Hg) as (g1 & g2 & Eg & _).
    destruct (toHex_byte b Hb) as (b1 & b2 & Eb & _).
    exists r1, r2, g1, g2, b1, b2. unfold rgbToHex, rgb_of.
    unfold toHex in Er, Eg, Eb |- *. now rewrite Er, Eg, Eb.
Qed.

(** ** WCAG contrast *)

Lemma F2R_exact_all : forallb F2R_exact (upto 256) = true.
Proof. vm_compute. reflexivity. Qed.

Lemma IZR_pow2 (k : positive) : IZR (2 ^ Zpos k) = (2 ^ Pos.to_nat k)%R.
Proof. rewrite <- (positive_nat_Z k) at 1. now rewrite <- pow_IZR. Qed.

Lemma F2R_byte (z : Z) : byte z -> F2R (Z2F z) = IZR z.
Proof.
  intros Hz. pose proof (forallb_bytes _ F2R_exact_all z Hz) as H.
  unfold F2R_exact in H. unfold F2R.
  destruct (Prim2SF (Z2F z)) as [sg | sg | | sg m e]; try discriminate.
  - apply Z.eqb_eq in H. now subst.
  - destruct sg; [discriminate|].
    destruct e as [|k|k]; apply Z.eqb_eq in H; cbn [powerRZ].
    + rewrite <- H, Z.pow_0_r, Z.mul_1_r. lra.
    + rewrite <- H, mult_IZR, IZR_pow2. lra.
    + rewrite H, mult_IZR, IZR_pow2. field. apply pow_nonzero. lra.
Qed.

Lemma contrastRatio_sym (a b : RGBColor) : contrastRatio a b = contrastRatio b a.
Proof. unfold contrastRatio. now rewrite Rmax_comm, Rmin_comm. Qed.

Lemma Math_pow_unit (x y : R) : (0 < x <= 1)%R -> (0 < y)%R -> (0 < Math_pow x y <= 1)%R.
Proof.
  intros [Hx0 Hx1] Hy. unfold Math_pow, Rpower. split; [apply exp_pos|].
  rewrite <- exp_0. destruct (Req_dec x 1) as [-> | Hne].
  - rewrite ln_1, Rmult_0_r. lra.
  - left. apply exp_increasing.
    assert (ln x < 0)%R by (rewrite <- ln_1; apply ln_increasing; lra).
    nra.
Qed.

Lemma linearize_unit (c : R) : (0 <= c <= 255)%R -> (0 <= linearize c <= 1)%R.
Proof.
  intros Hc. unfold linearize. cbv zeta.
  destruct (Rle_dec (c / 255) 0.03928) as [Hle | Hgt].
  - split; lra.
  - assert (0 < (c / 255 + 0.055) / 1.055 <= 1)%R by (split; lra).
    pose proof (Math_pow_unit _ 2.4 H ltac:(lra)). lra.
Qed.

Lemma relativeLuminance_unit (r g b : Z) :
  byte r -> byte g -> byte b -> (0 <= relativeLuminance (rgb_of r g b) <= 1)%R.
Proof.
  intros Hr Hg Hb. unfold relativeLuminance, rgb_of.
  rewrite !F2R_byte by assumption.
  assert (Hc : forall z, byte z -> (0 <= IZR z <= 255)%R).
  { intros z [H0 H255]. split; apply IZR_le; assumption. }
  pose proof (linearize_unit _ (Hc r Hr)).
  pose proof (linearize_unit _ (Hc g Hg)).
  pose proof (linearize_unit _ (Hc b Hb)). lra.
Qed.

Lemma ratio_bounds (hi lo : R) :
  (0 <= lo <= hi)%R -> (hi <= 1)%R ->
  (1 <= (hi + 0.05) / (lo + 0.05) <= 21)%R.
Proof.
  intros [H0 Hle] H1.
  assert (E : ((hi + 0.05) / (lo + 0.05) * (lo + 0.05) = hi + 0.05)%R)
    by (field; lra).
  split; nra.
Qed.

(** C6. The contrast ratio does not depend on the order of the two colours
    and lies in [1, 21]. *)
Theorem contrastRatio_range (r1 g1 b1 r2 g2 b2 : Z) :
  byte r1 -> byte g1 -> byte b1 -> byte r2 -> byte g2 -> byte b2 ->
  contrastRatio (rgb_of r1 g1 b1) (rgb_of r2 g2 b2)
  = contrastRatio (rgb_of r2 g2 b2) (rgb_of r1 g1 b1)
  /\ (1 <= contrastRatio (rgb_of r1 g1 b1) (rgb_of r2 g2 b2) <= 21)%R.
Proof.
  intros Hr1 Hg1 Hb1 Hr2 Hg2 Hb2. split; [apply contrastRatio_sym|].
  unfold contrastRatio. cbv zeta.
  pose proof (relativeLuminance_unit r1 g1 b1 Hr1 Hg1 Hb1) as Ha.
  pose proof (relativeLuminance_unit r2 g2 b2 Hr2 Hg2 Hb2) as Hb.
  apply ratio_bounds.
  - split; [apply Rmin_glb; lra | apply Rle_trans with (relativeLuminance (rgb_of r1 g1 b1));
      [apply Rmin_l | apply Rmax_l]].
  - apply Rmax_lub; lra.
Qed.

Lemma contrastRatio_range_witness :
  byte 108 /\ byte 92 /\ byte 231 /\ byte 255 /\ byte 255 /\ byte 255
  /\ contrastRatio (rgb_of 108 92 231) (rgb_of 255 255 255)
     = contrastRatio (rgb_of 255 255 255) (rgb_of 108 92 231)
  /\ (1 <= contrastRatio (rgb_of 108 92 231) (rgb_of 255 255 255) <= 21)%R.
Proof.
  assert (B : forall z, 0 <= z <= 255 -> byte z) by (intros z Hz; exact Hz).
  repeat (split; [apply B; lia|]).
  apply contrastRatio_range; apply B; lia.
Defined.

(** ** Searching open intervals *)

Lemma avoids_sound (all : list (Z * Z)) (t : search) :
  forall lo hi u,
  covers all t lo hi = true -> lo <= u < hi -> avoids u t = true ->
  forall i, In i all -> u <= fst i \/ snd i <= u.
Proof.
  induction t as [l | p below IHb above IHa]; intros lo hi u Hc Hu Ha i Hi;
    cbn [covers avoids] in Hc, Ha.
  - rewrite forallb_forall in Hc. specialize (Hc i Hi).
    apply orb_true_iff in Hc as [Hc | Hc].
    + apply orb_true_iff in Hc as [Hc | Hc]; apply Z.leb_le in Hc; lia.
    + apply existsb_exists in Hc as (j & Hj & E).
      apply andb_true_iff in E as [E1 E2]. apply Z.eqb_eq in E1, E2.
      rewrite forallb_forall in Ha. specialize (Ha j Hj).
      apply orb_true_iff in Ha as [Ha | Ha]; apply Z.leb_le in Ha; lia.
  - apply andb_true_iff in Hc as [Hc1 Hc2]. destruct (u <? p) eqn:E.
    + apply Z.ltb_lt in E. apply (IHb lo p u); [exact Hc1 | lia | exact Ha | exact Hi].
    + apply Z.ltb_ge in E. apply (IHa p hi u); [exact Hc2 | lia | exact Ha | exact Hi].
Qed.

Lemma no_tie_check_spec (all : list (Z * Z)) (t : search) (rs gs : list Z) :
  no_tie_check all t rs gs = true ->
  forall x y i, In x rs -> In y gs -> 0 <= x + y < full -> In i all ->
  x + y <= fst i \/ snd i <= x + y.
Proof.
  unfold no_tie_check. intros H x y i Hx Hy Hxy Hi.
  apply andb_true_iff in H as [Hc Hall].
  rewrite forallb_forall in Hall. specialize (Hall x Hx).
  rewrite forallb_forall in Hall. specialize (Hall y Hy).
  exact (avoids_sound all t 0 full (x + y) Hc Hxy Hall i Hi).
Qed.

(** ** Enclosures of the luminance *)

Lemma lin_table_check_spec (den num : Z) :
  lin_table_check den num = true ->
  forall c, byte c ->
    0 <= lin_lo c <= scale
    /\ lin_below den num c (lin_lo c) = true
    /\ lin_above den num c (lin_lo c + 1) = true.
Proof.
  unfold lin_table_check. intros H c Hc.
  pose proof (forallb_bytes _ H c Hc) as E. unfold lin_enclosed in E.
  apply andb_true_iff in E as [E E4]. apply andb_true_iff in E as [E E3].
  apply andb_true_iff in E as [E1 E2]. apply Z.leb_le in E1, E2. auto.
Qed.

Lemma lin_table_checked : lin_table_check (10761 ^ 12) (scale ^ 5) = true.
Proof. vm_compute. reflexivity. Qed.

Lemma thresholds_checked : thresholds_check = true.
Proof. vm_compute. reflexivity. Qed.

Lemma no_tie_checked : no_tie_check undecided (grow 8 undecided) reds greens = true.
Proof. vm_compute. reflexivity. Qed.

Lemma scale_pos : (0 < IZR scale)%R.
Proof. apply IZR_lt. reflexivity. Qed.

(** The weight of a colour is on one side of the thresholds. *)
Lemma weight_decided (r g b : Z) :
  byte r -> byte g -> byte b -> weight r g b <= dark \/ light <= weight r g b.
Proof.
  intros Hr Hg Hb.
  destruct (lin_table_check_spec _ _ lin_table_checked r Hr) as (Br & _).
  destruct (lin_table_check_spec _ _ lin_table_checked g Hg) as (Bg & _).
  assert (Ir : In (2126 * lin_lo r) reds).
  { apply in_map_iff. exists r. split; [reflexivity|].
    apply upto_complete. unfold byte in Hr. lia. }
  assert (Ig : In (7152 * lin_lo g) greens).
  { apply in_map_iff. exists g. split; [reflexivity|].
    apply upto_complete. unfold byte in Hg. lia. }
  assert (Ib : In (dark - 722 * lin_lo b, light - 722 * lin_lo b) undecided).
  { unfold undecided. apply -> in_rev. apply in_map_iff. exists b. split; [reflexivity|].
    apply upto_complete. unfold byte in Hb. lia. }
  assert (Hs : 0 <= 2126 * lin_lo r + 7152 * lin_lo g < full).
  { assert (0 < scale) by reflexivity. unfold full. lia. }
  destruct (no_tie_check_spec _ _ _ _ no_tie_checked _ _ _ Ir Ig Hs Ib) as [H | H];
    cbn [fst snd] in H; unfold weight; lia.
Qed.

(** ** The luminance in real numbers *)

Lemma pow_lt_mono (x y : R) (n : nat) :
  (0 <= x < y)%R -> (x ^ S n < y ^ S n)%R.
Proof.
  intros [H0 Hlt]. induction n as [|n IH]; [simpl; lra|].
  change (x ^ S (S n))%R with (x * x ^ S n)%R.
  change (y ^ S (S n))%R with (y * y ^ S n)%R.
  assert (0 <= x ^ S n)%R by (apply pow_le; exact H0).
  nra.
Qed.

Lemma pow_le_inv (x y : R) (n : nat) :
  (0 <= x)%R -> (0 <= y)%R -> (x ^ S n <= y ^ S n)%R -> (x <= y)%R.
Proof.
  intros Hx Hy H. destruct (Rle_lt_dec x y) as [Hle | Hgt]; [exact Hle|].
  pose proof (pow_lt_mono y x n (conj Hy Hgt)). lra.
Qed.

(** [Math.pow(q, 2.4)] is the fifth root of [q^12]. *)
Lemma Math_pow_12_5 (q : R) : (0 < q)%R -> (Math_pow q 2.4 ^ 5 = q ^ 12)%R.
Proof.
  intros Hq. unfold Math_pow.
  rewrite <- (Rpower_pow 5) by (unfold Rpower; apply exp_pos).
  rewrite Rpower_mult.
  replace (2.4 * INR 5)%R with (INR 12) by (simpl; lra).
  apply Rpower_pow. exact Hq.
Qed.

Lemma linearize_low (c : Z) :
  0 <= c <= 10 -> linearize (IZR c) = (IZR c * 10 / 32946)%R.
Proof.
  intros [H0 H10]. apply IZR_le in H0, H10. unfold linearize. cbv zeta.
  destruct (Rle_dec (IZR c / 255) 0.03928) as [_ | Hn]; lra.
Qed.

Lemma linearize_high (c : Z) :
  11 <= c <= 255 ->
  linearize (IZR c) = Math_pow (IZR (40 * c + 561) / 10761) 2.4.
Proof.
  intros [H11 H255]. apply IZR_le in H11, H255. unfold linearize. cbv zeta.
  destruct (Rle_dec (IZR c / 255) 0.03928) as [Hle | _]; [lra|].
  f_equal. rewrite plus_IZR, mult_IZR. lra.
Qed.

Lemma IZR_pow (z : Z) (n : nat) : IZR (z ^ Z.of_nat n) = (IZR z ^ n)%R.
Proof. symmetry. apply pow_IZR. Qed.

(** What the integer comparisons of the power piece say in real numbers. *)
Lemma power_below (lo n : Z) (y : R) :
  0 <= lo -> 0 < n -> (0 < y)%R ->
  (y ^ 5 = (IZR n / 10761) ^ 12)%R ->
  lo ^ 5 * 10761 ^ 12 <= n ^ 12 * scale ^ 5 ->
  (IZR lo / IZR scale <= y)%R.
Proof.
  intros Hlo Hn Hy Ey H. pose proof scale_pos as Hs.
  apply IZR_le in H, Hlo.
  rewrite !mult_IZR in H.
  change 5 with (Z.of_nat 5) in H. change 12 with (Z.of_nat 12) in H.
  rewrite !IZR_pow in H.
  apply (pow_le_inv _ _ 4); [apply Rle_mult_inv_pos; assumption | lra |].
  rewrite Ey.
  assert (Hd : (0 < IZR scale ^ 5 * IZR 10761 ^ 12)%R).
  { apply Rmult_lt_0_compat; apply pow_lt; [exact Hs | lra]. }
  apply (Rmult_le_reg_r _ _ _ Hd).
  replace ((IZR lo / IZR scale) ^ 5 * (IZR scale ^ 5 * IZR 10761 ^ 12))%R
    with (IZR lo ^ 5 * IZR 10761 ^ 12)%R by (field; lra).
  replace ((IZR n / 10761) ^ 12 * (IZR scale ^ 5 * IZR 10761 ^ 12))%R
    with (IZR n ^ 12 * IZR scale ^ 5)%R by (field; lra).
  exact H.
Qed.

Lemma power_above (hi n : Z) (y : R) :
  0 <= hi -> 0 < n -> (0 < y)%R ->
  (y ^ 5 = (IZR n / 10761) ^ 12)%R ->
  n ^ 12 * scale ^ 5 <= hi ^ 5 * 10761 ^ 12 ->
  (y <= IZR hi / IZR scale)%R.
Proof.
  intros Hhi Hn Hy Ey H. pose proof scale_pos as Hs.
  apply IZR_le in H, Hhi.
  rewrite !mult_IZR in H.
  change 5 with (Z.of_nat 5) in H. change 12 with (Z.of_nat 12) in H.
  rewrite !IZR_pow in H.
  apply (pow_le_inv _ _ 4); [lra | apply Rle_mult_inv_pos; assumption |].
  rewrite Ey.
  assert (Hd : (0 < IZR scale ^ 5 * IZR 10761 ^ 12)%R).
  { apply Rmult_lt_0_compat; apply pow_lt; [exact Hs | lra]. }
  apply (Rmult_le_reg_r _ _ _ Hd).
  replace ((IZR hi / IZR scale) ^ 5 * (IZR scale ^ 5 * IZR 10761 ^ 12))%R
    with (IZR hi ^ 5 * IZR 10761 ^ 12)%R by (field; lra).
  replace ((IZR n / 10761) ^ 12 * (IZR scale ^ 5 * IZR 10761 ^ 12))%R
    with (IZR n ^ 12 * IZR scale ^ 5)%R by (field; lra).
  exact H.
Qed.

(** A linearised channel lies between two consecutive multiples of
    [1 / scale]. *)
Lemma lin_lo_encloses (c : Z) :
  byte c ->
  (IZR (lin_lo c) / IZR scale <= linearize (IZR c)
   <= IZR (lin_lo c + 1) / IZR scale)%R.
Proof.
  intros Hc. pose proof scale_pos as Hs.
  destruct (lin_table_check_spec _ _ lin_table_checked c Hc) as (Hlo & Hb & Ha).
  revert Hb Ha. unfold lin_below, lin_above. unfold byte in Hc.
  destruct (c <=? 10) eqn:E.
  - apply Z.leb_le in E. rewrite linearize_low by lia. clear Hlo Hc E.
    intros Hb Ha. apply Z.leb_le in Hb, Ha. apply IZR_le in Hb, Ha.
    rewrite !mult_IZR in Hb, Ha.
    split.
    + apply (Rmult_le_reg_r _ _ _ Hs).
      replace (IZR (lin_lo c) / IZR scale * IZR scale)%R with (IZR (lin_lo c))
        by (field; lra).
      lra.
    + apply (Rmult_le_reg_r _ _ _ Hs).
      replace (IZR (lin_lo c + 1) / IZR scale * IZR scale)%R
        with (IZR (lin_lo c + 1)) by (field; lra).
      lra.
  - apply Z.leb_gt in E. rewrite linearize_high by lia.
    assert (Hn : 0 < 40 * c + 561) by lia.
    assert (Hlo0 : 0 <= lin_lo c) by lia.
    assert (Hlo1 : 0 <= lin_lo c + 1) by lia.
    assert (Hq : (0 < IZR (40 * c + 561) / 10761)%R).
    { apply Rdiv_lt_0_compat; [apply IZR_lt; exact Hn | lra]. }
    pose proof (Math_pow_12_5 _ Hq) as Ey.
    assert (Hy : (0 < Math_pow (IZR (40 * c + 561) / 10761) 2.4)%R)
      by (unfold Math_pow, Rpower; apply exp_pos).
    intros Hb Ha. apply Z.leb_le in Hb, Ha.
    split.
    + exact (power_below _ _ _ Hlo0 Hn Hy Ey Hb).
    + exact (power_above _ _ _ Hlo1 Hn Hy Ey Ha).
Qed.

(** The luminance of a colour, between its weight and the next one. *)
Lemma relativeLuminance_weight (r g b : Z) :
  byte r -> byte g -> byte b ->
  (IZR (weight r g b) <= relativeLuminance (rgb_of r g b) * IZR full
   <= IZR (weight r g b + 10000))%R.
Proof.
  intros Hr Hg Hb. pose proof scale_pos as Hs.
  unfold relativeLuminance, rgb_of. rewrite !F2R_byte by assumption.
  pose proof (lin_lo_encloses r Hr) as [R1 R2].
  pose proof (lin_lo_encloses g Hg) as [G1 G2].
  pose proof (lin_lo_encloses b Hb) as [B1 B2].
  assert (D : forall z x : R, (z / IZR scale <= x -> z <= x * IZR scale)%R).
  { intros z x H. apply (Rmult_le_compat_r (IZR scale)) in H; [|lra].
    replace (z / IZR scale * IZR scale)%R with z in H by (field; lra). exact H. }
  assert (U : forall z x : R, (x <= z / IZR scale -> x * IZR scale <= z)%R).
  { intros z x H. apply (Rmult_le_compat_r (IZR scale)) in H; [|lra].
    replace (z / IZR scale * IZR scale)%R with z in H by (field; lra). exact H. }
  apply D in R1, G1, B1. apply U in R2, G2, B2.
  rewrite plus_IZR in R2, G2, B2.
  unfold weight, full. rewrite !plus_IZR, !mult_IZR. lra.
Qed.

Lemma thresholds (L : R) (w : Z) :
  (0 <= L)%R ->
  (IZR w <= L * IZR full <= IZR (w + 10000))%R ->
  (w <= dark -> ((20 * L + 1) ^ 2 < 21)%R)
  /\ (light <= w -> (21 < (20 * L + 1) ^ 2)%R).
Proof.
  intros HL [Hlo Hhi].
  assert (HF : (0 < IZR full)%R) by (apply IZR_lt; reflexivity).
  pose proof thresholds_checked as T. unfold thresholds_check in T.
  apply andb_true_iff in T as [T1 T2].
  apply Z.ltb_lt in T1, T2. apply IZR_lt in T1, T2.
  rewrite !mult_IZR in T1, T2.
  change 2 with (Z.of_nat 2) in T1, T2. rewrite !IZR_pow in T1, T2.
  rewrite !plus_IZR, !mult_IZR in T1, T2. rewrite plus_IZR in T1, Hhi.
  set (F := IZR full) in *. set (x := ((20 * L + 1) * F)%R).
  assert (E : (x ^ 2 = (20 * L + 1) ^ 2 * F ^ 2)%R) by (unfold x; ring).
  assert (HF2 : (0 < F ^ 2)%R) by (apply pow_lt; exact HF).
  split; intros Hw; apply IZR_le in Hw.
  - apply (Rmult_lt_reg_r (F ^ 2)); [exact HF2|]. rewrite <- E.
    apply Rle_lt_trans with ((20 * (IZR dark + 10000) + F) ^ 2)%R; [|exact T1].
    apply pow_incr. unfold x. split; nra.
  - apply (Rmult_lt_reg_r (F ^ 2)); [exact HF2|]. rewrite <- E.
    apply Rlt_le_trans with ((20 * IZR light + F) ^ 2)%R; [exact T2|].
    apply pow_incr. unfold x. split; [|nra].
    assert (0 <= IZR light)%R by (apply IZR_le; discriminate). nra.
Qed.

Lemma relativeLuminance_white : relativeLuminance white = 1%R.
Proof.
  unfold relativeLuminance, white.
  pose proof (F2R_byte 255 ltac:(unfold byte; lia)) as E.
  change (Z2F 255) with 255%float in E. rewrite E.
  unfold linearize. cbv zeta.
  destruct (Rle_dec (255 / 255) 0.03928) as [Hle | _]; [lra|].
  replace ((255 / 255 + 0.055) / 1.055)%R with 1%R by lra.
  unfold Math_pow, Rpower. rewrite ln_1, Rmult_0_r, exp_0. lra.
Qed.

Lemma relativeLuminance_black : relativeLuminance black = 0%R.
Proof.
  unfold relativeLuminance, black.
  pose proof (F2R_byte 0 ltac:(unfold byte; lia)) as E.
  change (Z2F 0) with 0%float in E. rewrite E.
  unfold linearize. cbv zeta.
  destruct (Rle_dec (0 / 255) 0.03928) as [_ | Hn]; lra.
Qed.

(** Against white and black the comparison is that of [(20 L + 1)^2]
    with 21. *)
Lemma contrast_white_black (c : RGBColor) :
  (0 <= relativeLuminance c <= 1)%R ->
  ((20 * relativeLuminance c + 1) ^ 2 < 21 ->
   contrastRatio c black < contrastRatio c white)%R
  /\ (21 < (20 * relativeLuminance c + 1) ^ 2 ->
      contrastRatio c white < contrastRatio c black)%R.
Proof.
  intros [H0 H1]. unfold contrastRatio. cbv zeta.
  rewrite relativeLuminance_white, relativeLuminance_black.
  rewrite (Rmax_right _ 1 H1), (Rmin_left _ 1 H1),
          (Rmax_left _ 0 H0), (Rmin_right _ 0 H0).
  set (L := relativeLuminance c) in *.
  assert (Ew : ((1 + 0.05) / (L + 0.05) * (L + 0.05) = 1 + 0.05)%R) by (field; lra).
  assert (Eb : ((L + 0.05) / (0 + 0.05) * 0.05 = L + 0.05)%R) by (field; lra).
  split; intros H; nra.
Qed.

(** No colour contrasts equally with white and with black. *)
Lemma contrast_never_ties (r g b : Z) :
  byte r -> byte g -> byte b ->
  contrastRatio (rgb_of r g b) white <> contrastRatio (rgb_of r g b) black.
Proof.
  intros Hr Hg Hb.
  pose proof (relativeLuminance_unit r g b Hr Hg Hb) as HL.
  pose proof (relativeLuminance_weight r g b Hr Hg Hb) as HW.
  destruct (thresholds _ _ (proj1 HL) HW) as [Tw Tb].
  destruct (contrast_white_black _ HL) as [Cw Cb].
  destruct (weight_decided r g b Hr Hg Hb) as [H | H].
  - specialize (Cw (Tw H)). lra.
  - specialize (Cb (Tb H)). lra.
Qed.

(** C1. For a colour with integer channels in [0,255],
    [textColorForBackground] of its hex is [#ffffff] when white contrasts
    more with the colour and [#000000] when black does.  The two ratios are
    never equal on such a colour, so the clause on ties holds with no case
    to decide: the comparison of the code is strict and would answer
    [#000000] on a tie. *)
Theorem textColorForBackground_contrast (r g b : Z) :
  byte r -> byte g -> byte b ->
  let rgb := rgb_of r g b in
  let out := textColorForBackground (rgbToHex rgb) in
  (out = str "#ffffff" \/ out = str "#000000")
  /\ ((contrastRatio rgb white > contrastRatio rgb black)%R -> out = str "#ffffff")
  /\ ((contrastRatio rgb black > contrastRatio rgb white)%R -> out = str "#000000")
  /\ (contrastRatio rgb white = contrastRatio rgb black -> out = str "#ffffff")
  /\ contrastRatio rgb white <> contrastRatio rgb black.
Proof.
  intros Hr Hg Hb rgb out.
  pose proof (contrast_never_ties r g b Hr Hg Hb) as Hne. fold rgb in Hne.
  assert (E : out = if Rgt_dec (contrastRatio rgb white) (contrastRatio rgb black)
                    then str "#ffffff" else str "#000000").
  { unfold out, textColorForBackground. cbv zeta.
    unfold rgb. rewrite (hexToRgb_rgbToHex r g b Hr Hg Hb). reflexivity. }
  rewrite E. destruct (Rgt_dec _ _) as [Hgt | Hle].
  - split; [left; reflexivity|]. split; [reflexivity|].
    split; [intros H; exfalso; lra|]. split; [reflexivity | exact Hne].
  - split; [right; reflexivity|]. split; [intros H; contradiction|].
    split; [reflexivity|]. split; [intros H; contradiction | exact Hne].
Qed.

Lemma textColorForBackground_contrast_witness :
  (byte 108 /\ byte 92 /\ byte 231)
  /\ let rgb := rgb_of 108 92 231 in
     let out := textColorForBackground (rgbToHex rgb) in
     (out = str "#ffffff" \/ out = str "#000000")
     /\ ((contrastRatio rgb white > contrastRatio rgb black)%R -> out = str "#ffffff")
     /\ ((contrastRatio rgb black > contrastRatio rgb white)%R -> out = str "#000000")
     /\ (contrastRatio rgb white = contrastRatio rgb black -> out = str "#ffffff")
     /\ contrastRatio rgb white <> contrastRatio rgb black.
Proof.
  split; [unfold byte; lia|].
  apply (textColorForBackground_contrast 108 92 231); unfold byte; lia.
Defined.

(** * Further properties of the conversions *)

Lemma is_channel_number (v : number) :
  is_channel byte_table v = true -> channel_number v.
Proof.
  unfold is_channel, byte_table. destruct (lookup_number v _) as [z|] eqn:E.
  - intros _. apply lookup_number_build in E as (z' & Hz & -> & _).
    left. exists z'. split; [unfold byte; cbn in Hz; lia | reflexivity].
  - intros H. apply FloatAxioms.Leibniz.eqb_spec in H. right. exact H.
Qed.

(** X1. For an integer hue in [0,360] and integer saturation and lightness
    in [0,100], every channel of [hslToRgb] is the number of an integer in
    [0,255], or negative zero (which prints as [00]). *)
Theorem hslToRgb_range (h s l : Z) :
  0 <= h <= 360 -> 0 <= s <= 100 -> 0 <= l <= 100 ->
  channel_number (r (hslToRgb (hsl_of h s l)))
  /\ channel_number (g (hslToRgb (hsl_of h s l)))
  /\ channel_number (b (hslToRgb (hsl_of h s l))).
Proof.
  intros Hh Hs Hl.
  destruct (hsl_channels_check_spec _ _ hsl_channels_checked s l
              (hue_factor (Z2F h)) Hs Hl
              (hue_factors_check_spec _ hue_factors_checked h Hh))
    as (Hc & Hx & H0).
  apply is_channel_number in Hc, Hx, H0.
  unfold hsl_of. rewrite hslToRgb_sector.
  destruct (hue_sector (Z2F h)) as [|[|[|[|[|k]]]]]; cbn [rgb_in_sector r g b];
    repeat split; assumption.
Qed.

Lemma hslToRgb_range_witness :
  (0 <= 0 <= 360 /\ 0 <= 100 <= 100 /\ 0 <= 1 <= 100)
  /\ channel_number (r (hslToRgb (hsl_of 0 100 1)))
  /\ channel_number (g (hslToRgb (hsl_of 0 100 1)))
  /\ channel_number (b (hslToRgb (hsl_of 0 100 1))).
Proof. split; [lia|]. apply (hslToRgb_range 0 100 1); lia. Defined.

(** Negative zero does appear. *)
Lemma hslToRgb_negative_zero :
  hslToRgb (hsl_of 0 100 1) = mkRGB 5 neg_zero neg_zero.
Proof. reflexivity. Qed.

(** X2. [hslToHex] of an integer hue in [0,360] and integer saturation and
    lightness in [0,100] is a canonical hex string. *)
Theorem hslToHex_is_canonical (h s l : Z) :
  0 <= h <= 360 -> 0 <= s <= 100 -> 0 <= l <= 100 ->
  canonical_hex (hslToHex (hsl_of h s l)) = true.
Proof. exact (hslToHex_canonical h s l). Qed.

Lemma hslToHex_is_canonical_witness :
  (0 <= 249 <= 360 /\ 0 <= 75 <= 100 /\ 0 <= 63 <= 100)
  /\ canonical_hex (hslToHex (hsl_of 249 75 63)) = true.
Proof. split; [lia|]. apply (hslToHex_is_canonical 249 75 63); lia. Defined.

Lemma percent_check_spec (percents : table Z) :
  (forall v z, lookup_number v percents = Some z -> 0 <= z /\ v = Z2F z) ->
  percent_check percents = true ->
  forall M m, byte M -> byte m -> m <= M ->
    (exists l, 0 <= l <= 100 /\ lightness (unit_of M) (unit_of m) = Z2F l)
    /\ (m < M ->
        exists s, 0 <= s <= 100 /\ saturation (unit_of M) (unit_of m) = Z2F s).
Proof.
  intros Ht H M m HM Hm Hle. unfold percent_check in H.
  pose proof (forallb_bytes _ H M HM) as H1. cbv beta in H1.
  pose proof (forallb_bytes _ H1 m Hm) as H2. cbv beta in H2.
  apply orb_true_iff in H2 as [H2 | H2]; [apply Z.ltb_lt in H2; lia|].
  apply andb_true_iff in H2 as [Hl Hs]. unfold is_percent in Hs, Hl.
  destruct (lookup_number (lightness _ _) percents) as [l|] eqn:El; [|discriminate].
  apply Ht in El as [Hl0 El]. apply Z.leb_le in Hl.
  split; [exists l; split; [lia | exact El]|].
  intros Hlt. apply orb_true_iff in Hs as [Hs | Hs]; [apply Z.eqb_eq in Hs; lia|].
  destruct (lookup_number (saturation _ _) percents) as [s|] eqn:Es; [|discriminate].
  apply Ht in Es as [Hs0 Es]. apply Z.leb_le in Hs.
  exists s. split; [lia | exact Es].
Qed.

Lemma percent_table_spec (v : number) (z : Z) :
  lookup_number v percent_table = Some z -> 0 <= z /\ v = Z2F z.
Proof.
  intros E. apply lookup_number_build in E as (z' & Hz & Hv & ->).
  split; [lia | exact Hv].
Qed.

Lemma percent_checked : percent_check percent_table = true.
Proof. vm_compute. reflexivity. Qed.

Lemma rgbToHsl_integers_aux (r g b : Z) :
  byte r -> byte g -> byte b ->
  exists h s l,
    0 <= h <= 360 /\ 0 <= s <= 100 /\ 0 <= l <= 100
    /\ rgbToHsl (rgb_of r g b) = hsl_of h s l.
Proof.
  intros Hr Hg Hb.
  destruct (rgbToHsl_roundtrip r g b Hr Hg Hb) as [(hz & Hh & Eh) _].
  revert Eh. rewrite (rgbToHsl_bytes r g b Hr Hg Hb). cbv zeta.
  assert (HM : byte (Z.max (Z.max r g) b)) by (unfold byte in *; lia).
  assert (Hm : byte (Z.min (Z.min r g) b)) by (unfold byte in *; lia).
  destruct (percent_check_spec _ percent_table_spec percent_checked _ _ HM Hm
              ltac:(lia)) as [(lz & Hl & El) Hsat].
  destruct (_ =? _) eqn:E.
  - intros _. exists 0, 0, lz. rewrite El. repeat split; lia.
  - apply Z.eqb_neq in E. destruct (Hsat ltac:(lia)) as (sz & Hs & Es).
    cbn [h]. intros Eh. exists hz, sz, lz. rewrite Eh, Es, El. repeat split; lia.
Qed.

(** X3. For integer channels in [0,255], [rgbToHsl] returns an integer hue
    in [0,360] and integer saturation and lightness in [0,100]: a colour
    [hslToRgb], [formatHsl] and the [hsl()] grammar of [parseColor] take as
    it is. *)
Theorem rgbToHsl_integers (r g b : Z) :
  byte r -> byte g -> byte b ->
  exists h s l,
    0 <= h <= 360 /\ 0 <= s <= 100 /\ 0 <= l <= 100
    /\ rgbToHsl (rgb_of r g b) = hsl_of h s l.
Proof. exact (rgbToHsl_integers_aux r g b). Qed.

Lemma rgbToHsl_integers_witness :
  (byte 108 /\ byte 92 /\ byte 231)
  /\ exists h s l,
       0 <= h <= 360 /\ 0 <= s <= 100 /\ 0 <= l <= 100
       /\ rgbToHsl (rgb_of 108 92 231) = hsl_of h s l.
Proof.
  split; [unfold byte; lia|].
  apply (rgbToHsl_integers 108 92 231); unfold byte; lia.
Defined.

Lemma grays_within_one : forallb (gray_check byte_table) (upto 256) = true.
Proof. vm_compute. reflexivity. Qed.

(** X4. A gray (three equal integer channels in [0,255]) has hue 0 and
    saturation 0, and comes back from HSL as a gray whose channels are the
    same integer, at most 1 away from the original. *)
Theorem gray_roundtrip (z : Z) :
  byte z ->
  h (rgbToHsl (rgb_of z z z)) = 0%float
  /\ s (rgbToHsl (rgb_of z z z)) = 0%float
  /\ exists z', byte z' /\ Z.abs (z' - z) <= 1
       /\ hslToRgb (rgbToHsl (rgb_of z z z)) = rgb_of z' z' z'.
Proof.
  intros Hz.
  pose proof (forallb_bytes _ grays_within_one z Hz) as H. unfold gray_check in H.
  cbv zeta in H.
  apply andb_true_iff in H as [H Hr]. apply andb_true_iff in H as [Hg Hb].
  apply FloatAxioms.Leibniz.eqb_spec in Hg, Hb.
  destruct (lookup_number _ byte_table) as [z'|] eqn:E; [|discriminate].
  apply lookup_number_build in E as (z'' & Hz'' & Er & ->). apply Z.leb_le in Hr.
  assert (Hsl : h (rgbToHsl (rgb_of z z z)) = 0%float
                /\ s (rgbToHsl (rgb_of z z z)) = 0%float).
  { rewrite (rgbToHsl_bytes z z z Hz Hz Hz). cbv zeta.
    rewrite !Z.max_id, !Z.min_id, Z.eqb_refl. split; reflexivity. }
  destruct Hsl as [Hh Hs]. split; [exact Hh|]. split; [exact Hs|].
  exists z''. split; [unfold byte; cbn in Hz''; lia|]. split; [exact Hr|].
  destruct (hslToRgb (rgbToHsl (rgb_of z z z))) as [cr cg cb].
  cbn [r g b] in Hg, Hb, Er. subst. reflexivity.
Qed.

Lemma gray_roundtrip_witness :
  byte 128
  /\ h (rgbToHsl (rgb_of 128 128 128)) = 0%float
  /\ s (rgbToHsl (rgb_of 128 128 128)) = 0%float
  /\ exists z', byte z' /\ Z.abs (z' - 128) <= 1
       /\ hslToRgb (rgbToHsl (rgb_of 128 128 128)) = rgb_of z' z' z'.
Proof. split; [unfold byte; lia|]. apply (gray_roundtrip 128); unfold byte; lia. Defined.

(** ** Reading hexadecimal digits *)

Lemma units_complete (n : nat) (c : N) : (c < N.of_nat n)%N -> In c (units n).
Proof.
  intros Hc. unfold units. apply in_map_iff. exists (N.to_nat c). split.
  - apply N2Nat.id.
  - apply in_seq. lia.
Qed.

Lemma hex_digit_small (c : N) : is_hex_digit c = true -> (c < 103)%N.
Proof.
  unfold is_hex_digit, in_range. intros H.
  repeat match goal with
         | H : (_ || _) = true |- _ => apply orb_true_iff in H as [H | H]
         | H : (_ && _) = true |- _ => apply andb_true_iff in H as [? H]
         | H : (_ <=? _)%N = true |- _ => apply N.leb_le in H
         end; lia.
Qed.

Lemma string_eqb_eq (s t : jstring) : string_eqb s t = true -> s = t.
Proof. unfold string_eqb. destruct (List.list_eq_dec N.eq_dec s t); [auto | discriminate]. Qed.

Lemma hex_pairs_check_spec (bytes : table Z) :
  (forall v z, lookup_number v bytes = Some z -> byte z /\ v = Z2F z) ->
  hex_pairs_check bytes = true ->
  forall a c, is_hex_digit a = true -> is_hex_digit c = true ->
  exists z, byte z /\ parseInt16 [a; c] = Z2F z
            /\ toHex (Z2F z) = [lower a; lower c].
Proof.
  intros Ht H a c Ha Hc. unfold hex_pairs_check in H.
  rewrite forallb_forall in H.
  specialize (H a (units_complete 103 a (hex_digit_small a Ha))).
  rewrite forallb_forall in H.
  specialize (H c (units_complete 103 c (hex_digit_small c Hc))).
  unfold hex_pair_check in H. rewrite Ha, Hc in H. cbn [andb negb orb] in H.
  destruct (lookup_number (parseInt16 [a; c]) bytes) as [z|] eqn:E; [|discriminate].
  apply Ht in E as [Hz E]. apply string_eqb_eq in H.
  exists z. rewrite <- E. auto.
Qed.

Lemma byte_table_spec (v : number) (z : Z) :
  lookup_number v byte_table = Some z -> byte z /\ v = Z2F z.
Proof.
  intros E. apply lookup_number_build in E as (z' & Hz & Hv & ->).
  split; [unfold byte; cbn in Hz; lia | exact Hv].
Qed.

Lemma hex_pairs_checked : hex_pairs_check byte_table = true.
Proof. vm_compute. reflexivity. Qed.

Lemma lower_hex_fixed (ds : jstring) :
  forallb is_lower_hex ds = true -> toLowerCase ds = ds.
Proof.
  unfold toLowerCase. induction ds as [|c ds IH]; cbn [map forallb]; [reflexivity|].
  intros H. apply andb_true_iff in H as [Hc Hds]. rewrite (IH Hds). f_equal.
  unfold lower, is_lower_hex, in_range in *.
  destruct ((65 <=? c)%N && (c <=? 90)%N) eqn:E; [|reflexivity].
  exfalso.
  repeat match goal with
         | H : (_ || _) = true |- _ => apply orb_true_iff in H as [H | H]
         | H : (_ && _) = true |- _ => apply andb_true_iff in H as [? H]
         | H : (_ <=? _)%N = true |- _ => apply N.leb_le in H
         end; lia.
Qed.

Lemma lower_hex_is_hex (ds : jstring) :
  forallb is_lower_hex ds = true -> forallb is_hex_digit ds = true.
Proof.
  apply forallb_weaken. intros c H. unfold is_hex_digit. unfold is_lower_hex in H.
  now rewrite H.
Qed.

Lemma hex_digit_not_hash (c : N) :
  is_hex_digit c = true -> (c =? chr "#")%N = false.
Proof.
  change (chr "#") with 35%N.
  destruct (N.eqb_spec c 35) as [->|]; [discriminate | reflexivity].
Qed.

Lemma hexToRgb_digits (x ds : jstring) :
  optional (chr "#") x -> forallb is_hex_digit ds = true -> length ds = 6%nat ->
  (exists r g b, byte r /\ byte g /\ byte b /\ hexToRgb (x ++ ds) = rgb_of r g b)
  /\ rgbToHex (hexToRgb (x ++ ds)) = str "#" ++ toLowerCase ds.
Proof.
  intros Hx Hd Hlen.
  destruct ds as [|a1 [|a2 [|a3 [|a4 [|a5 [|a6 [|e ds]]]]]]]; try discriminate Hlen.
  cbn [forallb] in Hd.
  apply andb_true_iff in Hd as [H1 Hd]. apply andb_true_iff in Hd as [H2 Hd].
  apply andb_true_iff in Hd as [H3 Hd]. apply andb_true_iff in Hd as [H4 Hd].
  apply andb_true_iff in Hd as [H5 Hd]. apply andb_true_iff in Hd as [H6 _].
  assert (E : remove_first (chr "#") (x ++ [a1; a2; a3; a4; a5; a6])
              = [a1; a2; a3; a4; a5; a6]).
  { destruct Hx as [-> | ->]; cbn [app remove_first].
    - now rewrite !hex_digit_not_hash by assumption.
    - now rewrite N.eqb_refl. }
  destruct (hex_pairs_check_spec _ byte_table_spec hex_pairs_checked a1 a2 H1 H2)
    as (r & Hr & Pr & Tr).
  destruct (hex_pairs_check_spec _ byte_table_spec hex_pairs_checked a3 a4 H3 H4)
    as (g & Hg & Pg & Tg).
  destruct (hex_pairs_check_spec _ byte_table_spec hex_pairs_checked a5 a6 H5 H6)
    as (b & Hb & Pb & Tb).
  assert (Ergb : hexToRgb (x ++ [a1; a2; a3; a4; a5; a6]) = rgb_of r g b).
  { unfold hexToRgb. rewrite E. cbn [slice Nat.sub skipn firstn].
    now rewrite Pr, Pg, Pb. }
  split; [exists r, g, b; auto|].
  rewrite Ergb. unfold rgbToHex, rgb_of. now rewrite Tr, Tg, Tb.
Qed.

(** X5. [hexToRgb] reads six hexadecimal digits of either case, with or
    without a leading [#], as three integer channels in [0,255], and
    [rgbToHex] gives the digits back in lower case after a [#]; on a
    canonical hex string [rgbToHex (hexToRgb hex)] is the string itself. *)
Theorem hexToRgb_reads (x ds hex : jstring) :
  (optional (chr "#") x -> forallb is_hex_digit ds = true -> length ds = 6%nat ->
   (exists r g b, byte r /\ byte g /\ byte b /\ hexToRgb (x ++ ds) = rgb_of r g b)
   /\ rgbToHex (hexToRgb (x ++ ds)) = str "#" ++ toLowerCase ds)
  /\ (canonical_hex hex = true -> rgbToHex (hexToRgb hex) = hex).
Proof.
  split; [apply hexToRgb_digits|].
  destruct hex as [|c cs]; [discriminate|]. cbn [canonical_hex]. intros H.
  apply andb_true_iff in H as [H Hl]. apply andb_true_iff in H as [Hc Hn].
  apply N.eqb_eq in Hc. apply Nat.eqb_eq in Hn. subst c.
  destruct (hexToRgb_digits [chr "#"] cs (or_intror eq_refl)
              (lower_hex_is_hex cs Hl) Hn) as [_ E].
  cbn [app] in E. rewrite E, (lower_hex_fixed cs Hl). reflexivity.
Qed.

Lemma hexToRgb_reads_witness :
  (optional (chr "#") [] /\ forallb is_hex_digit (str "6C5ce7") = true
   /\ length (str "6C5ce7") = 6%nat /\ canonical_hex (str "#6c5ce7") = true)
  /\ ((exists r g b, byte r /\ byte g /\ byte b
                     /\ hexToRgb ([] ++ str "6C5ce7") = rgb_of r g b)
      /\ rgbToHex (hexToRgb ([] ++ str "6C5ce7")) = str "#" ++ toLowerCase (str "6C5ce7"))
  /\ rgbToHex (hexToRgb (str "#6c5ce7")) = str "#6c5ce7".
Proof.
  assert (H1 : optional (chr "#") []) by (left; reflexivity).
  assert (H2 : forallb is_hex_digit (str "6C5ce7") = true) by reflexivity.
  assert (H3 : length (str "6C5ce7") = 6%nat) by reflexivity.
  assert (H4 : canonical_hex (str "#6c5ce7") = true) by reflexivity.
  split; [auto|].
  destruct (hexToRgb_reads [] (str "6C5ce7") (str "#6c5ce7")) as [A B].
  split; [exact (A H1 H2 H3) | exact (B H4)].
Defined.

(** X6. [hexToRgb] does not expand the three-digit shorthand: on a text of
    at most four characters (a shorthand with or without its [#]) the blue
    channel is [NaN]. *)
Theorem hexToRgb_shorthand (hex : jstring) :
  (length hex <= 4)%nat -> b (hexToRgb hex) = nan.
Proof.
  intros Hlen. unfold hexToRgb. cbn [b].
  assert (L : (length (remove_first (chr "#") hex) <= length hex)%nat).
  { clear Hlen. induction hex as [|c cs IH]; cbn [remove_first length]; [lia|].
    destruct (c =? chr "#")%N; cbn [length]; lia. }
  unfold slice. rewrite skipn_all2 by lia. reflexivity.
Qed.

Lemma hexToRgb_shorthand_witness :
  (length (str "#6ce") <= 4)%nat /\ b (hexToRgb (str "#6ce")) = nan.
Proof. split; [cbn; lia|]. apply (hexToRgb_shorthand (str "#6ce")). cbn. lia. Defined.

(** * Further properties of the parser *)

Lemma parseColor_hex (input x ds : jstring) :
  optional (chr "#") x -> hex_digits ds -> trim input = x ++ ds ->
  parseColor input = Return (str "#" ++ toLowerCase (expand ds)).
Proof.
  intros Hx Hd Et. unfold parseColor. rewrite Et.
  rewrite (hexRe_complete _ _ (hex_text x ds Hx Hd)). cbn [capture pred nth].
  destruct Hd as [_ [H3 | H6]].
  - destruct ds as [|a [|b [|c [|e ds]]]]; try discriminate H3. reflexivity.
  - rewrite H6. cbn [Nat.eqb].
    destruct ds as [|a [|b [|c [|e ds]]]]; try discriminate H6. reflexivity.
Qed.

Lemma canonical_hex_text (hex : jstring) :
  canonical_hex hex = true ->
  exists ds, hex = chr "#" :: ds /\ forallb is_lower_hex ds = true
             /\ length ds = 6%nat.
Proof.
  destruct hex as [|c cs]; [discriminate|]. cbn [canonical_hex]. intros H.
  apply andb_true_iff in H as [H Hl]. apply andb_true_iff in H as [Hc Hn].
  apply N.eqb_eq in Hc. apply Nat.eqb_eq in Hn. subst c. exists cs. auto.
Qed.

Lemma lower_hex_not_space (c : N) : is_lower_hex c = true -> is_space c = false.
Proof.
  unfold is_lower_hex, in_range. intros H.
  apply orb_true_iff in H as [H | H]; apply andb_true_iff in H as [H1 H2];
    apply N.leb_le in H1, H2; unfold is_space, in_range; compare_all.
Qed.

Lemma canonical_hex_trim (hex : jstring) : canonical_hex hex = true -> trim hex = hex.
Proof.
  intros H. destruct (canonical_hex_text hex H) as (ds & -> & Hl & Hn).
  destruct ds as [|a1 [|a2 [|a3 [|a4 [|a5 [|a6 [|e ds]]]]]]]; try discriminate Hn.
  apply trim_fixed; [reflexivity|].
  cbn [forallb] in Hl. repeat (apply andb_true_iff in Hl as [? Hl]).
  cbn [rev app starts_outside]. now apply lower_hex_not_space.
Qed.

Lemma parseColor_canonical_hex (hex : jstring) :
  canonical_hex hex = true -> parseColor hex = Return hex.
Proof.
  intros H. destruct (canonical_hex_text hex H) as (ds & E & Hl & Hn).
  rewrite (parseColor_hex hex [chr "#"] ds).
  - subst hex. destruct ds as [|a1 [|a2 [|a3 [|a4 [|a5 [|a6 [|e ds]]]]]]];
      try discriminate Hn.
    cbn [expand]. now rewrite (lower_hex_fixed _ Hl).
  - right. reflexivity.
  - split; [now apply lower_hex_is_hex | right; exact Hn].
  - rewrite (canonical_hex_trim hex H). exact E.
Qed.

Lemma parseColor_returns_canonical (input hex : jstring) :
  parseColor input = Return hex -> canonical_hex hex = true.
Proof.
  intros H. pose proof H as H0. unfold parseColor in H.
  destruct (exec hexRe (trim input)) as [caps|] eqn:E1.
  - apply hexRe_sound in E1 as (ds & Ht & ->). inversion Ht; subst.
    injection H as <-. cbn [capture pred nth]. now apply parseColor_hex_canonical.
  - clear H. destruct (exec rgbRe (trim input)) as [caps|] eqn:E2.
    + apply rgbRe_sound in E2 as (d1 & d2 & d3 & Ht & _).
      rewrite (parseColor_rgb _ _ _ _ Ht) in H0. injection H0 as <-.
      inversion Ht; subst.
      pose proof (channel_value d1 ltac:(assumption)).
      pose proof (channel_value d2 ltac:(assumption)).
      pose proof (channel_value d3 ltac:(assumption)).
      apply rgbToHex_canonical; unfold byte; lia.
    + destruct (exec hslRe (trim input)) as [caps|] eqn:E3.
      * apply hslRe_sound in E3 as (d1 & d2 & d3 & Ht & _).
        rewrite (parseColor_hsl _ _ _ _ Ht) in H0. injection H0 as <-.
        inversion Ht; subst.
        pose proof (channel_value d1 ltac:(assumption)).
        pose proof (channel_value d2 ltac:(assumption)).
        pose proof (channel_value d3 ltac:(assumption)).
        apply hslToHex_canonical; lia.
      * unfold parseColor in H0. rewrite E1, E2, E3 in H0. discriminate.
Qed.

(** X7. On a hex text (an optional [#], then three or six hexadecimal
    digits) [parseColor] returns [#] and the digits in lower case, each
    digit of a three-digit shorthand doubled.  A canonical hex string parses
    to itself, so parsing the result of a parse changes nothing. *)
Theorem parseColor_normalizes (input x ds hex : jstring) :
  (optional (chr "#") x -> hex_digits ds -> trim input = x ++ ds ->
   parseColor input = Return (str "#" ++ toLowerCase (expand ds)))
  /\ (canonical_hex hex = true -> parseColor hex = Return hex)
  /\ (parseColor input = Return hex -> parseColor hex = Return hex).
Proof.
  split; [apply parseColor_hex|]. split; [apply parseColor_canonical_hex|].
  intros H. apply parseColor_canonical_hex. exact (parseColor_returns_canonical _ _ H).
Qed.

Lemma parseColor_normalizes_witness :
  (optional (chr "#") (str "#") /\ hex_digits (str "6Ce")
   /\ trim (str " #6Ce ") = str "#" ++ str "6Ce")
  /\ parseColor (str " #6Ce ") = Return (str "#66ccee")
  /\ parseColor (str "#66ccee") = Return (str "#66ccee").
Proof.
  assert (H1 : optional (chr "#") (str "#")) by (right; reflexivity).
  assert (H2 : hex_digits (str "6Ce")) by (split; [reflexivity | left; reflexivity]).
  assert (H3 : trim (str " #6Ce ") = str "#" ++ str "6Ce") by reflexivity.
  split; [auto|].
  destruct (parseColor_normalizes (str " #6Ce ") (str "#") (str "6Ce") (str "#66ccee"))
    as (A & _ & C).
  pose proof (A H1 H2 H3) as E. split; [exact E | exact (C E)].
Defined.

Lemma parseColor_formatRgb (x y z : Z) :
  byte x -> byte y -> byte z ->
  parseColor (formatRgb (rgb_of x y z)) = Return (rgbToHex (rgb_of x y z)).
Proof.
  unfold byte. intros Hx Hy Hz.
  rewrite (parseColor_rgb _ _ _ _
             (formatRgb_text x y z ltac:(lia) ltac:(lia) ltac:(lia))).
  destruct (decimal_channel x ltac:(lia)) as [_ ->].
  destruct (decimal_channel y ltac:(lia)) as [_ ->].
  destruct (decimal_channel z ltac:(lia)) as [_ ->].
  now rewrite !Z.min_r by lia.
Qed.

Lemma parseColor_formatHsl (x y z : Z) :
  0 <= x <= 360 -> 0 <= y <= 100 -> 0 <= z <= 100 ->
  parseColor (formatHsl (hsl_of x y z)) = Return (hslToHex (hsl_of x y z)).
Proof.
  intros Hx Hy Hz.
  rewrite (parseColor_hsl _ _ _ _
             (formatHsl_text x y z ltac:(lia) ltac:(lia) ltac:(lia))).
  destruct (decimal_channel x ltac:(lia)) as [_ ->].
  destruct (decimal_channel y ltac:(lia)) as [_ ->].
  destruct (decimal_channel z ltac:(lia)) as [_ ->].
  now rewrite !Z.min_r by lia.
Qed.

(** X8. Formatting and parsing compose: the [rgb(...)] text of integer
    channels in [0,255] parses to the hex of the same channels, and the
    [hsl(...)] text of an integer hue in [0,360] and integer saturation and
    lightness in [0,100] parses to the hex of the same colour. *)
Theorem parseColor_format (x y z : Z) :
  (byte x -> byte y -> byte z ->
   parseColor (formatRgb (rgb_of x y z)) = Return (rgbToHex (rgb_of x y z)))
  /\ (0 <= x <= 360 -> 0 <= y <= 100 -> 0 <= z <= 100 ->
      parseColor (formatHsl (hsl_of x y z)) = Return (hslToHex (hsl_of x y z))).
Proof. split; [apply parseColor_formatRgb | apply parseColor_formatHsl]. Qed.

Lemma parseColor_format_witness :
  (byte 108 /\ byte 92 /\ byte 100 /\ 0 <= 108 <= 360 /\ 0 <= 92 <= 100
   /\ 0 <= 100 <= 100)
  /\ parseColor (formatRgb (rgb_of 108 92 100)) = Return (rgbToHex (rgb_of 108 92 100))
  /\ parseColor (formatHsl (hsl_of 108 92 100)) = Return (hslToHex (hsl_of 108 92 100)).
Proof.
  split; [unfold byte; lia|].
  destruct (parseColor_format 108 92 100) as [A B].
  split; [apply A; unfold byte; lia | apply B; lia].
Defined.

Lemma colorInfo_fields (hx : jstring) :
  canonical_hex hx = true ->
  hex (colorInfo hx) = hx /\ parseColor (rgb (colorInfo hx)) = Return hx.
Proof.
  intros H. destruct (canonical_hex_text hx H) as (ds & E & Hl & Hn).
  destruct (hexToRgb_digits [chr "#"] ds (or_intror eq_refl)
              (lower_hex_is_hex ds Hl) Hn) as [(x & y & z & Hx & Hy & Hz & Ergb) Ehex].
  cbn [app] in Ergb, Ehex. rewrite <- E in Ergb, Ehex.
  rewrite (lower_hex_fixed ds Hl) in Ehex. cbn [str app] in Ehex.
  change (N_of_ascii "#") with (chr "#") in Ehex. rewrite <- E in Ehex.
  unfold colorInfo. cbn [hex rgb]. split; [reflexivity|].
  rewrite Ergb, (parseColor_formatRgb x y z Hx Hy Hz), <- Ergb. now rewrite Ehex.
Qed.

(** X9. For a canonical hex string, [colorInfo] keeps the string, its [rgb]
    text parses back to the same string, and its [hsl] text parses too, to
    the hex [hslToHex (hexToHsl hex)] of the rounded HSL colour (which can
    differ from the string: HSL is rounded to integers). *)
Theorem colorInfo_parses (hx : jstring) :
  canonical_hex hx = true ->
  hex (colorInfo hx) = hx
  /\ parseColor (rgb (colorInfo hx)) = Return hx
  /\ parseColor (hsl (colorInfo hx)) = Return (hslToHex (hexToHsl hx))
  /\ canonical_hex (hslToHex (hexToHsl hx)) = true.
Proof.
  intros H. destruct (canonical_hex_text hx H) as (ds & E & Hl & Hn).
  destruct (hexToRgb_digits [chr "#"] ds (or_intror eq_refl)
              (lower_hex_is_hex ds Hl) Hn) as [(x & y & z & Hx & Hy & Hz & Ergb) Ehex].
  cbn [app] in Ergb, Ehex. rewrite <- E in Ergb, Ehex.
  rewrite (lower_hex_fixed ds Hl) in Ehex. cbn [str app] in Ehex.
  change (N_of_ascii "#") with (chr "#") in Ehex. rewrite <- E in Ehex.
  unfold colorInfo. cbn [hex rgb hsl]. split; [reflexivity|].
  unfold hexToHsl. rewrite Ergb.
  split; [rewrite (parseColor_formatRgb x y z Hx Hy Hz), <- Ergb; now rewrite Ehex|].
  destruct (rgbToHsl_integers_aux x y z Hx Hy Hz) as (hh & ss & ll & Hh & Hs & Hll & ->).
  split; [exact (parseColor_formatHsl hh ss ll Hh Hs Hll) | now apply hslToHex_canonical].
Qed.

Lemma colorInfo_parses_witness :
  canonical_hex (str "#6c5ce7") = true
  /\ hex (colorInfo (str "#6c5ce7")) = str "#6c5ce7"
  /\ parseColor (rgb (colorInfo (str "#6c5ce7"))) = Return (str "#6c5ce7")
  /\ parseColor (hsl (colorInfo (str "#6c5ce7")))
     = Return (hslToHex (hexToHsl (str "#6c5ce7")))
  /\ canonical_hex (hslToHex (hexToHsl (str "#6c5ce7"))) = true.
Proof.
  assert (H : canonical_hex (str "#6c5ce7") = true) by reflexivity.
  split; [exact H|]. exact (colorInfo_parses (str "#6c5ce7") H).
Defined.

(** The [hsl] text of [colorInfo] does not always lead back to the hex. *)
Lemma colorInfo_hsl_lossy :
  hsl (colorInfo (str "#ff0200")) = str "hsl(0, 100%, 50%)"
  /\ parseColor (hsl (colorInfo (str "#ff0200"))) = Return (str "#ff0000").
Proof. split; vm_compute; reflexivity. Qed.

Lemma trimStart_spaces (w u : jstring) : spaces w -> trimStart (w ++ u) = trimStart u.
Proof.
  unfold spaces. induction w as [|c w IH]; cbn [app forallb trimStart]; [reflexivity|].
  intros H. apply andb_true_iff in H as [Hc Hw]. rewrite Hc. exact (IH Hw).
Qed.

Lemma trimStart_blank (w : jstring) : spaces w -> trimStart w = [].
Proof. intros H. rewrite <- (app_nil_r w). now rewrite trimStart_spaces. Qed.

Lemma trimStart_keeps (t u : jstring) :
  trimStart t <> [] -> trimStart (t ++ u) = trimStart t ++ u.
Proof.
  induction t as [|c t IH]; cbn [app trimStart]; [congruence|].
  destruct (is_space c); [exact IH | reflexivity].
Qed.

Lemma trimStart_all_or_some (t : jstring) : trimStart t = [] -> spaces t.
Proof.
  unfold spaces. induction t as [|c t IH]; cbn [trimStart forallb]; [reflexivity|].
  destruct (is_space c) eqn:E; [exact IH | discriminate].
Qed.

Lemma spaces_rev (w : jstring) : spaces w -> spaces (rev w).
Proof.
  unfold spaces. rewrite !forallb_forall. intros H c Hc. apply H. now apply in_rev.
Qed.

Lemma trim_spaces (w1 t w2 : jstring) :
  spaces w1 -> spaces w2 -> trim (w1 ++ t ++ w2) = trim t.
Proof.
  intros H1 H2. unfold trim. rewrite (trimStart_spaces w1 _ H1).
  destruct (trimStart t) as [|c u] eqn:E.
  - apply trimStart_all_or_some in E.
    rewrite (trimStart_blank (t ++ w2)); [reflexivity|].
    unfold spaces in *. rewrite forallb_app, E, H2. reflexivity.
  - rewrite trimStart_keeps by (rewrite E; discriminate). rewrite E.
    rewrite rev_app_distr. now rewrite (trimStart_spaces _ _ (spaces_rev w2 H2)).
Qed.

Lemma parseColor_trim (a c hex : jstring) :
  trim a = trim c -> parseColor a = Return hex -> parseColor c = Return hex.
Proof.
  unfold parseColor. intros ->.
  destruct (exec hexRe (trim c)); [auto|].
  destruct (exec rgbRe (trim c)); [auto|].
  destruct (exec hslRe (trim c)); [auto | discriminate].
Qed.

(** X10. White space around a colour text does not matter: a text parses to
    the same hex with and without white space before and after it.  A blank
    text (empty, or white space only) makes [parseColor] throw, with the
    text as given in the message. *)
Theorem parseColor_white_space (w1 t w2 hex : jstring) :
  spaces w1 -> spaces w2 ->
  (parseColor (w1 ++ t ++ w2) = Return hex <-> parseColor t = Return hex)
  /\ parseColor (w1 ++ w2) = Throw (parse_error (w1 ++ w2)).
Proof.
  intros H1 H2. split; [split|].
  - apply parseColor_trim. now apply trim_spaces.
  - apply parseColor_trim. symmetry. now apply trim_spaces.
  - assert (E : trim (w1 ++ w2) = []).
    { pose proof (trim_spaces w1 [] w2 H1 H2) as E. exact E. }
    unfold parseColor. rewrite E. reflexivity.
Qed.

Lemma parseColor_white_space_witness :
  (spaces (str " ") /\ spaces (str "  "))
  /\ (parseColor (str " " ++ str "rgb(1,2,3)" ++ str "  ") = Return (str "#010203")
      <-> parseColor (str "rgb(1,2,3)") = Return (str "#010203"))
  /\ parseColor (str " " ++ str "  ") = Throw (parse_error (str " " ++ str "  ")).
Proof.
  assert (H1 : spaces (str " ")) by reflexivity.
  assert (H2 : spaces (str "  ")) by reflexivity.
  split; [auto|].
  exact (parseColor_white_space (str " ") (str "rgb(1,2,3)") (str "  ")
           (str "#010203") H1 H2).
Defined.

(** * Further properties of the contrast code *)

Lemma contrast_of_luminances (a c : RGBColor) :
  (0 <= relativeLuminance c <= relativeLuminance a)%R ->
  (contrastRatio a c * (relativeLuminance c + 0.05) = relativeLuminance a + 0.05)%R
  /\ contrastRatio c a = contrastRatio a c.
Proof.
  intros [H0 Hle]. split; [|apply contrastRatio_sym].
  unfold contrastRatio. cbv zeta.
  rewrite (Rmax_left _ _ Hle), (Rmin_right _ _ Hle). field. lra.
Qed.

Lemma contrastRatio_extremes_aux (r g b : Z) :
  byte r -> byte g -> byte b ->
  contrastRatio (rgb_of r g b) (rgb_of r g b) = 1%R
  /\ contrastRatio white black = 21%R.
Proof.
  intros Hr Hg Hb. pose proof (relativeLuminance_unit r g b Hr Hg Hb) as Ha. split.
  - unfold contrastRatio. cbv zeta. rewrite Rmax_left, Rmin_left by lra. field. lra.
  - unfold contrastRatio. cbv zeta.
    rewrite relativeLuminance_white, relativeLuminance_black.
    rewrite Rmax_left, Rmin_right by lra. lra.
Qed.

Lemma contrastRatio_range_aux (r1 g1 b1 r2 g2 b2 : Z) :
  byte r1 -> byte g1 -> byte b1 -> byte r2 -> byte g2 -> byte b2 ->
  (1 <= contrastRatio (rgb_of r1 g1 b1) (rgb_of r2 g2 b2) <= 21)%R.
Proof.
  intros Hr1 Hg1 Hb1 Hr2 Hg2 Hb2. unfold contrastRatio. cbv zeta.
  pose proof (relativeLuminance_unit r1 g1 b1 Hr1 Hg1 Hb1) as Ha.
  pose proof (relativeLuminance_unit r2 g2 b2 Hr2 Hg2 Hb2) as Hb.
  apply ratio_bounds.
  - split; [apply Rmin_glb; lra | apply Rle_trans with (relativeLuminance (rgb_of r1 g1 b1));
      [apply Rmin_l | apply Rmax_l]].
  - apply Rmax_lub; lra.
Qed.

(** X11. Two colours with integer channels in [0,255] have contrast ratio 1
    exactly when their luminances are equal (a colour against itself, for
    one), and white against black has ratio 21, in either order. *)
Theorem contrastRatio_extremes (r1 g1 b1 r2 g2 b2 : Z) :
  byte r1 -> byte g1 -> byte b1 -> byte r2 -> byte g2 -> byte b2 ->
  (contrastRatio (rgb_of r1 g1 b1) (rgb_of r2 g2 b2) = 1%R
   <-> relativeLuminance (rgb_of r1 g1 b1) = relativeLuminance (rgb_of r2 g2 b2))
  /\ contrastRatio (rgb_of r1 g1 b1) (rgb_of r1 g1 b1) = 1%R
  /\ contrastRatio white black = 21%R
  /\ contrastRatio black white = 21%R.
Proof.
  intros Hr1 Hg1 Hb1 Hr2 Hg2 Hb2.
  pose proof (relativeLuminance_unit r1 g1 b1 Hr1 Hg1 Hb1) as Ha.
  pose proof (relativeLuminance_unit r2 g2 b2 Hr2 Hg2 Hb2) as Hc.
  set (a := rgb_of r1 g1 b1) in *. set (c := rgb_of r2 g2 b2) in *.
  assert (Hiff : contrastRatio a c = 1%R <-> relativeLuminance a = relativeLuminance c).
  { destruct (Rle_lt_dec (relativeLuminance c) (relativeLuminance a)) as [Hle | Hlt].
    - destruct (contrast_of_luminances a c (conj (proj1 Hc) Hle)) as [E _].
      split; intros H; [rewrite H in E; lra|].
      rewrite H in E. nra.
    - destruct (contrast_of_luminances c a (conj (proj1 Ha) (Rlt_le _ _ Hlt)))
        as [E S]. rewrite S.
      split; intros H; [rewrite H in E; lra|].
      rewrite <- H in E. nra. }
  split; [exact Hiff|]. split.
  - unfold contrastRatio. cbv zeta. rewrite Rmax_left, Rmin_left by lra. field. lra.
  - assert (E : contrastRatio white black = 21%R).
    { unfold contrastRatio. cbv zeta.
      rewrite relativeLuminance_white, relativeLuminance_black.
      rewrite Rmax_left, Rmin_right by lra. lra. }
    split; [exact E | rewrite contrastRatio_sym; exact E].
Qed.

Lemma contrastRatio_extremes_witness :
  (byte 108 /\ byte 92 /\ byte 231 /\ byte 231 /\ byte 92 /\ byte 108)
  /\ (contrastRatio (rgb_of 108 92 231) (rgb_of 231 92 108) = 1%R
      <-> relativeLuminance (rgb_of 108 92 231) = relativeLuminance (rgb_of 231 92 108))
  /\ contrastRatio (rgb_of 108 92 231) (rgb_of 108 92 231) = 1%R
  /\ contrastRatio white black = 21%R
  /\ contrastRatio black white = 21%R.
Proof.
  split; [unfold byte; lia|].
  apply (contrastRatio_extremes 108 92 231 231 92 108); unfold byte; lia.
Defined.

Lemma lin_steps_checked : lin_steps_check = true.
Proof. vm_compute. reflexivity. Qed.

Lemma linearize_step (c : Z) :
  0 <= c < 255 -> (linearize (IZR c) < linearize (IZR (c + 1)))%R.
Proof.
  intros Hc. pose proof scale_pos as Hs.
  pose proof (forallb_upto 255 _ lin_steps_checked c ltac:(lia)) as H.
  cbv beta in H. apply Z.leb_le in H. apply IZR_le in H. rewrite plus_IZR in H.
  destruct (lin_lo_encloses c ltac:(unfold byte; lia)) as [_ Hu].
  destruct (lin_lo_encloses (c + 1) ltac:(unfold byte; lia)) as [Hl _].
  rewrite plus_IZR in Hu.
  apply Rle_lt_trans with ((IZR (lin_lo c) + 1) / IZR scale)%R; [exact Hu|].
  apply Rlt_le_trans with (IZR (lin_lo (c + 1)) / IZR scale)%R; [|exact Hl].
  apply Rmult_lt_compat_r; [apply Rinv_0_lt_compat; exact Hs | lra].
Qed.

Lemma linearize_increasing (n : nat) :
  forall c, 0 <= c -> c + Z.of_nat (S n) <= 255 ->
  (linearize (IZR c) < linearize (IZR (c + Z.of_nat (S n))))%R.
Proof.
  induction n as [|n IH]; intros c H0 H255.
  - apply linearize_step. lia.
  - apply Rlt_trans with (linearize (IZR (c + Z.of_nat (S n)))); [apply IH; lia|].
    replace (c + Z.of_nat (S (S n))) with (c + Z.of_nat (S n) + 1) by lia.
    apply linearize_step. lia.
Qed.

Lemma linearize_monotone (c d : Z) :
  byte c -> byte d -> c <= d ->
  (linearize (IZR c) <= linearize (IZR d))%R
  /\ (c < d -> (linearize (IZR c) < linearize (IZR d))%R).
Proof.
  unfold byte. intros Hc Hd Hle.
  destruct (Z.eq_dec c d) as [-> | Hne]; [split; [lra | lia]|].
  assert (Hlt : (linearize (IZR c) < linearize (IZR d))%R).
  { replace d with (c + Z.of_nat (S (Z.to_nat (d - c - 1)))) by lia.
    apply linearize_increasing; lia. }
  split; [lra | intros _; exact Hlt].
Qed.

Lemma relativeLuminance_increasing (r1 g1 b1 r2 g2 b2 : Z) :
  byte r1 -> byte g1 -> byte b1 -> byte r2 -> byte g2 -> byte b2 ->
  r1 <= r2 -> g1 <= g2 -> b1 <= b2 ->
  (relativeLuminance (rgb_of r1 g1 b1) <= relativeLuminance (rgb_of r2 g2 b2))%R
  /\ (r1 < r2 \/ g1 < g2 \/ b1 < b2 ->
      (relativeLuminance (rgb_of r1 g1 b1) < relativeLuminance (rgb_of r2 g2 b2))%R).
Proof.
  intros Hr1 Hg1 Hb1 Hr2 Hg2 Hb2 Hr Hg Hb.
  unfold relativeLuminance, rgb_of. rewrite !F2R_byte by assumption.
  destruct (linearize_monotone r1 r2 Hr1 Hr2 Hr) as [Lr Sr].
  destruct (linearize_monotone g1 g2 Hg1 Hg2 Hg) as [Lg Sg].
  destruct (linearize_monotone b1 b2 Hb1 Hb2 Hb) as [Lb Sb].
  split; [lra|]. intros [H | [H | H]];
    [specialize (Sr H) | specialize (Sg H) | specialize (Sb H)]; lra.
Qed.

(** X12. On integer channels in [0,255] the relative luminance grows with
    every channel: a colour that is nowhere darker has at least the
    luminance, and more when some channel is lighter. *)
Theorem relativeLuminance_monotone (r1 g1 b1 r2 g2 b2 : Z) :
  byte r1 -> byte g1 -> byte b1 -> byte r2 -> byte g2 -> byte b2 ->
  r1 <= r2 -> g1 <= g2 -> b1 <= b2 ->
  (relativeLuminance (rgb_of r1 g1 b1) <= relativeLuminance (rgb_of r2 g2 b2))%R
  /\ (r1 < r2 \/ g1 < g2 \/ b1 < b2 ->
      (relativeLuminance (rgb_of r1 g1 b1) < relativeLuminance (rgb_of r2 g2 b2))%R).
Proof. exact (relativeLuminance_increasing r1 g1 b1 r2 g2 b2). Qed.

Lemma relativeLuminance_monotone_witness :
  (byte 10 /\ byte 92 /\ byte 231 /\ byte 11 /\ byte 92 /\ byte 231
   /\ 10 <= 11 /\ 92 <= 92 /\ 231 <= 231)
  /\ (relativeLuminance (rgb_of 10 92 231) <= relativeLuminance (rgb_of 11 92 231))%R
  /\ (10 < 11 \/ 92 < 92 \/ 231 < 231 ->
      (relativeLuminance (rgb_of 10 92 231) < relativeLuminance (rgb_of 11 92 231))%R).
Proof.
  split; [unfold byte; lia|].
  apply (relativeLuminance_monotone 10 92 231 11 92 231); unfold byte; lia.
Defined.

(** ** The suggested text colour *)

Lemma canonical_hex_channels (hx : jstring) :
  canonical_hex hx = true ->
  exists r g b, byte r /\ byte g /\ byte b /\ hexToRgb hx = rgb_of r g b.
Proof.
  intros H. destruct (canonical_hex_text hx H) as (ds & -> & Hl & Hn).
  exact (proj1 (hexToRgb_digits [chr "#"] ds (or_intror eq_refl)
                  (lower_hex_is_hex ds Hl) Hn)).
Qed.

Lemma contrast_white_black_tie (c : RGBColor) :
  (0 <= relativeLuminance c <= 1)%R ->
  ((20 * relativeLuminance c + 1) ^ 2 = 21)%R ->
  contrastRatio c white = contrastRatio c black.
Proof.
  intros [H0 H1] E. unfold contrastRatio. cbv zeta.
  rewrite relativeLuminance_white, relativeLuminance_black.
  rewrite (Rmax_right _ 1 H1), (Rmin_left _ 1 H1),
          (Rmax_left _ 0 H0), (Rmin_right _ 0 H0).
  set (L := relativeLuminance c) in *.
  assert (Ew : ((1 + 0.05) / (L + 0.05) * (L + 0.05) = 1 + 0.05)%R) by (field; lra).
  assert (Eb : ((L + 0.05) / (0 + 0.05) * 0.05 = L + 0.05)%R) by (field; lra).
  set (cw := ((1 + 0.05) / (L + 0.05))%R) in *.
  set (cb := ((L + 0.05) / (0 + 0.05))%R) in *.
  apply (Rmult_eq_reg_r ((L + 0.05) * 0.05)); [|nra].
  replace (cw * ((L + 0.05) * 0.05))%R with (cw * (L + 0.05) * 0.05)%R by ring.
  replace (cb * ((L + 0.05) * 0.05))%R with (cb * 0.05 * (L + 0.05))%R by ring.
  rewrite Ew, Eb. nra.
Qed.

(** The luminance below which white contrasts more. *)
Lemma threshold_square (L : R) :
  (0 <= L)%R ->
  ((20 * L + 1) ^ 2 < 21 <-> L < (sqrt 21 - 1) / 20)%R
  /\ (21 < (20 * L + 1) ^ 2 <-> (sqrt 21 - 1) / 20 < L)%R.
Proof.
  intros H0. pose proof (sqrt_pos 21) as Hs.
  pose proof (sqrt_sqrt 21 ltac:(lra)) as Es.
  set (q := sqrt 21) in *.
  repeat split; intros H; nra.
Qed.

Lemma textColorForBackground_cases (hx : jstring) (r g b : Z) :
  byte r -> byte g -> byte b -> hexToRgb hx = rgb_of r g b ->
  (((20 * relativeLuminance (rgb_of r g b) + 1) ^ 2 < 21)%R
   /\ textColorForBackground hx = str "#ffffff"
   /\ (contrastRatio (rgb_of r g b) black < contrastRatio (rgb_of r g b) white)%R)
  \/ ((21 < (20 * relativeLuminance (rgb_of r g b) + 1) ^ 2)%R
      /\ textColorForBackground hx = str "#000000"
      /\ (contrastRatio (rgb_of r g b) white < contrastRatio (rgb_of r g b) black)%R).
Proof.
  intros Hr Hg Hb E.
  pose proof (relativeLuminance_unit r g b Hr Hg Hb) as HL.
  pose proof (contrast_never_ties r g b Hr Hg Hb) as Hne.
  destruct (contrast_white_black _ HL) as [Cw Cb].
  pose proof (contrast_white_black_tie _ HL) as Ct.
  unfold textColorForBackground. cbv zeta. rewrite E. fold white black.
  destruct (Rtotal_order ((20 * relativeLuminance (rgb_of r g b) + 1) ^ 2) 21)
    as [Hlt | [Heq | Hgt]].
  - left. specialize (Cw Hlt). split; [exact Hlt|]. split; [|exact Cw].
    destruct (Rgt_dec _ _) as [_ | Hn]; [reflexivity | exfalso; lra].
  - exfalso. exact (Hne (Ct Heq)).
  - right. specialize (Cb Hgt). split; [exact Hgt|]. split; [|exact Cb].
    destruct (Rgt_dec _ _) as [Hg' | _]; [exfalso; lra | reflexivity].
Qed.

(** X13. For a canonical hex string, [textColorForBackground] answers
    [#ffffff] exactly when the relative luminance of the colour is below
    [(sqrt 21 - 1) / 20] (about 0.179) and [#000000] exactly when it is
    above; no colour has that luminance. *)
Theorem textColorForBackground_threshold (hx : jstring) :
  canonical_hex hx = true ->
  (textColorForBackground hx = str "#ffffff"
   <-> (relativeLuminance (hexToRgb hx) < (sqrt 21 - 1) / 20)%R)
  /\ (textColorForBackground hx = str "#000000"
      <-> ((sqrt 21 - 1) / 20 < relativeLuminance (hexToRgb hx))%R).
Proof.
  intros H. destruct (canonical_hex_channels hx H) as (r & g & b & Hr & Hg & Hb & E).
  pose proof (relativeLuminance_unit r g b Hr Hg Hb) as HL.
  destruct (threshold_square _ (proj1 HL)) as [T1 T2].
  rewrite E.
  destruct (textColorForBackground_cases hx r g b Hr Hg Hb E)
    as [(Hlt & -> & _) | (Hgt & -> & _)].
  - apply T1 in Hlt. split; split; intros H'; try reflexivity; try exact Hlt.
    + discriminate.
    + exfalso. lra.
  - apply T2 in Hgt. split; split; intros H'; try reflexivity; try exact Hgt.
    + discriminate.
    + exfalso. lra.
Qed.

Lemma textColorForBackground_threshold_witness :
  canonical_hex (str "#6c5ce7") = true
  /\ (textColorForBackground (str "#6c5ce7") = str "#ffffff"
      <-> (relativeLuminance (hexToRgb (str "#6c5ce7")) < (sqrt 21 - 1) / 20)%R)
  /\ (textColorForBackground (str "#6c5ce7") = str "#000000"
      <-> ((sqrt 21 - 1) / 20 < relativeLuminance (hexToRgb (str "#6c5ce7")))%R).
Proof.
  assert (H : canonical_hex (str "#6c5ce7") = true) by reflexivity.
  split; [exact H|]. exact (textColorForBackground_threshold (str "#6c5ce7") H).
Defined.

(** X14. Making a background lighter never turns the suggested text from
    black to white: if a colour with integer channels in [0,255] gets
    [#000000], so does every colour that is nowhere darker. *)
Theorem textColorForBackground_monotone (r1 g1 b1 r2 g2 b2 : Z) :
  byte r1 -> byte g1 -> byte b1 -> byte r2 -> byte g2 -> byte b2 ->
  r1 <= r2 -> g1 <= g2 -> b1 <= b2 ->
  textColorForBackground (rgbToHex (rgb_of r1 g1 b1)) = str "#000000" ->
  textColorForBackground (rgbToHex (rgb_of r2 g2 b2)) = str "#000000".
Proof.
  intros Hr1 Hg1 Hb1 Hr2 Hg2 Hb2 Hr Hg Hb H.
  destruct (relativeLuminance_increasing r1 g1 b1 r2 g2 b2) as [Hle _]; try assumption.
  pose proof (relativeLuminance_unit r1 g1 b1 Hr1 Hg1 Hb1) as HL1.
  destruct (textColorForBackground_cases _ r1 g1 b1 Hr1 Hg1 Hb1
              (hexToRgb_rgbToHex r1 g1 b1 Hr1 Hg1 Hb1))
    as [(_ & E & _) | (Hgt & _ & _)]; [rewrite E in H; discriminate|].
  destruct (textColorForBackground_cases _ r2 g2 b2 Hr2 Hg2 Hb2
              (hexToRgb_rgbToHex r2 g2 b2 Hr2 Hg2 Hb2))
    as [(Hlt & _ & _) | (_ & E & _)]; [exfalso; nra | exact E].
Qed.

Lemma textColorForBackground_monotone_witness :
  (byte 200 /\ byte 200 /\ byte 200 /\ byte 201 /\ byte 200 /\ byte 255
   /\ 200 <= 201 /\ 200 <= 200 /\ 200 <= 255
   /\ textColorForBackground (rgbToHex (rgb_of 200 200 200)) = str "#000000")
  /\ textColorForBackground (rgbToHex (rgb_of 201 200 255)) = str "#000000".
Proof.
  assert (B : forall z, 0 <= z <= 255 -> byte z) by (intros z Hz; exact Hz).
  assert (E : textColorForBackground (rgbToHex (rgb_of 200 200 200)) = str "#000000").
  { destruct (textColorForBackground_cases (rgbToHex (rgb_of 200 200 200)) 200 200 200)
      as [(Hlt & _ & _) | (_ & E & _)]; try (apply B; lia).
    - apply hexToRgb_rgbToHex; apply B; lia.
    - exfalso.
      destruct (relativeLuminance_weight 200 200 200) as [Hw _]; try (apply B; lia).
      destruct (thresholds (relativeLuminance (rgb_of 200 200 200)) (weight 200 200 200))
        as [_ T].
      + apply relativeLuminance_unit; apply B; lia.
      + apply relativeLuminance_weight; apply B; lia.
      + assert (Hl : light <= weight 200 200 200) by (vm_compute; discriminate).
        specialize (T Hl). lra.
    - exact E. }
  split; [repeat (split; [first [apply B; lia | lia]|]); exact E|].
  apply (textColorForBackground_monotone 200 200 200 201 200 255);
    first [apply B; lia | lia | exact E].
Defined.

(** ** Contrast verdicts *)

Lemma Rgeb_true (x y : R) : Rgeb x y = true <-> (x >= y)%R.
Proof. unfold Rgeb. destruct (Rge_dec x y); split; auto; discriminate. Qed.

Lemma Rgeb_false (x y : R) : Rgeb x y = false <-> (x < y)%R.
Proof.
  unfold Rgeb. destruct (Rge_dec x y) as [H | H]; split; intros H'; try lra;
    try discriminate; reflexivity.
Qed.

Lemma checkContrast_sym (hex1 hex2 : jstring) :
  checkContrast hex1 hex2 = checkContrast hex2 hex1.
Proof. unfold checkContrast. cbv zeta. now rewrite contrastRatio_sym. Qed.

(** X15. The verdicts of [checkContrast] do not depend on the order of the
    two colours, and they are nested: AAA for normal text implies AA for
    normal text, which is the same verdict as AAA for large text and implies
    AA for large text. *)
Theorem checkContrast_verdicts (hex1 hex2 : jstring) :
  checkContrast hex1 hex2 = checkContrast hex2 hex1
  /\ (aaa_normal (checkContrast hex1 hex2) = true ->
      aa_normal (checkContrast hex1 hex2) = true)
  /\ aaa_large (checkContrast hex1 hex2) = aa_normal (checkContrast hex1 hex2)
  /\ (aa_normal (checkContrast hex1 hex2) = true ->
      aa_large (checkContrast hex1 hex2) = true).
Proof.
  split; [apply checkContrast_sym|].
  unfold checkContrast. cbn [aaa_normal aa_normal aaa_large aa_large].
  split; [|split; [reflexivity|]]; rewrite !Rgeb_true; lra.
Qed.

Lemma Int_part_floor (x : R) (n : Z) : (IZR n <= x < IZR n + 1)%R -> Int_part x = n.
Proof.
  intros [H1 H2]. unfold Int_part.
  rewrite <- (tech_up x (n + 1)); [lia | rewrite plus_IZR; lra | rewrite plus_IZR; lra].
Qed.

Lemma toFixed2_one : toFixed2 1 = str "1.00".
Proof.
  unfold toFixed2. destruct (Rlt_dec 1 0) as [H | _]; [lra|].
  rewrite Rabs_R1, (Int_part_floor _ 100) by lra. reflexivity.
Qed.

Lemma toFixed2_twenty_one : toFixed2 21 = str "21.00".
Proof.
  unfold toFixed2. destruct (Rlt_dec 21 0) as [H | _]; [lra|].
  rewrite Rabs_pos_eq, (Int_part_floor _ 2100) by lra. reflexivity.
Qed.

Lemma checkContrast_self (hx : jstring) :
  canonical_hex hx = true ->
  checkContrast hx hx = mkContrastResult (str "1.00") false false false false.
Proof.
  intros H. destruct (canonical_hex_channels hx H) as (r & g & b & Hr & Hg & Hb & E).
  unfold checkContrast. cbv zeta. rewrite E.
  destruct (contrastRatio_extremes_aux r g b Hr Hg Hb) as [-> _].
  rewrite toFixed2_one.
  repeat match goal with
         | |- context [Rgeb 1 ?y] =>
             replace (Rgeb 1 y) with false by (symmetry; apply Rgeb_false; lra)
         end.
  reflexivity.
Qed.

(** X16. A canonical hex string checked against itself has ratio [1.00] and
    fails every verdict; white against black has ratio [21.00] and passes
    every verdict. *)
Theorem checkContrast_extremes (hx : jstring) :
  canonical_hex hx = true ->
  checkContrast hx hx = mkContrastResult (str "1.00") false false false false
  /\ checkContrast (str "#ffffff") (str "#000000")
     = mkContrastResult (str "21.00") true true true true.
Proof.
  intros H. split; [exact (checkContrast_self hx H)|].
  unfold checkContrast. cbv zeta.
  change (hexToRgb (str "#ffffff")) with white.
  change (hexToRgb (str "#000000")) with black.
  destruct (contrastRatio_extremes_aux 0 0 0) as [_ ->]; try (unfold byte; lia).
  rewrite toFixed2_twenty_one.
  repeat match goal with
         | |- context [Rgeb 21 ?y] =>
             replace (Rgeb 21 y) with true by (symmetry; apply Rgeb_true; lra)
         end.
  reflexivity.
Qed.

Lemma checkContrast_extremes_witness :
  canonical_hex (str "#6c5ce7") = true
  /\ checkContrast (str "#6c5ce7") (str "#6c5ce7")
     = mkContrastResult (str "1.00") false false false false
  /\ checkContrast (str "#ffffff") (str "#000000")
     = mkContrastResult (str "21.00") true true true true.
Proof.
  assert (H : canonical_hex (str "#6c5ce7") = true) by reflexivity.
  split; [exact H|]. exact (checkContrast_extremes (str "#6c5ce7") H).
Defined.

Lemma suggested_text_bound (hx : jstring) :
  canonical_hex hx = true ->
  (sqrt 21 <= contrastRatio (hexToRgb hx) (hexToRgb (textColorForBackground hx)))%R
  /\ (contrastRatio (hexToRgb hx) (hexToRgb (textColorForBackground hx)) <= 21)%R.
Proof.
  intros H.
  destruct (canonical_hex_channels hx H) as (r & g & b & Hr & Hg & Hb & E).
  pose proof (relativeLuminance_unit r g b Hr Hg Hb) as [H0 H1].
  assert (P : (contrastRatio (rgb_of r g b) white
               * contrastRatio (rgb_of r g b) black = 21)%R).
  { unfold contrastRatio. cbv zeta.
    rewrite relativeLuminance_white, relativeLuminance_black.
    rewrite (Rmax_right _ 1 H1), (Rmin_left _ 1 H1),
            (Rmax_left _ 0 H0), (Rmin_right _ 0 H0).
    set (L := relativeLuminance (rgb_of r g b)) in *.
    assert (Ew : ((1 + 0.05) / (L + 0.05) * (L + 0.05) = 1 + 0.05)%R) by (field; lra).
    assert (Eb : ((L + 0.05) / (0 + 0.05) * 0.05 = L + 0.05)%R) by (field; lra).
    set (cw := ((1 + 0.05) / (L + 0.05))%R) in *.
    set (cb := ((L + 0.05) / (0 + 0.05))%R) in *.
    apply (Rmult_eq_reg_r ((L + 0.05) * 0.05)); [|nra].
    replace (cw * cb * ((L + 0.05) * 0.05))%R
      with (cw * (L + 0.05) * (cb * 0.05))%R by ring.
    rewrite Ew, Eb. lra. }
  pose proof (sqrt_pos 21) as Hs. pose proof (sqrt_sqrt 21 ltac:(lra)) as Es.
  destruct (contrastRatio_range_aux r g b 0 0 0) as [Lb Ub];
    try assumption; try (unfold byte; lia).
  destruct (contrastRatio_range_aux r g b 255 255 255) as [Lw Uw];
    try assumption; try (unfold byte; lia).
  change (rgb_of 0 0 0) with black in Lb, Ub.
  change (rgb_of 255 255 255) with white in Lw, Uw.
  rewrite E.
  destruct (textColorForBackground_cases hx r g b Hr Hg Hb E)
    as [(_ & -> & Hlt) | (_ & -> & Hlt)].
  - change (hexToRgb (str "#ffffff")) with white. split; [nra | exact Uw].
  - change (hexToRgb (str "#000000")) with black. split; [nra | exact Ub].
Qed.

(** X17. The text colour suggested for a canonical hex background always
    contrasts with it by at least [sqrt 21] (about 4.58), so the pair passes
    WCAG AA for normal text: the two candidate ratios multiply to 21 and the
    larger one is taken. *)
Theorem suggested_text_passes_AA (hx : jstring) :
  canonical_hex hx = true ->
  let text := textColorForBackground hx in
  (sqrt 21 <= contrastRatio (hexToRgb hx) (hexToRgb text))%R
  /\ aa_normal (checkContrast hx text) = true
  /\ aa_large (checkContrast hx text) = true.
Proof.
  intros H text. destruct (suggested_text_bound hx H) as [R1 _]. fold text in R1.
  pose proof (sqrt_pos 21) as Hs. pose proof (sqrt_sqrt 21 ltac:(lra)) as Es.
  split; [exact R1|].
  unfold checkContrast. cbn [aa_normal aa_large].
  rewrite !Rgeb_true. split; nra.
Qed.

Lemma suggested_text_passes_AA_witness :
  canonical_hex (str "#6c5ce7") = true
  /\ let text := textColorForBackground (str "#6c5ce7") in
     (sqrt 21 <= contrastRatio (hexToRgb (str "#6c5ce7")) (hexToRgb text))%R
     /\ aa_normal (checkContrast (str "#6c5ce7") text) = true
     /\ aa_large (checkContrast (str "#6c5ce7") text) = true.
Proof.
  assert (H : canonical_hex (str "#6c5ce7") = true) by reflexivity.
  split; [exact H|]. exact (suggested_text_passes_AA (str "#6c5ce7") H).
Defined.

(** * Further properties of the palette generator *)

Lemma array_from_empty_index (random : nat -> number) (n : nat) :
  forall i j st, array_from ∅ random n i st = array_from ∅ random n j st.
Proof.
  induction n as [|n IH]; intros i j st; cbn [array_from]; [reflexivity|].
  unfold palette_item. rewrite !lookup_empty.
  destruct (generated random st) as [v st']. now rewrite (IH (S i) (S j)).
Qed.

Lemma palette_item_unlocked (locked : gmap jstring jstring)
    (random : nat -> number) (i : nat) (st : cursor) :
  palette_item locked random i st
  = if unlocked locked i then generated random st
    else (default [] (locked !! String_of_index i), st).
Proof.
  unfold palette_item, unlocked.
  destruct (locked !! String_of_index i) as [w|]; [|reflexivity].
  now destruct (truthy w).
Qed.

Lemma array_from_unlocked (locked : gmap jstring jstring) (random : nat -> number)
    (n : nat) :
  forall i st,
  unlocked_entries locked i (array_from locked random n i st)
  = array_from ∅ random (length (List.filter (unlocked locked) (seq i n))) 0 st.
Proof.
  unfold unlocked_entries.
  induction n as [|n IH]; intros i st; [reflexivity|].
  cbn [array_from seq List.filter]. rewrite palette_item_unlocked.
  destruct (unlocked locked i) eqn:U.
  - destruct (generated random st) as [v st'] eqn:E.
    cbn [length seq combine List.filter fst]. rewrite U.
    cbn [map snd length array_from]. unfold palette_item at 1.
    rewrite lookup_empty, E. rewrite IH. f_equal. apply array_from_empty_index.
  - cbn [length seq combine List.filter fst]. rewrite U. apply IH.
Qed.

(** X18. Locked positions use up neither the hue cursor nor random draws:
    read in order, the colours at the unlocked positions of a palette are
    the palette that [generatePalette] gives without any lock for as many
    colours as there are unlocked positions. *)
Theorem generatePalette_unlocked
    (count : nat) (locked : gmap jstring jstring) (random : nat -> number) :
  unlocked_entries locked 0 (generatePalette locked random count)
  = generatePalette ∅ random (length (List.filter (unlocked locked) (seq 0 count))).
Proof. unfold generatePalette. apply array_from_unlocked. Qed.

(** * Properties of the tool handlers *)

Lemma clamp_count_all : forallb clamp_count_check (upto 2001) = true.
Proof. vm_compute. reflexivity. Qed.

(** X19. The [generate_palette] tool makes 5 colours when no count is
    given, and for an integer count (between -1000 and 1000) as many as the
    count brought into the range from 2 to 8; a count that is not a number
    gives an empty palette. *)
Theorem generate_palette_count (n : Z) :
  (-1000 <= n <= 1000 ->
   clamp_count (Some (Z2F n)) = Z2F (Z.min 8 (Z.max 2 n))
   /\ ToLength (clamp_count (Some (Z2F n))) = Z.to_nat (Z.min 8 (Z.max 2 n)))
  /\ ToLength (clamp_count None) = 5%nat
  /\ ToLength (clamp_count (Some nan)) = 0%nat.
Proof.
  split; [|split; reflexivity].
  intros Hn. pose proof (forallb_upto 2001 _ clamp_count_all (n + 1000) ltac:(lia)) as H.
  unfold clamp_count_check in H. replace (n + 1000 - 1000) with n in H by lia.
  apply andb_true_iff in H as [H1 H2].
  apply FloatAxioms.Leibniz.eqb_spec in H1. apply Nat.eqb_eq in H2. auto.
Qed.

Lemma generate_palette_count_witness :
  -1000 <= 12 <= 1000
  /\ (clamp_count (Some (Z2F 12)) = Z2F (Z.min 8 (Z.max 2 12))
      /\ ToLength (clamp_count (Some (Z2F 12))) = Z.to_nat (Z.min 8 (Z.max 2 12)))
  /\ ToLength (clamp_count None) = 5%nat
  /\ ToLength (clamp_count (Some nan)) = 0%nat.
Proof.
  split; [lia|]. destruct (generate_palette_count 12) as (A & B & C).
  split; [apply A; lia | split; [exact B | exact C]].
Defined.

Lemma palette_colors_from_nth (locked : gmap jstring jstring) (hexes : list jstring) :
  forall i j,
  nth_error (palette_colors_from locked i hexes) j
  = option_map (fun hex => mkPaletteColor (i + j)
                             (has_key locked (String_of_index (i + j)))
                             (colorInfo hex))
      (nth_error hexes j).
Proof.
  induction hexes as [|hex rest IH]; intros i j; cbn [palette_colors_from].
  - now destruct j.
  - destruct j as [|j]; cbn [nth_error option_map].
    + now rewrite Nat.add_0_r.
    + rewrite IH. now rewrite Nat.add_succ_comm.
Qed.

Lemma parse_locks_sound (entries : list (jstring * jstring)) :
  forall m locked,
  parse_locks entries m = Return locked ->
  forall k hex, locked !! k = Some hex ->
    m !! k = Some hex
    \/ exists v, In (k, v) entries /\ parseColor v = Return hex.
Proof.
  induction entries as [|[k0 v0] rest IH]; intros m locked H k hex Hk;
    cbn [parse_locks] in H.
  - injection H as <-. left. exact Hk.
  - destruct (parseColor v0) as [hex0|msg] eqn:E; [|discriminate].
    destruct (IH _ _ H k hex Hk) as [Hm | (v & Hin & Hv)].
    + apply lookup_insert_Some in Hm as [[<- <-] | [_ Hm]].
      * right. exists v0. split; [left; reflexivity | exact E].
      * left. exact Hm.
    + right. exists v. split; [right; exact Hin | exact Hv].
Qed.

Lemma parse_locks_keys (entries : list (jstring * jstring)) :
  forall m locked,
  parse_locks entries m = Return locked ->
  forall k, has_key locked k = true <-> has_key m k = true \/ In k (map fst entries).
Proof.
  unfold has_key.
  induction entries as [|[k0 v0] rest IH]; intros m locked H k; cbn [parse_locks] in H.
  - injection H as <-. cbn. tauto.
  - destruct (parseColor v0) as [hex0|msg] eqn:E; [|discriminate].
    rewrite (IH _ _ H k). cbn [map fst In].
    destruct (decide (k0 = k)) as [-> | Hne].
    + rewrite lookup_insert_eq. tauto.
    + rewrite lookup_insert_ne by exact Hne. tauto.
Qed.

Lemma parse_locks_all (entries : list (jstring * jstring)) :
  (forall e, In e entries -> throws (snd e) = false) ->
  forall m, exists locked, parse_locks entries m = Return locked.
Proof.
  induction entries as [|[k0 v0] rest IH]; intros Hall m; cbn [parse_locks].
  - now exists m.
  - pose proof (Hall (k0, v0) (or_introl eq_refl)) as H0. unfold throws in H0.
    cbn [snd] in H0. destruct (parseColor v0) as [hex0|msg]; [|discriminate].
    apply IH. intros e He. apply Hall. now right.
Qed.

Lemma parse_locks_first_failure (pre post : list (jstring * jstring)) (k v : jstring) :
  (forall e, In e pre -> throws (snd e) = false) -> throws v = true ->
  forall m, parse_locks (pre ++ (k, v) :: post) m = Throw (parse_error v).
Proof.
  induction pre as [|[k0 v0] rest IH]; intros Hall Hv m; cbn [app parse_locks].
  - unfold throws in Hv. destruct (parseColor v) as [hex|msg] eqn:E; [discriminate|].
    now apply parseColor_throw_inv in E as [-> _].
  - pose proof (Hall (k0, v0) (or_introl eq_refl)) as H0. unfold throws in H0.
    cbn [snd] in H0. destruct (parseColor v0) as [hex0|msg]; [|discriminate].
    apply IH; [|exact Hv]. intros e He. apply Hall. now right.
Qed.

Lemma palette_colors_from_length (locked : gmap jstring jstring)
    (hexes : list jstring) :
  forall i, length (palette_colors_from locked i hexes) = length hexes.
Proof.
  induction hexes as [|hex rest IH]; intros i; cbn [palette_colors_from length];
    [reflexivity | now rewrite IH].
Qed.

Lemma has_key_unlocked (locked : gmap jstring jstring) (i : nat) :
  (forall k v, locked !! k = Some v -> canonical_hex v = true) ->
  has_key locked (String_of_index i) = negb (unlocked locked i).
Proof.
  intros Hc. unfold has_key, unlocked.
  destruct (locked !! String_of_index i) as [v|] eqn:E; [|reflexivity].
  now rewrite (canonical_hex_truthy v (Hc _ _ E)).
Qed.

(** X20. In the [generate_palette] tool every lock value is parsed first.
    If one does not parse, the reply is the parse error of the first such
    value and no palette is made.  Otherwise the reply holds as many colours
    as the count asks for, each at its position, and a colour is marked
    locked exactly when its position is a key of the lock argument: then its
    hex is the parsed lock value, and else the position went through the
    generator (a parsed lock is never the empty string). *)
Theorem generate_palette_locks
    (count : option number) (entries : list (jstring * jstring))
    (random : nat -> number) :
  (forall pre k v post,
     entries = pre ++ (k, v) :: post ->
     (forall e, In e pre -> throws (snd e) = false) -> throws v = true ->
     generate_palette count (Some entries) random = Err (parse_error v))
  /\ ((forall e, In e entries -> throws (snd e) = false) ->
      exists locked colors,
        generate_palette count (Some entries) random = Ok (clamp_count count, colors)
        /\ length colors = ToLength (clamp_count count)
        /\ forall i c, nth_error colors i = Some c ->
             position c = i
             /\ nth_error (generatePalette locked random (ToLength (clamp_count count))) i
                = Some (hex (info c))
             /\ info c = colorInfo (hex (info c))
             /\ (is_locked c = true <-> In (String_of_index i) (map fst entries))
             /\ (is_locked c = true ->
                 exists v, In (String_of_index i, v) entries
                           /\ parseColor v = Return (hex (info c)))
             /\ (is_locked c = false -> unlocked locked i = true)).
Proof.
  split.
  - intros pre k v post -> Hpre Hv. unfold generate_palette.
    change (default [] (Some (pre ++ (k, v) :: post))) with (pre ++ (k, v) :: post).
    now rewrite (parse_locks_first_failure pre post k v Hpre Hv).
  - intros Hall. destruct (parse_locks_all entries Hall ∅) as [locked E].
    exists locked, (palette_colors locked
                      (generatePalette locked random (ToLength (clamp_count count)))).
    unfold generate_palette.
    change (default [] (Some entries)) with entries. rewrite E. cbv zeta.
    split; [reflexivity|].
    assert (Hcanon : forall k v, locked !! k = Some v -> canonical_hex v = true).
    { intros k v Hk.
      destruct (parse_locks_sound entries ∅ locked E k v Hk) as [H | (w & _ & Hw)].
      - rewrite lookup_empty in H. discriminate.
      - exact (parseColor_returns_canonical _ _ Hw). }
    split.
    { unfold palette_colors. rewrite palette_colors_from_length.
      apply array_from_length. }
    intros i c Hc. unfold palette_colors in Hc.
    rewrite palette_colors_from_nth in Hc. cbn [Nat.add] in Hc.
    destruct (nth_error (generatePalette locked random _) i) as [hx|] eqn:Ei;
      [|discriminate].
    injection Hc as <-. cbn [position is_locked info].
    split; [reflexivity|]. split; [reflexivity|]. split; [reflexivity|].
    assert (Hi : (i < ToLength (clamp_count count))%nat).
    { rewrite <- (array_from_length locked random (ToLength (clamp_count count)) 0
                    (mkCursor (random 0%nat * 360)%float 1)).
      apply nth_error_Some. unfold generatePalette in Ei. rewrite Ei. discriminate. }
    split; [|split].
    + rewrite (parse_locks_keys entries ∅ locked E).
      assert (He : has_key ∅ (String_of_index i) = false)
        by (unfold has_key; now rewrite lookup_empty).
      rewrite He. split; [intros [H | H]; [discriminate | exact H] | auto].
    + unfold has_key. destruct (locked !! String_of_index i) as [v|] eqn:Ek;
        [intros _ | discriminate].
      destruct (parse_locks_sound entries ∅ locked E _ v Ek) as [H | (w & Hin & Hw)].
      * rewrite lookup_empty in H. discriminate.
      * exists w. split; [exact Hin|].
        unfold generatePalette in Ei. rewrite array_from_nth in Ei by exact Hi.
        cbn [Nat.add] in Ei.
        rewrite (palette_item_locked _ _ _ _ v Ek
                   (canonical_hex_truthy v (Hcanon _ _ Ek))) in Ei.
        cbn [fst] in Ei. injection Ei as <-. exact Hw.
    + rewrite (has_key_unlocked locked i Hcanon).
      now destruct (unlocked locked i).
Qed.

Lemma generate_palette_locks_witness :
  let entries := [(str "1", str "#6CE"); (str "7", str "")] in
  (entries = [(str "1", str "#6CE")] ++ (str "7", str "") :: []
   /\ (forall e, In e [(str "1", str "#6CE")] -> throws (snd e) = false)
   /\ throws (str "") = true)
  /\ generate_palette None (Some entries) (fun _ => 0.5%float)
     = Err (parse_error (str "")).
Proof.
  intros entries. 
  assert (H1 : entries = [(str "1", str "#6CE")] ++ (str "7", str "") :: [])
    by reflexivity.
  assert (H2 : forall e, In e [(str "1", str "#6CE")] -> throws (snd e) = false).
  { intros e [<- | []]. reflexivity. }
  assert (H3 : throws (str "") = true) by reflexivity.
  split; [auto|].
  exact (proj1 (generate_palette_locks None entries (fun _ => 0.5%float))
           _ _ _ _ H1 H2 H3).
Defined.

Lemma sqrt_21_bound : (4.58 < sqrt 21)%R.
Proof.
  pose proof (sqrt_pos 21) as Hs. pose proof (sqrt_sqrt 21 ltac:(lra)) as Es. nra.
Qed.

Lemma Int_part_bounds (x : R) (lo hi : Z) :
  (IZR lo <= x < IZR hi + 1)%R -> lo <= Int_part x <= hi.
Proof.
  intros [H1 H2]. destruct (base_Int_part x) as [B1 B2]. split.
  - apply Z.lt_succ_r. apply lt_IZR. rewrite succ_IZR. lra.
  - apply Z.lt_succ_r. apply lt_IZR. rewrite succ_IZR. lra.
Qed.

Lemma textColorForBackground_two (hx : jstring) :
  textColorForBackground hx = str "#ffffff" \/ textColorForBackground hx = str "#000000".
Proof.
  unfold textColorForBackground. cbv zeta. destruct (Rgt_dec _ _); auto.
Qed.

(** X21. The [suggest_text_color] tool answers a background that does not
    parse with the parse error.  For one that parses it recommends
    [#ffffff] or [#000000] and reports a contrast ratio that is never below
    4.58 (nor above 21.00), printed with two decimals. *)
Theorem suggest_text_color_reply (background : jstring) :
  (throws background = true ->
   suggest_text_color background = Err (parse_error background))
  /\ (forall bg, parseColor background = Return bg ->
      exists text n,
        (text = str "#ffffff" \/ text = str "#000000")
        /\ 458 <= n <= 2100
        /\ suggest_text_color background
           = Ok (mkTextReply (colorInfo bg) (colorInfo text) (hundredths n))).
Proof.
  split.
  - unfold throws, suggest_text_color.
    destruct (parseColor background) as [hex|msg] eqn:E; [discriminate|].
    intros _. now apply parseColor_throw_inv in E as [-> _].
  - intros bg E. pose proof (parseColor_returns_canonical _ _ E) as Hc.
    destruct (suggested_text_bound bg Hc) as [Hlo Hhi].
    exists (textColorForBackground bg),
           (Int_part (Rabs (contrastRatio (hexToRgb bg)
                              (hexToRgb (textColorForBackground bg))) * 100 + / 2)).
    split; [apply textColorForBackground_two|].
    pose proof sqrt_21_bound as Hs.
    set (ratio := contrastRatio (hexToRgb bg) (hexToRgb (textColorForBackground bg))) in *.
    split.
    + apply Int_part_bounds. rewrite Rabs_pos_eq by lra. split; lra.
    + unfold suggest_text_color. rewrite E. cbv zeta. fold ratio.
      unfold toFixed2. destruct (Rlt_dec ratio 0) as [Hneg | _]; [lra | reflexivity].
Qed.

Lemma suggest_text_color_reply_witness :
  throws (str "rgba(1,2,3,0.5)") = true
  /\ suggest_text_color (str "rgba(1,2,3,0.5)") = Err (parse_error (str "rgba(1,2,3,0.5)")).
Proof.
  assert (H : throws (str "rgba(1,2,3,0.5)") = true) by reflexivity.
  split; [exact H|]. exact (proj1 (suggest_text_color_reply _) H).
Defined.

(** X22. The [check_contrast] tool reports the parse error of the
    foreground first, then that of the background.  When both parse, the
    verdict and the contrast result are the same with the two colours
    swapped, and a colour against itself gets the verdict [Fail]. *)
Theorem check_contrast_reply (a c : jstring) :
  (throws a = true -> check_contrast a c = Err (parse_error a))
  /\ (throws a = false -> throws c = true ->
      check_contrast a c = Err (parse_error c))
  /\ (forall fg bg, parseColor a = Return fg -> parseColor c = Return bg ->
      exists x y,
        check_contrast a c = Ok x /\ check_contrast c a = Ok y
        /\ result x = result y /\ verdict x = verdict y
        /\ foreground x = background y /\ background x = foreground y)
  /\ (forall fg, parseColor a = Return fg ->
      exists x, check_contrast a a = Ok x
        /\ verdict x
           = str "Fail " ++ dash ++ str " insufficient contrast for any text use").
Proof.
  unfold throws, check_contrast. repeat split.
  - destruct (parseColor a) as [hex|msg] eqn:E; [discriminate|].
    intros _. now apply parseColor_throw_inv in E as [-> _].
  - destruct (parseColor a) as [hex|msg]; [intros _ | discriminate].
    destruct (parseColor c) as [hex'|msg] eqn:E; [discriminate|].
    intros _. now apply parseColor_throw_inv in E as [-> _].
  - intros fg bg -> ->. eexists. eexists. split; [reflexivity|]. split; [reflexivity|].
    cbn [result verdict foreground background].
    rewrite (checkContrast_sym fg bg). auto.
  - intros fg E. rewrite E. eexists. split; [reflexivity|]. cbn [verdict].
    now rewrite (checkContrast_self fg (parseColor_returns_canonical _ _ E)).
Qed.

(** ** Analysing a palette *)

Lemma parse_all_length (raw : list jstring) :
  forall hexes, parse_all raw = Return hexes ->
  length hexes = length raw
  /\ forall hx, In hx hexes -> canonical_hex hx = true.
Proof.
  induction raw as [|t rest IH]; intros hexes H; cbn [parse_all] in H.
  - injection H as <-. split; [reflexivity | intros hx []].
  - destruct (parseColor t) as [hex|msg] eqn:E; [|discriminate].
    destruct (parse_all rest) as [hs|msg]; [|discriminate].
    injection H as <-. destruct (IH hs eq_refl) as [Hl Hc].
    split; [cbn [length]; now rewrite Hl|].
    intros hx [<- | Hin]; [exact (parseColor_returns_canonical _ _ E) | now apply Hc].
Qed.

Lemma parse_all_first_failure (pre post : list jstring) (t : jstring) :
  (forall u, In u pre -> throws u = false) -> throws t = true ->
  parse_all (pre ++ t :: post) = Throw (parse_error t).
Proof.
  induction pre as [|u rest IH]; intros Hall Ht; cbn [app parse_all].
  - unfold throws in Ht. destruct (parseColor t) as [hex|msg] eqn:E; [discriminate|].
    now apply parseColor_throw_inv in E as [-> _].
  - pose proof (Hall u (or_introl eq_refl)) as H0. unfold throws in H0.
    destruct (parseColor u) as [hex0|msg]; [|discriminate].
    rewrite IH; [reflexivity | | exact Ht]. intros e He. apply Hall. now right.
Qed.

Lemma positioned_from_length (hexes : list jstring) :
  forall i, length (positioned_from i hexes) = length hexes.
Proof.
  induction hexes as [|hex rest IH]; intros i; cbn [positioned_from length];
    [reflexivity | now rewrite IH].
Qed.

Lemma pairs_of_length (hexes : list jstring) :
  (2 * length (pairs_of hexes) = length hexes * (length hexes - 1))%nat.
Proof.
  induction hexes as [|x rest IH]; cbn [pairs_of length]; [reflexivity|].
  rewrite length_app, length_map. nia.
Qed.

Lemma pairs_of_duplicate (l1 l2 l3 : list jstring) (x : jstring) :
  canonical_hex x = true ->
  In (mkContrastPair (x, x) (str "1.00") false false)
     (pairs_of (l1 ++ x :: l2 ++ x :: l3)).
Proof.
  intros Hx. induction l1 as [|y l1 IH]; cbn [app pairs_of].
  - apply in_or_app. left. apply in_map_iff. exists x. split.
    + cbv zeta. now rewrite (checkContrast_self x Hx).
    + apply in_or_app. right. left. reflexivity.
  - apply in_or_app. right. exact IH.
Qed.

(** X23. The [analyze_palette] tool refuses a missing or empty list of
    colours with [colors array is required], whatever the background is.
    Otherwise the colours are parsed before the background: the error is
    that of the first colour that does not parse, else that of the
    background.  When everything parses, the reply has one entry per colour
    in [colors] and in [on_background], [n (n - 1) / 2] contrast pairs for
    [n] colours, a suggested text of [#ffffff] or [#000000] for each colour,
    and a list of issues that is never empty. *)
Theorem analyze_palette_reply (raw : list jstring) (background : option jstring) :
  analyze_palette None background = Err (str "colors array is required")
  /\ analyze_palette (Some []) background = Err (str "colors array is required")
  /\ (forall pre t post,
        raw = pre ++ t :: post ->
        (forall u, In u pre -> throws u = false) -> throws t = true ->
        analyze_palette (Some raw) background = Err (parse_error t))
  /\ (forall hexes,
        raw <> [] -> parse_all raw = Return hexes ->
        throws (default (str "#ffffff") background) = true ->
        analyze_palette (Some raw) background
        = Err (parse_error (default (str "#ffffff") background)))
  /\ (forall hexes bg,
        raw <> [] -> parse_all raw = Return hexes ->
        parseColor (default (str "#ffffff") background) = Return bg ->
        exists a,
          analyze_palette (Some raw) background = Ok a
          /\ length (colors a) = length raw
          /\ length (on_background a) = length raw
          /\ (2 * length (contrast_pairs a) = length raw * (length raw - 1))%nat
          /\ issues a <> []
          /\ forall ob, In ob (on_background a) ->
               suggested_text ob = str "#ffffff" \/ suggested_text ob = str "#000000").
Proof.
  split; [reflexivity|]. split; [reflexivity|]. split; [|split].
  - intros pre t post -> Hpre Ht. unfold analyze_palette.
    rewrite (parse_all_first_failure pre post t Hpre Ht).
    now destruct pre.
  - intros hexes Hne E Hb. unfold analyze_palette. rewrite E.
    destruct raw as [|t rest]; [congruence|].
    unfold throws in Hb.
    destruct (parseColor (default (str "#ffffff") background)) as [bg|msg] eqn:Eb;
      [discriminate|].
    now apply parseColor_throw_inv in Eb as [-> _].
  - intros hexes bg Hne E Eb. unfold analyze_palette. rewrite E, Eb.
    destruct raw as [|t rest]; [congruence|].
    destruct (parse_all_length _ _ E) as [Hlen _].
    eexists. split; [reflexivity|].
    cbn [colors on_background contrast_pairs issues].
    split; [now rewrite positioned_from_length|].
    split; [now rewrite length_map|].
    split; [rewrite <- Hlen; apply pairs_of_length|].
    split.
    + destruct (_ ++ _); discriminate.
    + intros ob Hob. apply in_map_iff in Hob as (hx & <- & _).
      cbn [suggested_text]. apply textColorForBackground_two.
Qed.

(** X24. When two of the colours given to [analyze_palette] parse to the
    same hex, the reply lists the pair among its issues, with the ratio
    [1.00]. *)
Theorem analyze_palette_duplicates
    (raw l1 l2 l3 : list jstring) (x : jstring) (background : option jstring)
    (bg : jstring) :
  parse_all raw = Return (l1 ++ x :: l2 ++ x :: l3) ->
  parseColor (default (str "#ffffff") background) = Return bg ->
  exists a,
    analyze_palette (Some raw) background = Ok a
    /\ In (x ++ str " and " ++ x ++ str " have very low contrast (1.00:1) "
             ++ dash ++ str " unusable as text/background pair") (issues a).
Proof.
  intros E Eb. unfold analyze_palette. rewrite E, Eb.
  destruct raw as [|t rest].
  { cbn [parse_all] in E. injection E as E. now destruct l1. }
  eexists. split; [reflexivity|]. cbn [issues].
  assert (Hx : canonical_hex x = true).
  { apply (proj2 (parse_all_length _ _ E)). apply in_or_app. right. left. reflexivity. }
  match goal with
  | |- In ?m (match ?l with [] => _ | _ => _ end) =>
      assert (Hin : In m l); [|destruct l; [destruct Hin | exact Hin]]
  end.
  apply in_or_app. left.
  apply in_map_iff. exists (mkContrastPair (x, x) (str "1.00") false false).
  split; [reflexivity|].
  apply filter_In. split; [now apply pairs_of_duplicate | reflexivity].
Qed.

Lemma analyze_palette_duplicates_witness :
  (parse_all [str "#6CE"; str "rgb(102, 204, 238)"]
   = Return ([] ++ str "#66ccee" :: [] ++ str "#66ccee" :: [])
   /\ parseColor (default (str "#ffffff") None) = Return (str "#ffffff"))
  /\ exists a,
       analyze_palette (Some [str "#6CE"; str "rgb(102, 204, 238)"]) None = Ok a
       /\ In (str "#66ccee" ++ str " and " ++ str "#66ccee"
                ++ str " have very low contrast (1.00:1) "
                ++ dash ++ str " unusable as text/background pair") (issues a).
Proof.
  assert (H1 : parse_all [str "#6CE"; str "rgb(102, 204, 238)"]
               = Return ([] ++ str "#66ccee" :: [] ++ str "#66ccee" :: []))
    by (vm_compute; reflexivity).
  assert (H2 : parseColor (default (str "#ffffff") None) = Return (str "#ffffff"))
    by (vm_compute; reflexivity).
  split; [auto|].
  exact (analyze_palette_duplicates _ [] [] [] (str "#66ccee") None (str "#ffffff") H1 H2).
Defined.

(** X25. The [convert_color] tool answers a text that does not parse with
    the parse error.  For one that parses, the [hex] and the [rgb] text of
    its reply are themselves inputs the tool answers with the same reply. *)
Theorem convert_color_reply (text : jstring) :
  (throws text = true -> convert_color text = Err (parse_error text))
  /\ (forall hx, parseColor text = Return hx ->
      convert_color text = Ok (colorInfo hx)
      /\ convert_color (hex (colorInfo hx)) = Ok (colorInfo hx)
      /\ convert_color (rgb (colorInfo hx)) = Ok (colorInfo hx)).
Proof.
  unfold throws, convert_color. split.
  - destruct (parseColor text) as [hx|msg] eqn:E; [discriminate|].
    intros _. now apply parseColor_throw_inv in E as [-> _].
  - intros hx E. rewrite E. split; [reflexivity|].
    pose proof (parseColor_returns_canonical _ _ E) as Hc.
    destruct (colorInfo_fields hx Hc) as (E1 & E2).
    rewrite E1, E2. cbn [hex]. rewrite (parseColor_canonical_hex hx Hc). auto.
Qed.

Lemma convert_color_reply_witness :
  throws (str "red") = true /\ convert_color (str "red") = Err (parse_error (str "red")).
Proof.
  assert (H : throws (str "red") = true) by reflexivity.
  split; [exact H|]. exact (proj1 (convert_color_reply (str "red")) H).
Defined.

(** * Channels outside the byte range *)

Lemma toHex_shape_all : forallb toHex_shape (upto 4596) = true.
Proof. vm_compute. reflexivity. Qed.

Lemma toHex_outside (z : Z) :
  -500 <= z <= 4095 ->
  (2 <= length (toHex (Z2F z)))%nat
  /\ (~ byte z ->
      (3 <= length (toHex (Z2F z)))%nat
      \/ forallb is_lower_hex (toHex (Z2F z)) = false).
Proof.
  intros Hz. pose proof (forallb_upto 4596 _ toHex_shape_all (z + 500) ltac:(lia)) as H.
  unfold toHex_shape in H. cbv zeta in H.
  replace (z + 500 - 500) with z in H by lia.
  destruct ((0 <=? z) && (z <=? 255)) eqn:B.
  - apply andb_true_iff in B as [B1 B2]. apply Z.leb_le in B1, B2.
    apply andb_true_iff in H as [H _]. apply Nat.eqb_eq in H.
    split; [lia | intros Hn; exfalso; apply Hn; unfold byte; lia].
  - apply andb_true_iff in H as [H1 H2]. apply Nat.leb_le in H1.
    split; [exact H1 | intros _].
    apply orb_true_iff in H2 as [H2 | H2].
    + left. now apply Nat.leb_le.
    + right. now apply negb_true_iff.
Qed.

(** X26. [rgbToHex] does not check its channels: for integer channels
    between -500 and 4095 its result is a canonical hex string exactly
    when all three channels are in [0,255] (a larger channel prints as three
    digits, a negative one with a minus sign). *)
Theorem rgbToHex_canonical_iff (r g b : Z) :
  -500 <= r <= 4095 -> -500 <= g <= 4095 -> -500 <= b <= 4095 ->
  canonical_hex (rgbToHex (rgb_of r g b)) = true <-> byte r /\ byte g /\ byte b.
Proof.
  intros Hr Hg Hb. split.
  - intros H.
    destruct (toHex_outside r Hr) as [Lr Or].
    destruct (toHex_outside g Hg) as [Lg Og].
    destruct (toHex_outside b Hb) as [Lb Ob].
    unfold rgbToHex, rgb_of in H. cbn [str app canonical_hex] in H.
    apply andb_true_iff in H as [H Hl]. apply andb_true_iff in H as [_ Hn].
    apply Nat.eqb_eq in Hn. rewrite !length_app in Hn.
    rewrite !forallb_app in Hl.
    apply andb_true_iff in Hl as [Hl1 Hl]. apply andb_true_iff in Hl as [Hl2 Hl3].
    assert (D : forall z, byte z \/ ~ byte z) by (intros z; unfold byte; lia).
    split; [|split].
    + destruct (D r) as [Hy | Hn']; [exact Hy | exfalso].
      destruct (Or Hn') as [O | O]; [lia | congruence].
    + destruct (D g) as [Hy | Hn']; [exact Hy | exfalso].
      destruct (Og Hn') as [O | O]; [lia | congruence].
    + destruct (D b) as [Hy | Hn']; [exact Hy | exfalso].
      destruct (Ob Hn') as [O | O]; [lia | congruence].
  - intros (Br & Bg & Bb). now apply rgbToHex_canonical.
Qed.

Lemma rgbToHex_canonical_iff_witness :
  (-500 <= 256 <= 4095 /\ -500 <= 0 <= 4095 /\ -500 <= -1 <= 4095)
  /\ (canonical_hex (rgbToHex (rgb_of 256 0 (-1))) = true
      <-> byte 256 /\ byte 0 /\ byte (-1)).
Proof. split; [lia|]. apply (rgbToHex_canonical_iff 256 0 (-1)); lia. Defined.
